(** * Vulkan scheduler, fences, presentation and memory allocation

    A shallow embedding of the command scheduler
    ([video_core/renderer_vulkan/vk_scheduler.cpp]), the fence manager
    ([vk_fence_manager.cpp]), the swapchain copy of the present manager
    ([vk_present_manager.cpp]) and the memory allocator
    ([vulkan_memory_allocator.cpp]), followed by the properties proved about
    them.

    Handles and pointers are integers, [nullptr] being [0]; [u32] and [u64]
    values are integers with their wrap-around written out.  The worker
    thread and the GPU are steps of a transition system whose schedule is an
    explicit list of events, so a statement quantified over schedules covers
    every interleaving of the producer with the worker and the GPU. *)

From Stdlib Require Import ZArith List Bool Lia.
From Stdlib Require Import Sorting.Sorted Sorting.Permutation.
Import ListNotations.
Local Open Scope Z_scope.

(* ================================================================== *)
(** * Machine integers and Vulkan constants *)
(* ================================================================== *)

Definition u32_modulus : Z := 2 ^ 32.
Definition u64_modulus : Z := 2 ^ 64.

Definition to_u32 (z : Z) : Z := z mod u32_modulus.
Definition to_u64 (z : Z) : Z := z mod u64_modulus.

(** [nullptr] and [VK_NULL_HANDLE]. *)
Definition nullptr : Z := 0.

(** [VkResult] codes used by the code below (vulkan_core.h). *)
Definition VK_SUCCESS : Z := 0.
Definition VK_ERROR_DEVICE_LOST : Z := -4.
Definition VK_ERROR_SURFACE_LOST_KHR : Z := -1000000000.
Definition VK_SUBOPTIMAL_KHR : Z := 1000001003.
Definition VK_ERROR_OUT_OF_DATE_KHR : Z := -1000001004.

(** Image aspect, layout and memory property bits (vulkan_core.h). *)
Definition VK_IMAGE_ASPECT_DEPTH_BIT : Z := 2.
Definition VK_IMAGE_ASPECT_STENCIL_BIT : Z := 4.
Definition VK_IMAGE_LAYOUT_GENERAL : Z := 1.
Definition VK_IMAGE_LAYOUT_COLOR_ATTACHMENT_OPTIMAL : Z := 2.
Definition VK_IMAGE_LAYOUT_DEPTH_STENCIL_ATTACHMENT_OPTIMAL : Z := 3.
Definition VK_MEMORY_PROPERTY_DEVICE_LOCAL_BIT : Z := 1.
Definition VK_MEMORY_PROPERTY_HOST_VISIBLE_BIT : Z := 2.
Definition VK_MEMORY_PROPERTY_HOST_COHERENT_BIT : Z := 4.

Record VkExtent2D := { width : Z; height : Z }.

Record VkImageSubresourceRange := {
  aspectMask : Z;
  baseMipLevel : Z;
  levelCount : Z;
  baseArrayLayer : Z;
  layerCount : Z
}.

(** The fields of [VkImageMemoryBarrier] that vary between the barriers
    built by [Scheduler::EndRenderPass]. *)
Record VkImageMemoryBarrier := {
  oldLayout : Z;
  newLayout : Z;
  image : Z;
  subresourceRange : VkImageSubresourceRange
}.

(** What a C++ call can do: return a value or throw a [vk::Exception]
    carrying a [VkResult]; [OutOfFuel] marks a loop cut short by the bound of
    the model. *)
Inductive Outcome (A : Type) : Type :=
| Returned (a : A)
| Threw (result : Z)
| OutOfFuel.
Arguments Returned {A} a.
Arguments Threw {A} result.
Arguments OutOfFuel {A}.

(* ================================================================== *)
(** * MasterSemaphore *)
(* ================================================================== *)

Module MasterSemaphore.

(** Modelled from the spec: [vk_master_semaphore.cpp] is not among the
    sources.  The master semaphore wraps an unsigned 64-bit counter
    ("tick"): [current_tick] is the next tick to issue and [gpu_tick] the
    value of the host GPU timeline.  A fresh semaphore has issued nothing
    and its timeline is at zero. *)
Record t := { current_tick : Z; gpu_tick : Z }.

Definition init : t := {| current_tick := 1; gpu_tick := 0 |}.

(** Modelled from the spec: "monotonic tick issuance
    ([NextTick]/[PeekNextTick])" on an unsigned 64-bit counter.
    [NextTick] hands out the current value and advances the counter. *)
Definition NextTick (ms : t) : Z * t :=
  (current_tick ms,
   {| current_tick := to_u64 (current_tick ms + 1); gpu_tick := gpu_tick ms |}).

Definition PeekNextTick (ms : t) : Z := current_tick ms.

(** Modelled from the spec: "a tick is completed once the host GPU timeline
    value >= tick". *)
Definition IsSignaled (ms : t) (tick : Z) : bool := tick <=? gpu_tick ms.

Definition GetValue (ms : t) : Z := gpu_tick ms.

(** The GPU signals the timeline with the value of a retired submission. *)
Definition signal (value : Z) (ms : t) : t :=
  {| current_tick := current_tick ms; gpu_tick := value |}.

End MasterSemaphore.

(* ================================================================== *)
(** * Scheduler *)
(* ================================================================== *)

Module Scheduler.

(** The type-erased commands a chunk holds.  [Closure] is a closure handed
    to [Record] by a client of the scheduler, identified by a stamp; the
    other three are the closures the scheduler records itself, with what
    they capture: the begin of a render pass in [RequestRenderpass], the end
    of the render pass with its barriers in [EndRenderPass], and in
    [SubmitExecution] the closure that ends both command buffers after the
    upload barrier, calls [on_submit] when it is set and hands the buffers
    to [MasterSemaphore::SubmitQueue] with the signal value.  The closure
    of [EndRenderPass] captures the attachment count by value and the
    arrays as the pointers [const VkImage* images] and
    [const VkImageSubresourceRange* ranges]: what they point to is read
    when the worker executes the closure. *)
Inductive Command : Type :=
| Closure (stamp : nat)
| BeginRenderPassCmd (renderpass framebuffer : Z) (render_area : VkExtent2D)
| EndRenderPassCmd (num_images : Z) (images : Z) (ranges : Z)
| SubmitCmd (signal_semaphore wait_semaphore signal_value : Z).

(** [CommandChunk]: the singly linked list from [first] to [last] and the
    "contains a submission" marker. *)
Record CommandChunk := { commands : list Command; submit : bool }.

Definition new_chunk : CommandChunk := {| commands := []; submit := false |}.

Definition Empty (ch : CommandChunk) : bool :=
  match commands ch with [] => true | _ :: _ => false end.

Definition MarkSubmit (ch : CommandChunk) : CommandChunk :=
  {| commands := commands ch; submit := true |}.

Definition HasSubmit (ch : CommandChunk) : bool := submit ch.

(** [Scheduler::State], the change-detection cache. *)
Record State := {
  renderpass : Z;
  framebuffer : Z;
  render_area : VkExtent2D;
  graphics_pipeline : Z;
  is_rescaling : bool;
  rescaling_defined : bool
}.

Definition initial_state : State :=
  {| renderpass := nullptr; framebuffer := nullptr;
     render_area := {| width := 0; height := 0 |};
     graphics_pipeline := nullptr;
     is_rescaling := false; rescaling_defined := false |}.

(** What [Scheduler::RequestRenderpass] reads from a [Framebuffer].
    [Images] and [ImageRanges] are the pointers the two accessors return,
    the addresses of the arrays the framebuffer keeps. *)
Record Framebuffer := {
  RenderPass : Z;
  Handle : Z;
  RenderArea : VkExtent2D;
  NumImages : Z;
  Images : Z;
  ImageRanges : Z
}.

(** The worker thread's side: the commands it has executed, oldest first,
    the number of command buffer pairs it has begun and whether it is
    still running (an exception leaving the thread function ends the
    process). *)
Record Worker := {
  executed : list Command;
  cmdbuf_allocations : nat;
  alive : bool
}.

(** The device's side: the signal values of the submissions handed to the
    queue and not yet retired, oldest first, those retired, and whether a
    device loss was reported. *)
Record Gpu := {
  submitted : list Z;
  retired : list Z;
  loss_reported : bool
}.

(** The scheduler with the threads it talks to.  [query_cache] is the
    optional query cache, kept as the arguments of its [NotifySegment]
    calls; [chunk_capacity] is the number of commands a chunk holds. *)
Record t := {
  state : State;
  num_renderpass_images : Z;
  renderpass_images : Z;
  renderpass_image_ranges : Z;
  chunk : CommandChunk;
  work_queue : list CommandChunk;
  chunk_reserve : list CommandChunk;
  master_semaphore : MasterSemaphore.t;
  query_cache : option (list bool);
  chunk_capacity : nat;
  worker : Worker;
  gpu : Gpu
}.

(** ** Field updates *)

Definition set_state (st : State) (s : t) : t :=
  {| state := st;
     num_renderpass_images := num_renderpass_images s;
     renderpass_images := renderpass_images s;
     renderpass_image_ranges := renderpass_image_ranges s;
     chunk := chunk s; work_queue := work_queue s;
     chunk_reserve := chunk_reserve s;
     master_semaphore := master_semaphore s;
     query_cache := query_cache s; chunk_capacity := chunk_capacity s;
     worker := worker s; gpu := gpu s |}.

Definition set_renderpass_images (n : Z) (imgs : Z) (rngs : Z) (s : t) : t :=
  {| state := state s;
     num_renderpass_images := n;
     renderpass_images := imgs;
     renderpass_image_ranges := rngs;
     chunk := chunk s; work_queue := work_queue s;
     chunk_reserve := chunk_reserve s;
     master_semaphore := master_semaphore s;
     query_cache := query_cache s; chunk_capacity := chunk_capacity s;
     worker := worker s; gpu := gpu s |}.

Definition set_chunks (ch : CommandChunk) (q r : list CommandChunk) (s : t) : t :=
  {| state := state s;
     num_renderpass_images := num_renderpass_images s;
     renderpass_images := renderpass_images s;
     renderpass_image_ranges := renderpass_image_ranges s;
     chunk := ch; work_queue := q; chunk_reserve := r;
     master_semaphore := master_semaphore s;
     query_cache := query_cache s; chunk_capacity := chunk_capacity s;
     worker := worker s; gpu := gpu s |}.

Definition set_master_semaphore (ms : MasterSemaphore.t) (s : t) : t :=
  {| state := state s;
     num_renderpass_images := num_renderpass_images s;
     renderpass_images := renderpass_images s;
     renderpass_image_ranges := renderpass_image_ranges s;
     chunk := chunk s; work_queue := work_queue s;
     chunk_reserve := chunk_reserve s;
     master_semaphore := ms;
     query_cache := query_cache s; chunk_capacity := chunk_capacity s;
     worker := worker s; gpu := gpu s |}.

Definition set_query_cache (qc : option (list bool)) (s : t) : t :=
  {| state := state s;
     num_renderpass_images := num_renderpass_images s;
     renderpass_images := renderpass_images s;
     renderpass_image_ranges := renderpass_image_ranges s;
     chunk := chunk s; work_queue := work_queue s;
     chunk_reserve := chunk_reserve s;
     master_semaphore := master_semaphore s;
     query_cache := qc; chunk_capacity := chunk_capacity s;
     worker := worker s; gpu := gpu s |}.

Definition set_worker_gpu (w : Worker) (g : Gpu) (s : t) : t :=
  {| state := state s;
     num_renderpass_images := num_renderpass_images s;
     renderpass_images := renderpass_images s;
     renderpass_image_ranges := renderpass_image_ranges s;
     chunk := chunk s; work_queue := work_queue s;
     chunk_reserve := chunk_reserve s;
     master_semaphore := master_semaphore s;
     query_cache := query_cache s; chunk_capacity := chunk_capacity s;
     worker := w; gpu := g |}.

(** ** Chunk management *)

(** [Scheduler::AcquireNewChunk]: a fresh chunk when the reserve is empty,
    the last chunk of the reserve otherwise. *)
Definition AcquireNewChunk (s : t) : t :=
  match rev (chunk_reserve s) with
  | [] => set_chunks new_chunk (work_queue s) (chunk_reserve s) s
  | back :: front => set_chunks back (work_queue s) (rev front) s
  end.

(** [Scheduler::DispatchWork]: nothing for an empty chunk; otherwise the
    chunk goes to the back of the work queue and a new one is acquired. *)
Definition DispatchWork (s : t) : t :=
  if Empty (chunk s) then s
  else AcquireNewChunk
         (set_chunks (chunk s) (work_queue s ++ [chunk s]) (chunk_reserve s) s).

(** Modelled from the spec: [Scheduler::Record] and
    [RecordWithUploadBuffer] are defined in [vk_scheduler.h], which is not
    among the sources.  "Appends a closure to the active chunk; if the
    chunk is full, an internal flush-and-acquire-new-chunk occurs
    transparently." *)
Definition chunk_full (s : t) : bool :=
  (chunk_capacity s <=? length (commands (chunk s)))%nat.

Definition append_command (c : Command) (s : t) : t :=
  set_chunks {| commands := commands (chunk s) ++ [c];
                submit := submit (chunk s) |}
             (work_queue s) (chunk_reserve s) s.

Definition Record_ (c : Command) (s : t) : t :=
  if chunk_full s then append_command c (DispatchWork s)
  else append_command c s.

(** ** Render pass and state cache *)

(** [Scheduler::EndRenderPass]. *)
Definition EndRenderPass (s : t) : t :=
  if renderpass (state s) =? nullptr then s
  else
    let num_images := num_renderpass_images s in
    let images := renderpass_images s in
    let ranges := renderpass_image_ranges s in
    let s1 := Record_ (EndRenderPassCmd num_images images ranges) s in
    let st := state s1 in
    let s2 := set_state {| renderpass := nullptr; framebuffer := nullptr;
                           render_area := render_area st;
                           graphics_pipeline := graphics_pipeline st;
                           is_rescaling := is_rescaling st;
                           rescaling_defined := rescaling_defined st |} s1 in
    set_renderpass_images 0 nullptr nullptr s2.

(** The test at the head of [Scheduler::RequestRenderpass]. *)
Definition renderpass_matches (fb : Framebuffer) (s : t) : bool :=
  (renderpass (state s) =? RenderPass fb) &&
  (framebuffer (state s) =? Handle fb) &&
  (width (render_area (state s)) =? width (RenderArea fb)) &&
  (height (render_area (state s)) =? height (RenderArea fb)).

(** [Scheduler::RequestRenderpass]. *)
Definition RequestRenderpass (fb : Framebuffer) (s : t) : t :=
  let renderpass_ := RenderPass fb in
  let framebuffer_handle := Handle fb in
  let render_area_ := RenderArea fb in
  if renderpass_matches fb s then s
  else
    let s1 := EndRenderPass s in
    let st := state s1 in
    let s2 := set_state {| renderpass := renderpass_;
                           framebuffer := framebuffer_handle;
                           render_area := render_area_;
                           graphics_pipeline := graphics_pipeline st;
                           is_rescaling := is_rescaling st;
                           rescaling_defined := rescaling_defined st |} s1 in
    let s3 := Record_ (BeginRenderPassCmd renderpass_ framebuffer_handle
                                          render_area_) s2 in
    set_renderpass_images (NumImages fb) (Images fb) (ImageRanges fb) s3.

(** [Scheduler::RequestOutsideRenderPassOperationContext]. *)
Definition RequestOutsideRenderPassOperationContext (s : t) : t :=
  EndRenderPass s.

(** [Scheduler::UpdateGraphicsPipeline]: the returned flag and the new
    scheduler. *)
Definition UpdateGraphicsPipeline (pipeline : Z) (s : t) : bool * t :=
  if graphics_pipeline (state s) =? pipeline then (false, s)
  else
    let st := state s in
    (true, set_state {| renderpass := renderpass st;
                        framebuffer := framebuffer st;
                        render_area := render_area st;
                        graphics_pipeline := pipeline;
                        is_rescaling := is_rescaling st;
                        rescaling_defined := rescaling_defined st |} s).

(** [Scheduler::UpdateRescaling]. *)
Definition UpdateRescaling (is_rescaling_ : bool) (s : t) : bool * t :=
  if rescaling_defined (state s) &&
     Bool.eqb is_rescaling_ (is_rescaling (state s))
  then (false, s)
  else
    let st := state s in
    (true, set_state {| renderpass := renderpass st;
                        framebuffer := framebuffer st;
                        render_area := render_area st;
                        graphics_pipeline := graphics_pipeline st;
                        is_rescaling := is_rescaling_;
                        rescaling_defined := true |} s).

(** [Scheduler::InvalidateState]. *)
Definition InvalidateState (s : t) : t :=
  let st := state s in
  set_state {| renderpass := nullptr; framebuffer := nullptr;
               render_area := render_area st;
               graphics_pipeline := nullptr;
               is_rescaling := is_rescaling st;
               rescaling_defined := false |} s.

(** [query_cache->NotifySegment(flag)] behind its null test. *)
Definition NotifySegment (flag : bool) (s : t) : t :=
  match query_cache s with
  | None => s
  | Some log => set_query_cache (Some (log ++ [flag])) s
  end.

(** [Scheduler::EndPendingOperations]. *)
Definition EndPendingOperations (s : t) : t :=
  EndRenderPass (NotifySegment false s).

(** [Scheduler::AllocateNewContext]. *)
Definition AllocateNewContext (s : t) : t := NotifySegment true s.

(** ** Submission *)

(** [Scheduler::SubmitExecution]: the tick of the submission and the new
    scheduler. *)
Definition SubmitExecution (signal_semaphore wait_semaphore : Z) (s : t)
    : Z * t :=
  let s1 := EndPendingOperations s in
  let s2 := InvalidateState s1 in
  let (signal_value, ms) := MasterSemaphore.NextTick (master_semaphore s2) in
  let s3 := set_master_semaphore ms s2 in
  let s4 := Record_ (SubmitCmd signal_semaphore wait_semaphore signal_value) s3 in
  let s5 := set_chunks (MarkSubmit (chunk s4)) (work_queue s4)
                       (chunk_reserve s4) s4 in
  (signal_value, DispatchWork s5).

(** [Scheduler::Flush]. *)
Definition Flush (signal_semaphore wait_semaphore : Z) (s : t) : Z * t :=
  let (signal_value, s1) := SubmitExecution signal_semaphore wait_semaphore s in
  (signal_value, AllocateNewContext s1).

(** ** Tick queries *)

Definition GetSubmitTick (s : t) : Z :=
  MasterSemaphore.PeekNextTick (master_semaphore s).

Definition IsTickCompleted (s : t) (tick : Z) : bool :=
  MasterSemaphore.IsSignaled (master_semaphore s) tick.

Definition GetCompletedTick (s : t) : Z :=
  MasterSemaphore.GetValue (master_semaphore s).

Definition CurrentTick (s : t) : Z := GetCompletedTick s.

(** ** The closure recorded by [EndRenderPass] *)

Definition MAX_BARRIERS : Z := 9.

(** [std::array<VkImageMemoryBarrier, MAX_BARRIERS> barriers]: nine slots,
    [None] while a slot is not written. *)
Definition barrier_array : list (option VkImageMemoryBarrier) :=
  repeat None (Z.to_nat MAX_BARRIERS).

(** [barriers[i] = b], refused when [i] is outside the array. *)
Definition array_store {A : Type} (arr : list (option A)) (i : Z) (b : A)
    : option (list (option A)) :=
  if (0 <=? i) && (i <? Z.of_nat (length arr))
  then Some (firstn (Z.to_nat i) arr ++ Some b :: skipn (Z.to_nat (i + 1)) arr)
  else None.

(** The clamp at the head of the closure. *)
Definition barrier_count_of (num_images : Z) : Z :=
  if MAX_BARRIERS <? num_images then MAX_BARRIERS else num_images.

Definition default_range : VkImageSubresourceRange :=
  {| aspectMask := 0; baseMipLevel := 0; levelCount := 0;
     baseArrayLayer := 0; layerCount := 0 |}.

(** The barrier built for attachment [i]. *)
Definition make_barrier (images : list Z)
    (ranges : list VkImageSubresourceRange) (i : Z) : VkImageMemoryBarrier :=
  let range := nth (Z.to_nat i) ranges default_range in
  let old_layout :=
    if Z.land (aspectMask range)
              (Z.lor VK_IMAGE_ASPECT_DEPTH_BIT VK_IMAGE_ASPECT_STENCIL_BIT) =? 0
    then VK_IMAGE_LAYOUT_COLOR_ATTACHMENT_OPTIMAL
    else VK_IMAGE_LAYOUT_DEPTH_STENCIL_ATTACHMENT_OPTIMAL in
  {| oldLayout := old_layout;
     newLayout := VK_IMAGE_LAYOUT_GENERAL;
     image := nth (Z.to_nat i) images nullptr;
     subresourceRange := range |}.

(** [for (u32 i = 0; i < barrier_count; ++i) barriers[i] = ...], over the
    values [i] takes; the result is the array with the indices stored to, or
    [None] when a store falls outside the array. *)
Fixpoint fill_barriers (indices : list Z) (images : list Z)
    (ranges : list VkImageSubresourceRange)
    (barriers : list (option VkImageMemoryBarrier)) (stored : list Z)
    : option (list (option VkImageMemoryBarrier) * list Z) :=
  match indices with
  | [] => Some (barriers, stored)
  | i :: rest =>
      match array_store barriers i (make_barrier images ranges i) with
      | None => None
      | Some barriers' =>
          fill_barriers rest images ranges barriers' (stored ++ [i])
      end
  end.

(** The values of [i] in the loop: [0], [1], ... below [barrier_count]. *)
Definition loop_indices (barrier_count : Z) : list Z :=
  map Z.of_nat (seq 0 (Z.to_nat barrier_count)).

(** What the closure hands to [cmdbuf.PipelineBarrier]. *)
Record BarrierBatch := {
  barrier_count : Z;
  barriers : list (option VkImageMemoryBarrier);
  stored_indices : list Z
}.

(** The body of the closure recorded by [EndRenderPass], up to the
    [PipelineBarrier] call. *)
Definition EndRenderPass_closure (num_images : Z) (images : list Z)
    (ranges : list VkImageSubresourceRange) : option BarrierBatch :=
  let count := barrier_count_of num_images in
  match fill_barriers (loop_indices count) images ranges barrier_array [] with
  | None => None
  | Some (arr, stored) =>
      Some {| barrier_count := count; barriers := arr;
              stored_indices := stored |}
  end.

(** The arrays behind the pointers of the framebuffers, as they are at one
    moment: what [images[i]] and [ranges[i]] read there. *)
Record Memory := {
  images_at : Z -> list Z;
  ranges_at : Z -> list VkImageSubresourceRange
}.

(** The closure of [EndRenderPass] executed by the worker in the memory of
    that moment, up to the [PipelineBarrier] call; [None] for the other
    commands. *)
Definition execute_EndRenderPass (mem : Memory) (c : Command)
    : option BarrierBatch :=
  match c with
  | EndRenderPassCmd num_images images ranges =>
      EndRenderPass_closure num_images (images_at mem images)
                            (ranges_at mem ranges)
  | _ => None
  end.

(** ** The worker thread and the GPU *)

Definition log_executed (c : Command) (w : Worker) : Worker :=
  {| executed := executed w ++ [c];
     cmdbuf_allocations := cmdbuf_allocations w;
     alive := alive w |}.

(** The loop of [CommandChunk::ExecuteAll]: every command from [first] to
    [last], in order.  [submit_result] is what
    [MasterSemaphore::SubmitQueue] answers to the submit closure: on
    [VK_SUCCESS] the submission is on the queue with its signal value, on
    [VK_ERROR_DEVICE_LOST] the loss is reported and the closure throws, on
    anything else [vk::Check] throws.  The result carries the exception
    thrown, if any. *)
Fixpoint execute_commands (submit_result : Z) (cmds : list Command)
    (w : Worker) (g : Gpu) : Worker * Gpu * option Z :=
  match cmds with
  | [] => (w, g, None)
  | c :: rest =>
      let w1 := log_executed c w in
      match c with
      | SubmitCmd _ _ signal_value =>
          if submit_result =? VK_SUCCESS then
            execute_commands submit_result rest w1
              {| submitted := submitted g ++ [signal_value];
                 retired := retired g;
                 loss_reported := loss_reported g |}
          else if submit_result =? VK_ERROR_DEVICE_LOST then
            (w1, {| submitted := submitted g; retired := retired g;
                    loss_reported := true |}, Some submit_result)
          else (w1, g, Some submit_result)
      | _ => execute_commands submit_result rest w1 g
      end
  end.

(** [CommandChunk::ExecuteAll]: the loop, then the reset of the chunk. *)
Definition ExecuteAll (submit_result : Z) (ch : CommandChunk)
    (w : Worker) (g : Gpu) : CommandChunk * Worker * Gpu * option Z :=
  match execute_commands submit_result (commands ch) w g with
  | (w', g', None) => (new_chunk, w', g', None)
  | (w', g', Some e) => (ch, w', g', Some e)
  end.

(** [Scheduler::AllocateWorkerCommandBuffer], counted. *)
Definition AllocateWorkerCommandBuffer (w : Worker) : Worker :=
  {| executed := executed w;
     cmdbuf_allocations := S (cmdbuf_allocations w);
     alive := alive w |}.

Definition stop_worker (w : Worker) : Worker :=
  {| executed := executed w;
     cmdbuf_allocations := cmdbuf_allocations w;
     alive := false |}.

(** One turn of the loop of [Scheduler::WorkerThread] with no stop
    requested: with an empty queue the thread stays blocked on the condition
    variable; otherwise it pops the front chunk, executes it, begins new
    command buffers after a submission and returns the chunk to the reserve.
    An exception thrown by a command leaves the thread function. *)
Definition WorkerThread_turn (submit_result : Z) (s : t) : t :=
  match work_queue s with
  | [] => s
  | work :: rest =>
      let is_submission := HasSubmit work in
      match ExecuteAll submit_result work (worker s) (gpu s) with
      | (work', w, g, Some _) =>
          set_worker_gpu (stop_worker w) g
            (set_chunks (chunk s) rest (chunk_reserve s) s)
      | (work', w, g, None) =>
          let w' := if is_submission then AllocateWorkerCommandBuffer w else w in
          set_worker_gpu w' g
            (set_chunks (chunk s) rest (chunk_reserve s ++ [work']) s)
      end
  end.

(** The GPU retires the oldest submission on the queue and signals the
    timeline with its value. *)
Definition Gpu_retire (s : t) : t :=
  match submitted (gpu s) with
  | [] => s
  | value :: rest =>
      set_master_semaphore (MasterSemaphore.signal value (master_semaphore s))
        (set_worker_gpu (worker s)
           {| submitted := rest; retired := retired (gpu s) ++ [value];
              loss_reported := loss_reported (gpu s) |} s)
  end.

(** ** Schedules *)

(** What the producer thread can call. *)
Inductive Call : Type :=
| CallRecord (stamp : nat)
| CallRequestRenderpass (fb : Framebuffer)
| CallRequestOutsideRenderPassOperationContext
| CallUpdateGraphicsPipeline (pipeline : Z)
| CallUpdateRescaling (is_rescaling_ : bool)
| CallDispatchWork
| CallFlush (signal_semaphore wait_semaphore : Z).

(** An event of a schedule: a call of the producer, a turn of the worker
    loop with the answer of the queue to a submit, or the GPU retiring a
    submission. *)
Inductive Event : Type :=
| Producer (c : Call)
| WorkerTurn (submit_result : Z)
| GpuRetires.

(** A call of the producer: the new scheduler and the ticks it returned. *)
Definition call (c : Call) (s : t) : t * list Z :=
  match c with
  | CallRecord stamp => (Record_ (Closure stamp) s, [])
  | CallRequestRenderpass fb => (RequestRenderpass fb s, [])
  | CallRequestOutsideRenderPassOperationContext =>
      (RequestOutsideRenderPassOperationContext s, [])
  | CallUpdateGraphicsPipeline p => (snd (UpdateGraphicsPipeline p s), [])
  | CallUpdateRescaling b => (snd (UpdateRescaling b s), [])
  | CallDispatchWork => (DispatchWork s, [])
  | CallFlush sig wait => let (tick, s') := Flush sig wait s in (s', [tick])
  end.

(** Once the worker thread has died on an exception the process is gone and
    nothing happens any more. *)
Definition step (e : Event) (s : t) : t * list Z :=
  if alive (worker s) then
    match e with
    | Producer c => call c s
    | WorkerTurn r => (WorkerThread_turn r s, [])
    | GpuRetires => (Gpu_retire s, [])
    end
  else (s, []).

(** A schedule run from a scheduler: the scheduler reached and the ticks
    the [Flush] calls returned, in order. *)
Fixpoint run (evs : list Event) (s : t) : t * list Z :=
  match evs with
  | [] => (s, [])
  | e :: rest =>
      let (s1, ticks1) := step e s in
      let (s2, ticks2) := run rest s1 in
      (s2, ticks1 ++ ticks2)
  end.

Definition is_env (e : Event) : bool :=
  match e with Producer _ => false | _ => true end.

Definition is_flush (e : Event) : bool :=
  match e with Producer (CallFlush _ _) => true | _ => false end.

(** The stamps of the closures a schedule records, in order. *)
Fixpoint recorded (evs : list Event) : list nat :=
  match evs with
  | [] => []
  | Producer (CallRecord stamp) :: rest => stamp :: recorded rest
  | _ :: rest => recorded rest
  end.

(** [Scheduler::Finish]: the submission, then [WaitUntilTick] on its tick,
    then [AllocateNewContext].  Modelled from the spec:
    [MasterSemaphore::Wait], to which [WaitUntilTick] delegates, is not
    among the sources; it blocks until the tick is signaled.  The caller is
    blocked in the wait while the worker and the GPU go through the events
    of [during_wait] that are theirs; the result is [None] when the tick is
    not complete after these events, that is when the wait has not returned
    yet. *)
Definition Finish (signal_semaphore wait_semaphore : Z)
    (during_wait : list Event) (s : t) : option t :=
  let (signal_value, s1) := SubmitExecution signal_semaphore wait_semaphore s in
  let s2 := fst (run (filter is_env during_wait) s1) in
  if IsTickCompleted s2 signal_value then Some (AllocateNewContext s2)
  else None.

(** ** The worker's turn in its two halves, and [WaitWorker] *)

(** The first half of a turn of [Scheduler::WorkerThread], under
    [queue_mutex]: [TryPopQueue] takes the front chunk of the queue.  The
    lock [lk] is then exchanged for one on [execution_mutex] and goes out of
    scope with the block, so both mutexes are free again before the chunk
    is executed. *)
Definition WorkerThread_pop (s : t) : option (CommandChunk * t) :=
  match work_queue s with
  | [] => None
  | work :: rest => Some (work, set_chunks (chunk s) rest (chunk_reserve s) s)
  end.

(** The second half, with no mutex held but [reserve_mutex] at the end: the
    chunk is executed, new command buffers are begun after a submission and
    the chunk goes to the reserve. *)
Definition WorkerThread_execute (submit_result : Z) (work : CommandChunk)
    (s : t) : t :=
  let is_submission := HasSubmit work in
  match ExecuteAll submit_result work (worker s) (gpu s) with
  | (work', w, g, Some _) => set_worker_gpu (stop_worker w) g s
  | (work', w, g, None) =>
      let w' := if is_submission then AllocateWorkerCommandBuffer w else w in
      set_worker_gpu w' g
        (set_chunks (chunk s) (work_queue s) (chunk_reserve s ++ [work']) s)
  end.

(** What happens while the producer is blocked in [WaitWorker]: the worker
    pops a chunk, the worker executes the chunk it holds, the GPU retires a
    submission. *)
Inductive WaitEvent : Type :=
| WorkerPops
| WorkerExecutes (submit_result : Z)
| GpuRetiresOne.

(** The scheduler together with the chunk the worker holds between the two
    halves of a turn. *)
Definition Held : Type := (option CommandChunk * t)%type.

Definition wait_step (e : WaitEvent) (p : Held) : Held :=
  let (hand, s) := p in
  if alive (worker s) then
    match e, hand with
    | WorkerPops, None =>
        match WorkerThread_pop s with
        | Some (work, s') => (Some work, s')
        | None => (None, s)
        end
    | WorkerPops, Some _ => (hand, s)
    | WorkerExecutes r, Some work => (None, WorkerThread_execute r work s)
    | WorkerExecutes _, None => (None, s)
    | GpuRetiresOne, _ => (hand, Gpu_retire s)
    end
  else (hand, s).

Fixpoint wait_run (evs : list WaitEvent) (p : Held) : Held :=
  match evs with
  | [] => p
  | e :: rest => wait_run rest (wait_step e p)
  end.

(** [Scheduler::WaitWorker], called while the worker holds [hand]: the
    chunk is dispatched; the caller waits on the condition variable until
    the work queue is empty, takes [execution_mutex], which nobody holds
    across an event, and calls [WaitUntilTick(GetCompletedTick())].  The
    result is [None] when the call has not returned after the events of
    [during_wait], and when the worker has died meanwhile. *)
Definition WaitWorker (during_wait : list WaitEvent) (p : Held) : option Held :=
  let (hand, s) := p in
  let (hand', s2) := wait_run during_wait (hand, DispatchWork s) in
  if alive (worker s2) then
    match work_queue s2 with
    | [] =>
        if IsTickCompleted s2 (GetCompletedTick s2) then Some (hand', s2)
        else None
    | _ :: _ => None
    end
  else None.

(** The commands of the chunk the worker holds. *)
Definition held_commands (hand : option CommandChunk) : list Command :=
  match hand with
  | Some work => commands work
  | None => []
  end.

(** A scheduler as its constructor leaves it, for a chunk capacity and an
    optional query cache. *)
Definition init (capacity : nat) (with_query_cache : bool) : t :=
  {| state := initial_state;
     num_renderpass_images := 0;
     renderpass_images := nullptr;
     renderpass_image_ranges := nullptr;
     chunk := new_chunk; work_queue := []; chunk_reserve := [];
     master_semaphore := MasterSemaphore.init;
     query_cache := if with_query_cache then Some [] else None;
     chunk_capacity := capacity;
     worker := {| executed := []; cmdbuf_allocations := 1; alive := true |};
     gpu := {| submitted := []; retired := []; loss_reported := false |} |}.

(** ** Views of a scheduler used in the statements *)

(** The stamps of the client closures among commands. *)
Fixpoint closures_of (cmds : list Command) : list nat :=
  match cmds with
  | [] => []
  | Closure stamp :: rest => stamp :: closures_of rest
  | _ :: rest => closures_of rest
  end.

(** The signal values of the submit commands among commands. *)
Fixpoint submit_ticks (cmds : list Command) : list Z :=
  match cmds with
  | [] => []
  | SubmitCmd _ _ v :: rest => v :: submit_ticks rest
  | _ :: rest => submit_ticks rest
  end.

Fixpoint count_begin (cmds : list Command) : nat :=
  match cmds with
  | [] => O
  | BeginRenderPassCmd _ _ _ :: rest => S (count_begin rest)
  | _ :: rest => count_begin rest
  end.

(** The commands recorded and not yet executed, in program order. *)
Definition pending (s : t) : list Command :=
  concat (map commands (work_queue s)) ++ commands (chunk s).

(** Every command recorded so far, in program order. *)
Definition program_order (s : t) : list Command :=
  executed (worker s) ++ pending s.

(** The ticks in flight, oldest first: the submissions on the queue, then
    the submissions recorded; the timeline puts the value reached by the GPU
    in front of them. *)
Definition in_flight (s : t) : list Z :=
  submitted (gpu s) ++ submit_ticks (pending s).

Definition timeline (s : t) : list Z :=
  MasterSemaphore.gpu_tick (master_semaphore s) :: in_flight s.

(** The chunks of the reserve are reset, as [ExecuteAll] leaves them. *)
Definition reserve_reset (s : t) : Prop :=
  Forall (fun ch => ch = new_chunk) (chunk_reserve s).

(** A well-formed scheduler: the ticks in flight are strictly increasing
    and were issued, retired submissions are behind the timeline, the ticks
    are [u64] values and the chunks of the reserve are reset. *)
Definition wf (s : t) : Prop :=
  StronglySorted Z.lt (timeline s) /\
  Forall (fun v => v < MasterSemaphore.current_tick (master_semaphore s))
         (timeline s) /\
  Forall (fun v => v <= MasterSemaphore.gpu_tick (master_semaphore s))
         (retired (gpu s)) /\
  0 <= MasterSemaphore.gpu_tick (master_semaphore s) /\
  MasterSemaphore.current_tick (master_semaphore s) < u64_modulus /\
  reserve_reset s.

(** Render passes along a command stream, read from a state in which a
    render pass is open or not: a begin needs none open, an end and nothing
    else closes the open one, a submission ends the command buffers and
    needs none open.  The result says whether a render pass is open at the
    end, [None] that the stream breaks one of these rules. *)
Fixpoint render_passes (open : bool) (cmds : list Command) : option bool :=
  match cmds with
  | [] => Some open
  | Closure _ :: rest => render_passes open rest
  | BeginRenderPassCmd _ _ _ :: rest =>
      if open then None else render_passes true rest
  | EndRenderPassCmd _ _ _ :: rest =>
      if open then render_passes false rest else None
  | SubmitCmd _ _ _ :: rest =>
      if open then None else render_passes false rest
  end.

(** Whether the cached state says a render pass is open. *)
Definition in_render_pass (s : t) : bool :=
  negb (renderpass (state s) =? nullptr).

(** A chunk marked as a submission ends with its one submit command; a
    chunk not marked holds none. *)
Definition chunk_shape (ch : CommandChunk) : Prop :=
  if submit ch
  then exists pre sg wt v,
         commands ch = pre ++ [SubmitCmd sg wt v] /\ submit_ticks pre = []
  else submit_ticks (commands ch) = [].

(** The chunks between two calls of the producer: those of the queue are
    not empty and shaped as above, the one being recorded is not marked and
    holds no submit command, those of the reserve are reset. *)
Definition shape (s : t) : Prop :=
  Forall (fun ch => Empty ch = false /\ chunk_shape ch) (work_queue s) /\
  submit (chunk s) = false /\
  submit_ticks (commands (chunk s)) = [] /\
  reserve_reset s.

(** The number of submit commands among commands. *)
Definition count_submits (cmds : list Command) : nat :=
  length (submit_ticks cmds).

(** The framebuffers a schedule asks render passes for. *)
Fixpoint framebuffers_of (evs : list Event) : list Framebuffer :=
  match evs with
  | [] => []
  | Producer (CallRequestRenderpass fb) :: rest => fb :: framebuffers_of rest
  | _ :: rest => framebuffers_of rest
  end.

End Scheduler.


(* ================================================================== *)
(** * InnerFence and FenceManager *)
(* ================================================================== *)

Module Fence.

(** [InnerFence]: the stubbed flag of its base [FenceBase] and the tick
    captured by [Queue]. *)
Record InnerFence := { is_stubbed : bool; wait_tick : Z }.

(** [InnerFence::InnerFence(scheduler, is_stubbed)]. *)
Definition create (is_stubbed_ : bool) : InnerFence :=
  {| is_stubbed := is_stubbed_; wait_tick := 0 |}.

Definition IsStubbed (f : InnerFence) : bool := is_stubbed f.

(** [InnerFence::Queue].  [Scheduler::QueueGpuFence] is declared in a
    header that is not among the sources; it is a parameter that returns a
    tick and the scheduler it leaves. *)
Definition Queue (QueueGpuFence : bool -> Scheduler.t -> Z * Scheduler.t)
    (f : InnerFence) (s : Scheduler.t) : InnerFence * Scheduler.t :=
  if IsStubbed f then
    let (tick, s') := QueueGpuFence (IsStubbed f) s in
    ({| is_stubbed := is_stubbed f; wait_tick := tick |}, s')
  else
    let (tick, s') := QueueGpuFence false s in
    ({| is_stubbed := is_stubbed f; wait_tick := tick |}, s').

(** [Queue] called [n] times in a row. *)
Fixpoint queue_times (QueueGpuFence : bool -> Scheduler.t -> Z * Scheduler.t)
    (n : nat) (f : InnerFence) (s : Scheduler.t) : InnerFence * Scheduler.t :=
  match n with
  | O => (f, s)
  | S n' =>
      let (f', s') := Queue QueueGpuFence f s in
      queue_times QueueGpuFence n' f' s'
  end.

(** [InnerFence::IsSignaled]. *)
Definition IsSignaled (f : InnerFence) (s : Scheduler.t) : bool :=
  if IsStubbed f then true
  else if wait_tick f =? 0 then false
  else Scheduler.IsTickCompleted s (wait_tick f).

(** How a call of [Wait] can end: it returns without having called the
    scheduler, it returns once [scheduler.WaitUntilTick(tick)] has returned,
    or an assertion stops the program. *)
Inductive WaitBehaviour : Type :=
| ReturnsAtOnce
| WaitsUntilTick (tick : Z)
| AssertionFailure.

(** [InnerFence::Wait]. *)
Definition Wait (f : InnerFence) : WaitBehaviour :=
  if IsStubbed f then ReturnsAtOnce
  else if wait_tick f =? 0 then ReturnsAtOnce
  else WaitsUntilTick (wait_tick f).

(** [Fence] is a [std::shared_ptr<InnerFence>]: [None] is the null
    pointer. *)
Definition Fence : Type := option InnerFence.

(** [FenceManager::CreateFence]. *)
Definition CreateFence (is_stubbed_ : bool) : Fence := Some (create is_stubbed_).

(** [FenceManager::QueueFence]. *)
Definition QueueFence (QueueGpuFence : bool -> Scheduler.t -> Z * Scheduler.t)
    (fence : Fence) (s : Scheduler.t) : Fence * Scheduler.t :=
  match fence with
  | Some f => let (f', s') := Queue QueueGpuFence f s in (Some f', s')
  | None => (None, s)
  end.

(** [FenceManager::IsFenceSignaled]. *)
Definition IsFenceSignaled (fence : Fence) (s : Scheduler.t) : bool :=
  match fence with
  | Some f => IsSignaled f s
  | None => true
  end.

(** [FenceManager::WaitFence]. *)
Definition WaitFence (fence : Fence) : WaitBehaviour :=
  match fence with
  | Some f => Wait f
  | None => ReturnsAtOnce
  end.

(** Whether a call of [Wait] has returned, on the scheduler as it is
    now: at once when [Wait] does not call the scheduler, and otherwise when
    the tick waited for is complete, [WaitUntilTick] blocking until then. *)
Definition wait_over (f : InnerFence) (s : Scheduler.t) : bool :=
  match Wait f with
  | ReturnsAtOnce => true
  | WaitsUntilTick tick => Scheduler.IsTickCompleted s tick
  | AssertionFailure => false
  end.

End Fence.

(* ================================================================== *)
(** * PresentManager: the copy to the swapchain *)
(* ================================================================== *)

Module PresentManager.

(** The calls that leave the present manager for the window system, the
    swapchain and the device. *)
Inductive DriverCall : Type :=
| CreateSurface
| SwapchainCreate
| AcquireNextImage
| QueueSubmit
| SwapchainPresent
| ReportLoss.

Definition DriverCall_eq_dec (a b : DriverCall) : {a = b} + {a <> b}.
Proof. decide equality. Defined.

(** What a call answers: it returns (with a flag, read only after
    [AcquireNextImage]) or throws a [vk::Exception] with a result. *)
Inductive Response : Type :=
| Ok (flag : bool)
| Fail (result : Z).

(** The environment: what the [n]-th call of each kind answers, counting
    from zero. *)
Definition Driver : Type := DriverCall -> nat -> Response.

(** The calls made so far, oldest first. *)
Definition Log : Type := list DriverCall.

Definition ask (drv : Driver) (c : DriverCall) (log : Log) : Response * Log :=
  (drv c (count_occ DriverCall_eq_dec log c), log ++ [c]).

(** [PresentManager::RecreateSwapchain]: the device is idled and the
    swapchain created anew, then the image count and the blit support are
    read back.  The one call that is logged, and that may throw, is the
    creation of the swapchain. *)
Definition RecreateSwapchain (drv : Driver) (log : Log) : Outcome unit * Log :=
  match ask drv SwapchainCreate log with
  | (Ok _, log1) => (Returned tt, log1)
  | (Fail r, log1) => (Threw r, log1)
  end.

(** The loop [while (swapchain.AcquireNextImage()) RecreateSwapchain(frame)]
    at the head of [CopyToSwapchainImpl]. *)
Fixpoint acquire_loop (fuel : nat) (drv : Driver) (log : Log)
    : Outcome unit * Log :=
  match fuel with
  | O => (OutOfFuel, log)
  | S fuel' =>
      match ask drv AcquireNextImage log with
      | (Fail r, log1) => (Threw r, log1)
      | (Ok false, log1) => (Returned tt, log1)
      | (Ok true, log1) =>
          match RecreateSwapchain drv log1 with
          | (Returned _, log2) => acquire_loop fuel' drv log2
          | other => other
          end
      end
  end.

(** [PresentManager::CopyToSwapchainImpl]: the acquire loop, the recording
    of the copy into the command buffer of the frame, the queue submit under
    [vk::Check] and the present. *)
Definition CopyToSwapchainImpl (fuel : nat) (drv : Driver) (log : Log)
    : Outcome unit * Log :=
  match acquire_loop fuel drv log with
  | (Returned _, log1) =>
      match ask drv QueueSubmit log1 with
      | (Fail r, log2) => (Threw r, log2)
      | (Ok _, log2) =>
          match ask drv SwapchainPresent log2 with
          | (Fail r, log3) => (Threw r, log3)
          | (Ok _, log3) => (Returned tt, log3)
          end
      end
  | other => other
  end.

(** The [try] block of [CopyToSwapchain]: its outcome, the log and the
    value of [requires_recreation] when the block is left. *)
Definition try_block (fuel : nat) (drv : Driver) (requires_recreation : bool)
    (log : Log) : Outcome unit * Log * bool :=
  if requires_recreation then
    match ask drv CreateSurface log with
    | (Fail r, log1) => (Threw r, log1, true)
    | (Ok _, log1) =>
        match RecreateSwapchain drv log1 with
        | (Returned _, log2) =>
            let (out, log3) := CopyToSwapchainImpl fuel drv log2 in
            (out, log3, false)
        | (other, log2) => (other, log2, true)
        end
    end
  else
    let (out, log1) := CopyToSwapchainImpl fuel drv log in
    (out, log1, false).

(** [PresentManager::CopyToSwapchain]: the [while (true)] loop, [fuel]
    bounding its turns and those of the acquire loop. *)
Fixpoint CopyToSwapchain_loop (fuel : nat) (drv : Driver)
    (requires_recreation : bool) (log : Log) : Outcome unit * Log :=
  match fuel with
  | O => (OutOfFuel, log)
  | S fuel' =>
      match try_block (S fuel') drv requires_recreation log with
      | (Returned _, log1, _) => (Returned tt, log1)
      | (OutOfFuel, log1, _) => (OutOfFuel, log1)
      | (Threw result, log1, flag) =>
          if result =? VK_ERROR_SURFACE_LOST_KHR then
            CopyToSwapchain_loop fuel' drv true log1
          else if (result =? VK_ERROR_OUT_OF_DATE_KHR) ||
                  (result =? VK_SUBOPTIMAL_KHR) then
            match RecreateSwapchain drv log1 with
            | (Returned _, log2) => CopyToSwapchain_loop fuel' drv flag log2
            | other => other
            end
          else if result =? VK_ERROR_DEVICE_LOST then
            (Threw result, log1 ++ [ReportLoss])
          else (Threw result, log1)
      end
  end.

Definition CopyToSwapchain (fuel : nat) (drv : Driver) : Outcome unit * Log :=
  CopyToSwapchain_loop fuel drv false [].

(** The conditions the present manager recovers from. *)
Definition transient (result : Z) : bool :=
  (result =? VK_ERROR_SURFACE_LOST_KHR) ||
  (result =? VK_ERROR_OUT_OF_DATE_KHR) ||
  (result =? VK_SUBOPTIMAL_KHR).

(** A driver that always succeeds in creating a surface or a swapchain. *)
Definition recreation_succeeds (drv : Driver) : Prop :=
  forall n, (exists b, drv CreateSurface n = Ok b) /\
            (exists b, drv SwapchainCreate n = Ok b).

(** A driver that always succeeds in creating a swapchain. *)
Definition swapchain_created (drv : Driver) : Prop :=
  forall n, exists b, drv SwapchainCreate n = Ok b.

(** The two kinds of condition [CopyToSwapchain] recovers from: those it
    answers with a new swapchain, and the loss of the surface. *)
Definition outdated (result : Z) : bool :=
  (result =? VK_ERROR_OUT_OF_DATE_KHR) || (result =? VK_SUBOPTIMAL_KHR).

Definition surface_lost (result : Z) : bool :=
  result =? VK_ERROR_SURFACE_LOST_KHR.

(** The number of calls of one kind in a log that the driver answered in a
    given way. *)
Definition answers (drv : Driver) (p : Response -> bool) (c : DriverCall)
    (log : Log) : nat :=
  length (filter (fun n => p (drv c n))
                 (seq 0 (count_occ DriverCall_eq_dec log c))).

Definition failed_with (q : Z -> bool) (answer : Response) : bool :=
  match answer with
  | Fail r => q r
  | Ok _ => false
  end.

Definition asks_recreation (answer : Response) : bool :=
  match answer with
  | Ok true => true
  | _ => false
  end.

(** The conditions of a kind that [CopyToSwapchainImpl] has raised along a
    log: the acquisitions, submits and presents that threw one. *)
Definition raised (drv : Driver) (q : Z -> bool) (log : Log) : nat :=
  (answers drv (failed_with q) AcquireNextImage log
   + answers drv (failed_with q) QueueSubmit log
   + answers drv (failed_with q) SwapchainPresent log)%nat.

(** The acquisitions that asked for a new swapchain, which the acquire loop
    creates itself. *)
Definition recreations_asked (drv : Driver) (log : Log) : nat :=
  answers drv asks_recreation AcquireNextImage log.

(** The attempts made: each call of [CopyToSwapchainImpl] leaves its
    acquire loop on an acquisition that throws or asks for nothing. *)
Definition attempts (drv : Driver) (log : Log) : nat :=
  answers drv (fun answer => negb (asks_recreation answer)) AcquireNextImage log.

(** A driver that settles: from the [k]-th call of each kind on, the
    acquisition asks for nothing and the acquisition, the submit and the
    present succeed. *)
Definition settles (k : nat) (drv : Driver) : Prop :=
  forall n, (k <= n)%nat ->
    drv AcquireNextImage n = Ok false /\
    (exists b, drv QueueSubmit n = Ok b) /\
    (exists b, drv SwapchainPresent n = Ok b).

(** A driver that raises nothing but the conditions [CopyToSwapchain]
    recovers from. *)
Definition only_transient (drv : Driver) : Prop :=
  forall c n r, drv c n = Fail r -> transient r = true.

(** The calls that may still go wrong on a driver that settles at [k]. *)
Definition unsettled (k : nat) (log : Log) : nat :=
  ((k - count_occ DriverCall_eq_dec log AcquireNextImage)
   + (k - count_occ DriverCall_eq_dec log QueueSubmit)
   + (k - count_occ DriverCall_eq_dec log SwapchainPresent))%nat.

Definition thrown_as (q : Z -> bool) (thrown : option Z) : nat :=
  match thrown with
  | Some r => if q r then 1 else 0
  | None => 0
  end.

(** What a stretch of calls, from a log to a longer one, adds to the
    counts: the surfaces created, the swapchains created, the recreations
    asked for by an acquisition, the attempts, and the condition thrown at
    its end, if any. *)
Definition adds (drv : Driver) (log log' : Log)
    (surfaces swapchains asked tries : nat) (thrown : option Z) : Prop :=
  count_occ DriverCall_eq_dec log' CreateSurface
  = (count_occ DriverCall_eq_dec log CreateSurface + surfaces)%nat /\
  count_occ DriverCall_eq_dec log' SwapchainCreate
  = (count_occ DriverCall_eq_dec log SwapchainCreate + swapchains)%nat /\
  recreations_asked drv log' = (recreations_asked drv log + asked)%nat /\
  attempts drv log' = (attempts drv log + tries)%nat /\
  forall q, raised drv q log' = (raised drv q log + thrown_as q thrown)%nat.

Definition thrown_of (out : Outcome unit) : option Z :=
  match out with
  | Threw r => Some r
  | _ => None
  end.

(** The counts at the head of a turn of the loop of [CopyToSwapchain]:
    every attempt so far has raised one condition, each of them answered
    with its recreations but for the surface still to create when
    [requires_recreation] is set. *)
Definition balanced (drv : Driver) (requires_recreation : bool) (log : Log)
    : Prop :=
  let due := if requires_recreation then 1%nat else 0%nat in
  (count_occ DriverCall_eq_dec log CreateSurface + due
   = raised drv surface_lost log)%nat /\
  (count_occ DriverCall_eq_dec log SwapchainCreate + due
   = recreations_asked drv log + raised drv outdated log
     + raised drv surface_lost log)%nat /\
  attempts drv log = (raised drv outdated log + raised drv surface_lost log)%nat.

(** The counts when [CopyToSwapchain] returns. *)
Definition recovered (drv : Driver) (log : Log) : Prop :=
  count_occ DriverCall_eq_dec log CreateSurface = raised drv surface_lost log /\
  count_occ DriverCall_eq_dec log SwapchainCreate
  = (recreations_asked drv log + raised drv outdated log
     + raised drv surface_lost log)%nat /\
  attempts drv log
  = S (raised drv outdated log + raised drv surface_lost log).
(** What a part of an attempt comes to on a driver that settles at [k]: it
    ends, with no more calls left to go wrong than before, and with fewer
    when it throws, which it does with a condition of the recoverable
    kind. *)
Definition settling (k : nat) (log : Log) (res : Outcome unit * Log) : Prop :=
  (unsettled k (snd res) <= unsettled k log)%nat /\
  match fst res with
  | Returned _ => True
  | Threw r => transient r = true /\ (unsettled k (snd res) < unsettled k log)%nat
  | OutOfFuel => False
  end.

(** A driver whose image acquisition and queue submit never fail and
    whose acquisition never asks for a new swapchain. *)
Definition quiet (drv : Driver) : Prop :=
  forall n, drv AcquireNextImage n = Ok false /\
            (exists b, drv QueueSubmit n = Ok b).

(** An exception as the last call to the driver raised it. *)
Definition raised_by_last_call (drv : Driver) (result : Z) (log : Log) : Prop :=
  exists log0 c,
    log = log0 ++ [c] /\ c <> ReportLoss /\
    drv c (count_occ DriverCall_eq_dec log0 c) = Fail result.

(** A log that ends with an attempt gone through: the acquisition that
    asks for no new swapchain, the submit and the present, all three
    answered with success. *)
Definition ends_presented (drv : Driver) (log : Log) : Prop :=
  exists log0 b1 b2,
    log = log0 ++ [AcquireNextImage; QueueSubmit; SwapchainPresent] /\
    drv AcquireNextImage (count_occ DriverCall_eq_dec log0 AcquireNextImage)
    = Ok false /\
    drv QueueSubmit (count_occ DriverCall_eq_dec log0 QueueSubmit) = Ok b1 /\
    drv SwapchainPresent (count_occ DriverCall_eq_dec log0 SwapchainPresent)
    = Ok b2.

(** What a part of [CopyToSwapchain] that reports no loss can come to: it
    returns after the calls [ok] accepts, or it throws what its last call
    raised. *)
Definition unreported (drv : Driver) (ok : Log -> Prop)
    (res : Outcome unit * Log) : Prop :=
  ~ In ReportLoss (snd res) /\
  match fst res with
  | Returned _ => ok (snd res)
  | Threw r => raised_by_last_call drv r (snd res)
  | OutOfFuel => True
  end.

(** ** The number of frames and the transfer *)

Definition MAX_FRAMES_IN_FLIGHT : Z := 3.

(** [PresentManager::SetImageCount]: the new [image_count], from
    [swapchain.GetImageCount()]. *)
Definition SetImageCount (swapchain_image_count : Z) : Z :=
  Z.max (Z.min swapchain_image_count MAX_FRAMES_IN_FLIGHT) 2.

(** A [u32] read as an [s32], as the arguments of [MakeImageBlit] are. *)
Definition to_s32 (z : Z) : Z := (z + 2 ^ 31) mod 2 ^ 32 - 2 ^ 31.

Record VkOffset3D := { x : Z; y : Z; z : Z }.
Record VkExtent3D := { extent_width : Z; extent_height : Z; extent_depth : Z }.

(** [VkImageBlit] and [VkImageCopy], less the subresource layers, which
    [MakeImageSubresourceLayers] makes the same for all. *)
Record VkImageBlit := {
  srcOffsets : VkOffset3D * VkOffset3D;
  dstOffsets : VkOffset3D * VkOffset3D
}.

Record VkImageCopy := {
  srcOffset : VkOffset3D;
  dstOffset : VkOffset3D;
  extent : VkExtent3D
}.

(** [MakeImageBlit]. *)
Definition MakeImageBlit (frame_width frame_height swapchain_width
    swapchain_height : Z) : VkImageBlit :=
  {| srcOffsets := ({| x := 0; y := 0; z := 0 |},
                    {| x := frame_width; y := frame_height; z := 1 |});
     dstOffsets := ({| x := 0; y := 0; z := 0 |},
                    {| x := swapchain_width; y := swapchain_height; z := 1 |}) |}.

(** [MakeImageCopy]. *)
Definition MakeImageCopy (frame_width frame_height swapchain_width
    swapchain_height : Z) : VkImageCopy :=
  {| srcOffset := {| x := 0; y := 0; z := 0 |};
     dstOffset := {| x := 0; y := 0; z := 0 |};
     extent := {| extent_width := Z.min frame_width swapchain_width;
                  extent_height := Z.min frame_height swapchain_height;
                  extent_depth := 1 |} |}.

(** The transfer recorded by [CopyToSwapchainImpl] between its barriers. *)
Inductive Transfer : Type :=
| BlitImage (region : VkImageBlit)
| CopyImage (region : VkImageCopy).

Definition transfer (blit_supported : bool) (frame_width frame_height : Z)
    (swapchain_extent : VkExtent2D) : Transfer :=
  if blit_supported &&
     (negb (frame_width =? width swapchain_extent) ||
      negb (frame_height =? height swapchain_extent))
  then BlitImage (MakeImageBlit (to_s32 frame_width) (to_s32 frame_height)
                                (to_s32 (width swapchain_extent))
                                (to_s32 (height swapchain_extent)))
  else CopyImage (MakeImageCopy frame_width frame_height
                                (width swapchain_extent)
                                (height swapchain_extent)).

(** ** The frames and their queues *)

(** The fence [present_done] of a frame: signaled, reset, handed to the
    queue with a submit and not yet signaled by the GPU, or handed to the
    queue again with no reset since the submit before.  Vulkan wants a fence
    unsignaled at the submit and defines nothing from there on: the device
    may signal such a fence or leave it. *)
Inductive FenceState : Type :=
| FenceSignaled
| FenceUnsignaled
| FencePending
| FenceResubmitted.

(** The present manager with the threads around it.  Frames are the
    indices into [frames].  [free_queue] and [present_queue] are the two
    queues of the class; [scheduled] holds the frames of the closures that
    [Present] has recorded in the scheduler and the worker has not run yet,
    oldest first; [taken] is the frame the present thread has popped and
    not yet copied.  The other fields keep the account: the frames the
    renderer holds, those it has passed to [Present], those copied to the
    swapchain, and those whose copy threw in the renderer's own call, each
    oldest first. *)
Record t := {
  use_present_thread : bool;
  present_done : nat -> FenceState;
  free_queue : list nat;
  scheduled : list nat;
  present_queue : list nat;
  taken : option nat;
  thread_alive : bool;
  held : list nat;
  asked : list nat;
  copied : list nat;
  lost : list nat
}.

(** [PresentManager::PresentManager]: [SetImageCount], then one frame for
    each image, its fence created signaled, pushed on the free queue. *)
Definition create (async_presentation : bool) (swapchain_image_count : Z) : t :=
  {| use_present_thread := async_presentation;
     present_done := fun _ => FenceSignaled;
     free_queue := seq 0 (Z.to_nat (SetImageCount swapchain_image_count));
     scheduled := []; present_queue := []; taken := None;
     thread_alive := true;
     held := []; asked := []; copied := []; lost := [] |}.

Definition set_fence (frame : nat) (st : FenceState) (pm : t) : t :=
  {| use_present_thread := use_present_thread pm;
     present_done := fun f => if Nat.eqb f frame then st else present_done pm f;
     free_queue := free_queue pm; scheduled := scheduled pm;
     present_queue := present_queue pm; taken := taken pm;
     thread_alive := thread_alive pm;
     held := held pm; asked := asked pm; copied := copied pm; lost := lost pm |}.

Definition set_queues (free sched present : list nat) (tk : option nat)
    (pm : t) : t :=
  {| use_present_thread := use_present_thread pm;
     present_done := present_done pm;
     free_queue := free; scheduled := sched;
     present_queue := present; taken := tk;
     thread_alive := thread_alive pm;
     held := held pm; asked := asked pm; copied := copied pm; lost := lost pm |}.

Definition set_account (h a c l : list nat) (pm : t) : t :=
  {| use_present_thread := use_present_thread pm;
     present_done := present_done pm;
     free_queue := free_queue pm; scheduled := scheduled pm;
     present_queue := present_queue pm; taken := taken pm;
     thread_alive := thread_alive pm;
     held := h; asked := a; copied := c; lost := l |}.

Definition stop_thread (pm : t) : t :=
  {| use_present_thread := use_present_thread pm;
     present_done := present_done pm;
     free_queue := free_queue pm; scheduled := scheduled pm;
     present_queue := present_queue pm; taken := taken pm;
     thread_alive := false;
     held := held pm; asked := asked pm; copied := copied pm; lost := lost pm |}.

(** [PresentManager::GetRenderFrame]: the front frame of the free queue,
    once its fence is signaled; the fence is reset.  [None] while the call
    is blocked, on the empty queue or on the fence. *)
Definition GetRenderFrame (pm : t) : option (nat * t) :=
  match free_queue pm with
  | [] => None
  | frame :: rest =>
      match present_done pm frame with
      | FenceSignaled =>
          Some (frame,
                set_account (held pm ++ [frame]) (asked pm) (copied pm) (lost pm)
                  (set_fence frame FenceUnsignaled
                     (set_queues rest (scheduled pm) (present_queue pm)
                                 (taken pm) pm)))
      | _ => None
      end
  end.

Definition accepted (answer : Response) : bool :=
  match answer with
  | Ok _ => true
  | Fail _ => false
  end.

(** The number of submits the queue accepted among the calls of a log; the
    submit of [CopyToSwapchainImpl] carries the fence of the frame. *)
Definition accepted_submits (drv : Driver) (log : Log) : nat :=
  length (filter (fun n => accepted (drv QueueSubmit n))
                 (seq 0 (count_occ DriverCall_eq_dec log QueueSubmit))).

(** What one call of [CopyToSwapchain] does to the fence of the frame,
    [before] being the calls made before it.  A submit the queue accepts
    hands the fence over: it is pending from there if it was reset, and the
    fence was not reset if this is a later attempt of the same call, there
    being no [Reset] but the one of [GetRenderFrame].  [RecreateSwapchain]
    waits for the device to be idle before it creates the swapchain, which
    signals a pending fence. *)
Definition fence_call (drv : Driver) (before : Log) (c : DriverCall)
    (st : FenceState) : FenceState :=
  match c with
  | QueueSubmit =>
      if accepted (drv QueueSubmit
                       (count_occ DriverCall_eq_dec before QueueSubmit))
      then match st with
           | FenceUnsignaled => FencePending
           | _ => FenceResubmitted
           end
      else st
  | SwapchainCreate =>
      match st with
      | FencePending => FenceSignaled
      | _ => st
      end
  | _ => st
  end.

Fixpoint fence_along (drv : Driver) (before calls : Log) (st : FenceState)
    : FenceState :=
  match calls with
  | [] => st
  | c :: rest => fence_along drv (before ++ [c]) rest (fence_call drv before c st)
  end.

(** The fence of a frame after [CopyToSwapchain] has made the calls of a
    log. *)
Definition fence_after (drv : Driver) (log : Log) (frame : nat) (pm : t) : t :=
  set_fence frame (fence_along drv [] log (present_done pm frame)) pm.

Arguments fence_after : simpl never.

(** [PresentManager::Present].  Without the present thread the frame is
    copied at once and goes back to the free queue, unless the copy throws;
    with it, a closure that will push the frame on [present_queue] is
    recorded in the scheduler.  [fuel] and [drv] are those of the call of
    [CopyToSwapchain]. *)
Definition Present (frame : nat) (fuel : nat) (drv : Driver) (pm : t)
    : Outcome unit * t :=
  let pm1 := set_account (remove Nat.eq_dec frame (held pm)) (asked pm ++ [frame])
                         (copied pm) (lost pm) pm in
  if use_present_thread pm then
    (Returned tt,
     set_queues (free_queue pm1) (scheduled pm1 ++ [frame]) (present_queue pm1)
                (taken pm1) pm1)
  else
    match CopyToSwapchain fuel drv with
    | (Returned _, log) =>
        let pm2 := fence_after drv log frame pm1 in
        (Returned tt,
         set_queues (free_queue pm2 ++ [frame]) (scheduled pm2)
                    (present_queue pm2) (taken pm2)
           (set_account (held pm2) (asked pm2) (copied pm2 ++ [frame]) (lost pm2)
                        pm2))
    | (Threw result, log) =>
        let pm2 := fence_after drv log frame pm1 in
        (Threw result,
         set_account (held pm2) (asked pm2) (copied pm2) (lost pm2 ++ [frame]) pm2)
    | (OutOfFuel, _) => (OutOfFuel, pm)
    end.

(** The closure recorded by [Present], run by the worker of the scheduler:
    the frame goes to the back of [present_queue].  The scheduler runs the
    closures in the order of recording. *)
Definition run_present_closure (pm : t) : t :=
  match scheduled pm with
  | [] => pm
  | frame :: rest =>
      set_queues (free_queue pm) rest (present_queue pm ++ [frame]) (taken pm) pm
  end.

(** The first half of a turn of [PresentManager::PresentThread], under
    [queue_mutex]: the front frame of [present_queue] is taken.  The lock is
    exchanged for one on [swapchain_mutex] and goes out of scope with the
    block, so both mutexes are free before the copy. *)
Definition PresentThread_pop (pm : t) : t :=
  match taken pm, present_queue pm with
  | None, frame :: rest =>
      set_queues (free_queue pm) (scheduled pm) rest (Some frame) pm
  | _, _ => pm
  end.

(** The second half: the copy, then the frame goes back to the free queue.
    An exception leaves the thread function. *)
Definition PresentThread_copy (fuel : nat) (drv : Driver) (pm : t) : t :=
  match taken pm with
  | None => pm
  | Some frame =>
      match CopyToSwapchain fuel drv with
      | (Returned _, log) =>
          let pm2 := fence_after drv log frame pm in
          set_queues (free_queue pm2 ++ [frame]) (scheduled pm2)
                     (present_queue pm2) None
            (set_account (held pm2) (asked pm2) (copied pm2 ++ [frame]) (lost pm2)
                         pm2)
      | (Threw _, log) => stop_thread (fence_after drv log frame pm)
      | (OutOfFuel, _) => pm
      end
  end.

(** The GPU finishes the copy submitted for a frame and signals its
    fence. *)
Definition signal_fence (frame : nat) (pm : t) : t :=
  match present_done pm frame with
  | FencePending | FenceResubmitted => set_fence frame FenceSignaled pm
  | _ => pm
  end.

(** [PresentManager::WaitPresent]: without the present thread the device is
    idled, which completes what was submitted; with it the caller waits
    until [present_queue] is empty and takes [swapchain_mutex], which nobody
    holds across an event.  [None] while the call is blocked. *)
Definition WaitPresent (pm : t) : option t :=
  if use_present_thread pm then
    match present_queue pm with
    | [] => Some pm
    | _ :: _ => None
    end
  else
    Some {| use_present_thread := use_present_thread pm;
            present_done := fun f => match present_done pm f with
                                     | FencePending => FenceSignaled
                                     | st => st
                                     end;
            free_queue := free_queue pm; scheduled := scheduled pm;
            present_queue := present_queue pm; taken := taken pm;
            thread_alive := thread_alive pm;
            held := held pm; asked := asked pm; copied := copied pm;
            lost := lost pm |}.

(** What happens around the present manager: the renderer gets a frame; the
    renderer presents the oldest frame it holds; the worker of the
    scheduler runs the oldest closure of [Present]; the present thread pops
    a frame; the present thread copies the frame it has popped; the GPU
    signals the fence of a frame. *)
Inductive FrameEvent : Type :=
| Renders
| Presents (fuel : nat) (drv : Driver)
| SchedulerRuns
| ThreadPops
| ThreadCopies (fuel : nat) (drv : Driver)
| FenceSignals (frame : nat).

(** Once an exception has left the present thread the process is gone. *)
Definition frame_step (e : FrameEvent) (pm : t) : t :=
  if thread_alive pm then
    match e with
    | Renders =>
        match GetRenderFrame pm with
        | Some (_, pm') => pm'
        | None => pm
        end
    | Presents fuel drv =>
        match held pm with
        | [] => pm
        | frame :: _ => snd (Present frame fuel drv pm)
        end
    | SchedulerRuns => run_present_closure pm
    | ThreadPops => if use_present_thread pm then PresentThread_pop pm else pm
    | ThreadCopies fuel drv =>
        if use_present_thread pm then PresentThread_copy fuel drv pm else pm
    | FenceSignals frame => signal_fence frame pm
    end
  else pm.

Fixpoint frame_run (evs : list FrameEvent) (pm : t) : t :=
  match evs with
  | [] => pm
  | e :: rest => frame_run rest (frame_step e pm)
  end.

(** The frame the present thread holds, as a list. *)
Definition taken_frames (pm : t) : list nat :=
  match taken pm with
  | Some frame => [frame]
  | None => []
  end.

(** Where the frames are. *)
Definition whereabouts (pm : t) : list nat :=
  free_queue pm ++ held pm ++ scheduled pm ++ present_queue pm
    ++ taken_frames pm ++ lost pm.

(** The account of [n] frames: each frame is in one place; a frame of the
    free queue has a fence that is signaled or was handed to the queue
    since its reset; with the
    present thread, the frames passed to [Present] are, in order, those
    copied, the one the thread holds, those of [present_queue] and those
    still with the scheduler. *)
Definition accounted (n : nat) (pm : t) : Prop :=
  (forall frame,
      count_occ Nat.eq_dec (whereabouts pm) frame
      = count_occ Nat.eq_dec (seq 0 n) frame) /\
  (forall frame,
      In frame (free_queue pm) -> present_done pm frame <> FenceUnsignaled) /\
  (use_present_thread pm = true ->
   asked pm
   = copied pm ++ taken_frames pm ++ present_queue pm ++ scheduled pm).

End PresentManager.

(* ================================================================== *)
(** * MemoryAllocator *)
(* ================================================================== *)

Module MemoryAllocator.

Inductive MemoryUsage : Type := DeviceLocal | Upload | Download | Stream.

Definition MemoryUsage_eqb (a b : MemoryUsage) : bool :=
  match a, b with
  | DeviceLocal, DeviceLocal | Upload, Upload
  | Download, Download | Stream, Stream => true
  | _, _ => false
  end.

Record VkMemoryType := { propertyFlags : Z; heapIndex : Z }.
Record VkMemoryHeap := { size : Z; flags : Z }.

(** [VkPhysicalDeviceMemoryProperties]; the arrays have
    [VK_MAX_MEMORY_TYPES] and [VK_MAX_MEMORY_HEAPS] entries, those past the
    counts unspecified. *)
Record VkPhysicalDeviceMemoryProperties := {
  memoryTypeCount : Z;
  memoryTypes : list VkMemoryType;
  memoryHeapCount : Z;
  memoryHeaps : list VkMemoryHeap
}.

Definition VK_MAX_MEMORY_TYPES : Z := 32.

(** What the allocator reads from the [Device]. *)
Record Device := {
  HasDebuggingToolAttached : bool;
  GetMemoryProperties : VkPhysicalDeviceMemoryProperties
}.

Definition MiB_256 : Z := 256 * 1024 * 1024.

Definition memory_type (props : VkPhysicalDeviceMemoryProperties) (i : Z)
    : VkMemoryType :=
  nth (Z.to_nat i) (memoryTypes props) {| propertyFlags := 0; heapIndex := 0 |}.

Definition memory_heap (props : VkPhysicalDeviceMemoryProperties) (i : Z)
    : VkMemoryHeap :=
  nth (Z.to_nat i) (memoryHeaps props) {| size := 0; flags := 0 |}.

Definition is_device_local (ty : VkMemoryType) : bool :=
  negb (Z.land (propertyFlags ty) VK_MEMORY_PROPERTY_DEVICE_LOCAL_BIT =? 0).

Definition is_host_visible (ty : VkMemoryType) : bool :=
  negb (Z.land (propertyFlags ty) VK_MEMORY_PROPERTY_HOST_VISIBLE_BIT =? 0).

(** The loop of [MemoryAllocator::ForEachDeviceLocalHostVisibleHeap] over
    the values [i] takes, [func] acting on an accumulator. *)
Fixpoint for_each_type {A : Type} (props : VkPhysicalDeviceMemoryProperties)
    (func : Z -> VkMemoryHeap -> A -> A) (indices : list Z) (acc : A) : A :=
  match indices with
  | [] => acc
  | i :: rest =>
      let ty := memory_type props i in
      if is_device_local ty && is_host_visible ty then
        let heap_index := heapIndex ty in
        for_each_type props func rest (func i (memory_heap props heap_index) acc)
      else for_each_type props func rest acc
  end.

(** [MemoryAllocator::ForEachDeviceLocalHostVisibleHeap]. *)
Definition ForEachDeviceLocalHostVisibleHeap {A : Type} (device : Device)
    (func : Z -> VkMemoryHeap -> A -> A) (acc : A) : A :=
  let memory_props := GetMemoryProperties device in
  for_each_type memory_props func
    (map Z.of_nat (seq 0 (Z.to_nat (memoryTypeCount memory_props)))) acc.

(** The callback of the constructor:
    [disallowed_memory_types_for_stream |= (1u << type_index)] for a heap of
    at most 256 MiB. *)
Definition disallow_small_heap (type_index : Z) (heap : VkMemoryHeap)
    (disallowed : Z) : Z :=
  if size heap <=? MiB_256
  then Z.lor disallowed (to_u32 (Z.shiftl 1 type_index))
  else disallowed.

(** The allocator: the mask its constructor computes. *)
Record t := { disallowed_memory_types_for_stream : Z }.

(** [MemoryAllocator::MemoryAllocator]. *)
Definition create (device : Device) : t :=
  {| disallowed_memory_types_for_stream :=
       if HasDebuggingToolAttached device
       then ForEachDeviceLocalHostVisibleHeap device disallow_small_heap 0
       else 0 |}.

(** [~x] on a [u32]. *)
Definition not_u32 (x : Z) : Z := to_u32 (Z.lnot x).

(** The [memoryTypeBits] of the [VmaAllocationCreateInfo] built by
    [MemoryAllocator::CreateBuffer]. *)
Definition CreateBuffer_memoryTypeBits (a : t) (usage : MemoryUsage) : Z :=
  if MemoryUsage_eqb usage Stream
  then not_u32 (disallowed_memory_types_for_stream a)
  else 0.

(** How the allocator library reads [memoryTypeBits]: one bit set for every
    acceptable memory type, and [0] for "every type". *)
Definition type_accepted (memoryTypeBits : Z) (type_index : Z) : bool :=
  (memoryTypeBits =? 0) || Z.testbit memoryTypeBits type_index.

(** Allocation flags and memory usages of the allocator library
    (vk_mem_alloc.h). *)
Definition VMA_ALLOCATION_CREATE_MAPPED_BIT : Z := 4.
Definition VMA_ALLOCATION_CREATE_WITHIN_BUDGET_BIT : Z := 256.
Definition VMA_ALLOCATION_CREATE_HOST_ACCESS_SEQUENTIAL_WRITE_BIT : Z := 1024.
Definition VMA_ALLOCATION_CREATE_HOST_ACCESS_RANDOM_BIT : Z := 2048.
Definition VMA_MEMORY_USAGE_AUTO : Z := 7.
Definition VMA_MEMORY_USAGE_AUTO_PREFER_DEVICE : Z := 8.
Definition VMA_MEMORY_USAGE_AUTO_PREFER_HOST : Z := 9.

(** [MemoryUsagePreferredVmaFlags]. *)
Definition MemoryUsagePreferredVmaFlags (usage : MemoryUsage) : Z :=
  if negb (MemoryUsage_eqb usage DeviceLocal)
  then VK_MEMORY_PROPERTY_HOST_COHERENT_BIT
  else 0.

(** [MemoryUsageVmaFlags]; the switch covers the enumeration. *)
Definition MemoryUsageVmaFlags (usage : MemoryUsage) : Z :=
  match usage with
  | Upload | Stream =>
      Z.lor VMA_ALLOCATION_CREATE_MAPPED_BIT
            VMA_ALLOCATION_CREATE_HOST_ACCESS_SEQUENTIAL_WRITE_BIT
  | Download =>
      Z.lor VMA_ALLOCATION_CREATE_MAPPED_BIT
            VMA_ALLOCATION_CREATE_HOST_ACCESS_RANDOM_BIT
  | DeviceLocal => 0
  end.

(** [MemoryUsageVma]; the switch covers the enumeration. *)
Definition MemoryUsageVma (usage : MemoryUsage) : Z :=
  match usage with
  | DeviceLocal | Stream => VMA_MEMORY_USAGE_AUTO_PREFER_DEVICE
  | Upload | Download => VMA_MEMORY_USAGE_AUTO_PREFER_HOST
  end.

(** [VmaAllocationCreateInfo], less the pool, the user data and the
    priority hint; the fields carry a prefix, [flags] being taken by
    [VkMemoryHeap]. *)
Record VmaAllocationCreateInfo := {
  ci_flags : Z;
  ci_usage : Z;
  ci_requiredFlags : Z;
  ci_preferredFlags : Z;
  ci_memoryTypeBits : Z
}.

(** The [alloc_ci] of [MemoryAllocator::CreateBuffer]. *)
Definition CreateBuffer_alloc_ci (a : t) (usage : MemoryUsage)
    : VmaAllocationCreateInfo :=
  {| ci_flags := Z.lor VMA_ALLOCATION_CREATE_WITHIN_BUDGET_BIT
                       (MemoryUsageVmaFlags usage);
     ci_usage := MemoryUsageVma usage;
     ci_requiredFlags := 0;
     ci_preferredFlags := MemoryUsagePreferredVmaFlags usage;
     ci_memoryTypeBits := CreateBuffer_memoryTypeBits a usage |}.

(** The [alloc_ci] of [MemoryAllocator::CreateImage]. *)
Definition CreateImage_alloc_ci : VmaAllocationCreateInfo :=
  {| ci_flags := VMA_ALLOCATION_CREATE_WITHIN_BUDGET_BIT;
     ci_usage := VMA_MEMORY_USAGE_AUTO_PREFER_DEVICE;
     ci_requiredFlags := 0;
     ci_preferredFlags := VK_MEMORY_PROPERTY_DEVICE_LOCAL_BIT;
     ci_memoryTypeBits := 0 |}.

(** The calls [ForEachDeviceLocalHostVisibleHeap] makes to its callback, in
    order: the callback that notes its arguments. *)
Definition note_call (type_index : Z) (heap : VkMemoryHeap)
    (calls : list (Z * VkMemoryHeap)) : list (Z * VkMemoryHeap) :=
  calls ++ [(type_index, heap)].

(** The types the constructor means to keep away from the Stream path. *)
Definition small_device_local_host_visible (device : Device) (i : Z) : bool :=
  let props := GetMemoryProperties device in
  let ty := memory_type props i in
  (0 <=? i) && (i <? memoryTypeCount props) &&
  is_device_local ty && is_host_visible ty &&
  (size (memory_heap props (heapIndex ty)) <=? MiB_256).

End MemoryAllocator.

(* ================================================================== *)
(** * Notions used in the statements *)
(* ================================================================== *)

Import Scheduler.

(** A call that only records: the commands [new] are appended to the
    pending ones, the threads and the ticks are untouched and the reserve
    stays reset. *)
Definition records (s s' : Scheduler.t) (new : list Command) : Prop :=
  pending s' = pending s ++ new /\
  worker s' = worker s /\
  gpu s' = gpu s /\
  master_semaphore s' = master_semaphore s /\
  reserve_reset s'.

(** The commands [EndRenderPass] records: none outside a render pass, the
    end command otherwise. *)
Definition EndRenderPass_commands (s : Scheduler.t) : list Command :=
  if renderpass (state s) =? nullptr then []
  else [EndRenderPassCmd (num_renderpass_images s) (renderpass_images s)
                         (renderpass_image_ranges s)].

(** The bound of the ticks issued so far: the next tick, or 2^64 once the
    last [u64] value has been issued and the counter reads zero. *)
Definition horizon (s : Scheduler.t) : Z :=
  if MasterSemaphore.current_tick (master_semaphore s) =? 0 then u64_modulus
  else MasterSemaphore.current_tick (master_semaphore s).

(** The invariant of a run.  The timeline stays behind the ticks issued and
    the reserve reset whatever happens; while the worker lives the ticks in
    flight are increasing and were issued. *)
Definition inv (s : Scheduler.t) : Prop :=
  0 <= MasterSemaphore.gpu_tick (master_semaphore s) /\
  MasterSemaphore.gpu_tick (master_semaphore s) < horizon s /\
  horizon s <= u64_modulus /\
  Forall (fun v => v <= MasterSemaphore.gpu_tick (master_semaphore s))
         (retired (gpu s)) /\
  reserve_reset s /\
  (alive (worker s) = true ->
   StronglySorted Z.lt (timeline s) /\
   Forall (fun v => v < horizon s) (timeline s)).

(** A tick issued and followed through a run: its submission was retired,
    or the timeline is still below it and, while the worker lives, the
    submission is on the queue or recorded. *)
Definition tracked (s : Scheduler.t) (v : Z) : Prop :=
  In v (retired (gpu s)) \/
  (MasterSemaphore.gpu_tick (master_semaphore s) < v /\
   (alive (worker s) = true -> In v (in_flight s))).

(** The state of affairs while [Finish] waits for the tick [v] of its
    submission: the program order is [order], the ticks in flight are
    increasing and what is pending, if anything, ends with the submit
    command of [v]; once the worker has died the timeline stays below
    [v]. *)
Definition waiting (v : Z) (order : list Command) (s : Scheduler.t) : Prop :=
  if alive (worker s) then
    program_order s = order /\
    StronglySorted Z.lt (timeline s) /\
    (pending s = [] \/
     exists pre sg wt, pending s = pre ++ [SubmitCmd sg wt v])
  else MasterSemaphore.gpu_tick (master_semaphore s) < v.

(** The number of [Flush] calls of a schedule. *)
Definition flushes (evs : list Event) : nat := length (filter is_flush evs).

(** Two schedulers that differ in their chunks at most: what is not the
    chunk being recorded, the work queue or the reserve is the same. *)
Definition same_but_chunks (s s' : Scheduler.t) : Prop :=
  state s' = state s /\
  num_renderpass_images s' = num_renderpass_images s /\
  renderpass_images s' = renderpass_images s /\
  renderpass_image_ranges s' = renderpass_image_ranges s /\
  query_cache s' = query_cache s /\
  chunk_capacity s' = chunk_capacity s /\
  master_semaphore s' = master_semaphore s /\
  worker s' = worker s /\
  gpu s' = gpu s.

(** The state cache as [InvalidateState] leaves it. *)
Definition invalidated (st : State) : State :=
  {| renderpass := nullptr; framebuffer := nullptr;
     render_area := render_area st;
     graphics_pipeline := nullptr;
     is_rescaling := is_rescaling st;
     rescaling_defined := false |}.

(** The commands a call of the producer records. *)
Definition call_commands (c : Call) (s : Scheduler.t) : list Command :=
  match c with
  | CallRecord stamp => [Closure stamp]
  | CallRequestRenderpass fb =>
      if renderpass_matches fb s then []
      else EndRenderPass_commands s ++
           [BeginRenderPassCmd (RenderPass fb) (Handle fb) (RenderArea fb)]
  | CallRequestOutsideRenderPassOperationContext => EndRenderPass_commands s
  | CallUpdateGraphicsPipeline _ => []
  | CallUpdateRescaling _ => []
  | CallDispatchWork => []
  | CallFlush sg wt =>
      EndRenderPass_commands s ++
      [SubmitCmd sg wt (MasterSemaphore.current_tick (master_semaphore s))]
  end.

(** The segment notifications of [n] submissions: the end of a segment
    before each and the start of the next after it. *)
Definition segment_notifications (n : nat) : list bool :=
  concat (repeat [false; true] n).

(** ** Concrete schedulers and schedules *)

(** A framebuffer with one colour attachment, its arrays at the addresses
    4096 and 8192. *)
Definition sample_framebuffer : Framebuffer :=
  {| RenderPass := 11; Handle := 12;
     RenderArea := {| width := 1280; height := 720 |};
     NumImages := 1; Images := 4096; ImageRanges := 8192 |}.

Definition colour_range : VkImageSubresourceRange :=
  {| aspectMask := 1; baseMipLevel := 0; levelCount := 1;
     baseArrayLayer := 0; layerCount := 1 |}.

(** The memory while [sample_framebuffer] has image 13 as its attachment,
    and the memory once image 99 was written in its place. *)
Definition sample_memory : Memory :=
  {| images_at := fun p => if p =? 4096 then [13] else [];
     ranges_at := fun p => if p =? 8192 then [colour_range] else [] |}.

Definition later_memory : Memory :=
  {| images_at := fun p => if p =? 4096 then [99] else [];
     ranges_at := fun p => if p =? 8192 then [colour_range] else [] |}.

(** A fresh scheduler whose chunks hold two commands. *)
Definition fresh : Scheduler.t := Scheduler.init 2 true.

(** A scheduler whose tick counter has reached the last [u64] value. *)
Definition exhausted : Scheduler.t :=
  set_master_semaphore
    {| MasterSemaphore.current_tick := u64_modulus - 1;
       MasterSemaphore.gpu_tick := 0 |} fresh.

(** A closure recorded and flushed, submitted by the worker and retired by
    the GPU. *)
Definition last_flush : list Event :=
  [Producer (CallRecord 1); Producer (CallFlush 0 0);
   WorkerTurn VK_SUCCESS; GpuRetires].

(** A scheduler on which pipeline 7 is bound. *)
Definition bound : Scheduler.t := snd (UpdateGraphicsPipeline 7 fresh).

(** A scheduler inside the render pass of [sample_framebuffer]. *)
Definition in_renderpass : Scheduler.t := RequestRenderpass sample_framebuffer fresh.

(** Three closures recorded in a render pass while the worker runs. *)
Definition recording : list Event :=
  [Producer (CallRequestRenderpass sample_framebuffer);
   Producer (CallRecord 1); Producer (CallRecord 2);
   WorkerTurn VK_SUCCESS; Producer (CallRecord 3)].

(** Three flushes with the worker and the GPU in between. *)
Definition three_flushes : list Event :=
  [Producer (CallRecord 1); Producer (CallFlush 0 0);
   WorkerTurn VK_SUCCESS; Producer (CallFlush 0 0); GpuRetires;
   Producer (CallRecord 2); Producer (CallFlush 0 0); WorkerTurn VK_SUCCESS].

(** ** Memory types *)

(** Whether the callback of the allocator's constructor is reached for type
    [j] with a small heap. *)
Definition small_heap_type
    (props : MemoryAllocator.VkPhysicalDeviceMemoryProperties) (j : Z) : bool :=
  MemoryAllocator.is_device_local (MemoryAllocator.memory_type props j) &&
  MemoryAllocator.is_host_visible (MemoryAllocator.memory_type props j) &&
  (MemoryAllocator.size
     (MemoryAllocator.memory_heap props
        (MemoryAllocator.heapIndex (MemoryAllocator.memory_type props j)))
   <=? MemoryAllocator.MiB_256).

(** A device with a debugging tool attached and three memory types: a
    device-local one, a device-local host-visible one on a heap of 256 MiB
    and a device-local host-visible one on a heap of 8 GiB. *)
Definition sample_device : MemoryAllocator.Device :=
  {| MemoryAllocator.HasDebuggingToolAttached := true;
     MemoryAllocator.GetMemoryProperties :=
       {| MemoryAllocator.memoryTypeCount := 3;
          MemoryAllocator.memoryTypes :=
            [{| MemoryAllocator.propertyFlags := 1; MemoryAllocator.heapIndex := 0 |};
             {| MemoryAllocator.propertyFlags := 7; MemoryAllocator.heapIndex := 1 |};
             {| MemoryAllocator.propertyFlags := 7; MemoryAllocator.heapIndex := 0 |}];
          MemoryAllocator.memoryHeapCount := 2;
          MemoryAllocator.memoryHeaps :=
            [{| MemoryAllocator.size := 8589934592; MemoryAllocator.flags := 1 |};
             {| MemoryAllocator.size := 268435456; MemoryAllocator.flags := 1 |}] |} |}.

(** A device with a debugging tool attached whose 32 memory types are all
    device-local and host-visible on one heap of 128 MiB. *)
Definition crowded_device : MemoryAllocator.Device :=
  {| MemoryAllocator.HasDebuggingToolAttached := true;
     MemoryAllocator.GetMemoryProperties :=
       {| MemoryAllocator.memoryTypeCount := 32;
          MemoryAllocator.memoryTypes :=
            repeat {| MemoryAllocator.propertyFlags := 3;
                      MemoryAllocator.heapIndex := 0 |} 32;
          MemoryAllocator.memoryHeapCount := 1;
          MemoryAllocator.memoryHeaps :=
            [{| MemoryAllocator.size := 134217728; MemoryAllocator.flags := 1 |}] |} |}.

(** The same device with no debugging tool attached. *)
Definition sample_device_plain : MemoryAllocator.Device :=
  {| MemoryAllocator.HasDebuggingToolAttached := false;
     MemoryAllocator.GetMemoryProperties :=
       MemoryAllocator.GetMemoryProperties sample_device |}.

(** ** Drivers *)

(** A driver whose first present raises [result] and that succeeds in
    everything else. *)
Definition fails_once (result : Z) : PresentManager.Driver :=
  fun c n =>
    match c, n with
    | PresentManager.SwapchainPresent, O => PresentManager.Fail result
    | _, _ => PresentManager.Ok false
    end.

(** A driver whose first acquisition raises [result] and that succeeds in
    everything else. *)
Definition acquire_fails_once (result : Z) : PresentManager.Driver :=
  fun c n =>
    match c, n with
    | PresentManager.AcquireNextImage, O => PresentManager.Fail result
    | _, _ => PresentManager.Ok false
    end.

(** A driver whose first two presents find the swapchain out of date. *)
Definition fails_twice : PresentManager.Driver :=
  fun c n =>
    match c, n with
    | PresentManager.SwapchainPresent, O
    | PresentManager.SwapchainPresent, S O =>
        PresentManager.Fail VK_ERROR_OUT_OF_DATE_KHR
    | _, _ => PresentManager.Ok false
    end.

(** A driver whose first present finds the swapchain out of date and on
    which the surface is lost when the swapchain is created anew. *)
Definition recreation_fails : PresentManager.Driver :=
  fun c n =>
    match c with
    | PresentManager.SwapchainPresent =>
        PresentManager.Fail VK_ERROR_OUT_OF_DATE_KHR
    | PresentManager.SwapchainCreate =>
        PresentManager.Fail VK_ERROR_SURFACE_LOST_KHR
    | _ => PresentManager.Ok false
    end.

(** A driver whose first acquisition asks for a new swapchain and whose
    first present finds the swapchain out of date. *)
Definition acquire_outdated : PresentManager.Driver :=
  fun c n =>
    match c, n with
    | PresentManager.AcquireNextImage, O => PresentManager.Ok true
    | PresentManager.SwapchainPresent, O =>
        PresentManager.Fail VK_ERROR_OUT_OF_DATE_KHR
    | _, _ => PresentManager.Ok false
    end.

(** A driver whose every present finds the swapchain out of date. *)
Definition always_out_of_date : PresentManager.Driver :=
  fun c n =>
    match c with
    | PresentManager.SwapchainPresent =>
        PresentManager.Fail VK_ERROR_OUT_OF_DATE_KHR
    | _ => PresentManager.Ok false
    end.

(* ================================================================== *)
(** * Properties of the scheduler: recording *)
(* ================================================================== *)

Lemma records_refl s : reserve_reset s -> records s s [].
Proof.
  intros H. unfold records. rewrite app_nil_r. repeat split; auto.
Qed.

Lemma records_trans s1 s2 s3 n1 n2 :
  records s1 s2 n1 -> records s2 s3 n2 -> records s1 s3 (n1 ++ n2).
Proof.
  intros (P1 & W1 & G1 & M1 & R1) (P2 & W2 & G2 & M2 & R2).
  unfold records. rewrite P2, P1, app_assoc. repeat split; congruence.
Qed.

Lemma reserve_back (r : list CommandChunk) back front :
  rev r = back :: front -> r = rev front ++ [back].
Proof.
  intros H. rewrite <- (rev_involutive r), H. reflexivity.
Qed.

Lemma AcquireNewChunk_reset s :
  reserve_reset s ->
  chunk (AcquireNewChunk s) = new_chunk /\
  work_queue (AcquireNewChunk s) = work_queue s /\
  reserve_reset (AcquireNewChunk s) /\
  worker (AcquireNewChunk s) = worker s /\
  gpu (AcquireNewChunk s) = gpu s /\
  master_semaphore (AcquireNewChunk s) = master_semaphore s /\
  state (AcquireNewChunk s) = state s.
Proof.
  unfold reserve_reset, AcquireNewChunk. intros H.
  destruct (rev (chunk_reserve s)) as [|back front] eqn:E; simpl.
  - repeat split; auto.
  - apply reserve_back in E. rewrite E in H.
    apply Forall_app in H. destruct H as [Hf Hb].
    inversion Hb; subst. repeat split; auto.
Qed.

Lemma DispatchWork_records s : reserve_reset s -> records s (DispatchWork s) [].
Proof.
  intros H. unfold DispatchWork.
  destruct (Empty (chunk s)) eqn:E.
  - now apply records_refl.
  - set (s1 := set_chunks (chunk s) (work_queue s ++ [chunk s]) (chunk_reserve s) s).
    assert (H1 : reserve_reset s1) by exact H.
    destruct (AcquireNewChunk_reset s1 H1) as (C & Q & R & W & G & M & _).
    unfold records, pending. rewrite C, Q, W, G, M. subst s1. simpl.
    rewrite map_app, concat_app. simpl. rewrite !app_nil_r.
    repeat split; auto.
Qed.

Lemma DispatchWork_state s : reserve_reset s -> state (DispatchWork s) = state s.
Proof.
  intros H. unfold DispatchWork. destruct (Empty (chunk s)); auto.
  set (s1 := set_chunks _ _ _ s).
  assert (H1 : reserve_reset s1) by exact H.
  destruct (AcquireNewChunk_reset s1 H1) as (_ & _ & _ & _ & _ & _ & S1).
  rewrite S1. reflexivity.
Qed.

Lemma append_command_records c s :
  reserve_reset s -> records s (append_command c s) [c].
Proof.
  intros H. unfold records, pending, append_command. simpl.
  rewrite app_assoc. repeat split; auto.
Qed.

Lemma Record_records c s : reserve_reset s -> records s (Record_ c s) [c].
Proof.
  intros H. unfold Record_. destruct (chunk_full s).
  - pose proof (DispatchWork_records s H) as D.
    assert (R : reserve_reset (DispatchWork s)) by apply D.
    change [c] with ([] ++ [c]).
    eapply records_trans; [exact D | now apply append_command_records].
  - now apply append_command_records.
Qed.

Lemma Record_state c s : reserve_reset s -> state (Record_ c s) = state s.
Proof.
  intros H. unfold Record_. destruct (chunk_full s); simpl; auto.
  now apply DispatchWork_state.
Qed.

Lemma set_state_records st s : reserve_reset s -> records s (set_state st s) [].
Proof. intros H. unfold records, pending. simpl. rewrite app_nil_r. auto. Qed.

Lemma set_query_cache_records q s :
  reserve_reset s -> records s (set_query_cache q s) [].
Proof. intros H. unfold records, pending. simpl. rewrite app_nil_r. auto. Qed.

Lemma EndRenderPass_records s :
  reserve_reset s -> records s (EndRenderPass s) (EndRenderPass_commands s).
Proof.
  intros H. unfold EndRenderPass, EndRenderPass_commands.
  destruct (renderpass (state s) =? nullptr).
  - now apply records_refl.
  - pose proof (Record_records (EndRenderPassCmd (num_renderpass_images s)
                  (renderpass_images s) (renderpass_image_ranges s)) s H) as R.
    destruct R as (P & W & G & M & R).
    unfold records, pending in *. simpl. repeat split; auto.
Qed.

Lemma EndRenderPass_commands_plain s :
  closures_of (EndRenderPass_commands s) = [] /\
  submit_ticks (EndRenderPass_commands s) = [] /\
  count_begin (EndRenderPass_commands s) = O.
Proof.
  unfold EndRenderPass_commands.
  destruct (renderpass (state s) =? nullptr); simpl; auto.
Qed.

(** The commands [RequestRenderpass] records. *)
Lemma RequestRenderpass_records fb s :
  reserve_reset s ->
  records s (RequestRenderpass fb s)
    (if renderpass_matches fb s then []
     else EndRenderPass_commands s ++
          [BeginRenderPassCmd (RenderPass fb) (Handle fb) (RenderArea fb)]).
Proof.
  intros H. unfold RequestRenderpass.
  destruct (renderpass_matches fb s).
  - now apply records_refl.
  - pose proof (EndRenderPass_records s H) as E.
    assert (R1 : reserve_reset (EndRenderPass s)) by apply E.
    eapply records_trans; [exact E|].
    set (s2 := set_state _ (EndRenderPass s)).
    assert (R2 : reserve_reset s2) by exact R1.
    pose proof (Record_records
                  (BeginRenderPassCmd (RenderPass fb) (Handle fb) (RenderArea fb))
                  s2 R2) as (P & W & G & M & R).
    unfold records, pending in *. simpl. repeat split; auto.
Qed.

Lemma RequestRenderpass_state fb s :
  reserve_reset s ->
  renderpass_matches fb (RequestRenderpass fb s) = true.
Proof.
  intros H. unfold RequestRenderpass.
  destruct (renderpass_matches fb s) eqn:E; auto.
  unfold renderpass_matches. simpl.
  rewrite Record_state by (apply EndRenderPass_records; exact H).
  simpl. now rewrite !Z.eqb_refl.
Qed.

Lemma program_order_records s s' new :
  records s s' new -> program_order s' = program_order s ++ new.
Proof.
  intros (P & W & _). unfold program_order. now rewrite P, W, app_assoc.
Qed.

Lemma count_begin_app a b : count_begin (a ++ b) = (count_begin a + count_begin b)%nat.
Proof.
  induction a as [|c a IH]; simpl; auto. destruct c; simpl; auto.
Qed.

Lemma closures_of_app a b : closures_of (a ++ b) = closures_of a ++ closures_of b.
Proof.
  induction a as [|c a IH]; simpl; auto. destruct c; simpl; auto.
  now rewrite IH.
Qed.

Lemma submit_ticks_app a b : submit_ticks (a ++ b) = submit_ticks a ++ submit_ticks b.
Proof.
  induction a as [|c a IH]; simpl; auto. destruct c; simpl; auto.
  now rewrite IH.
Qed.

(** C7, as amended.  Two calls of [RequestRenderpass] in a row with the
    same framebuffer record at most one begin-render-pass command: exactly
    one when the cached render pass, framebuffer and area did not match the
    request before the first call, none when they already did; the second
    call finds the cached state matching and leaves the scheduler as it
    is. *)
Theorem RequestRenderpass_twice (fb : Framebuffer) (s : Scheduler.t) :
  reserve_reset s ->
  let s1 := RequestRenderpass fb s in
  let s2 := RequestRenderpass fb s1 in
  s2 = s1 /\
  exists new,
    program_order s2 = program_order s ++ new /\
    count_begin new = if renderpass_matches fb s then O else 1%nat.
Proof.
  intros H s1 s2.
  assert (E : s2 = s1).
  { subst s2. unfold RequestRenderpass at 1. fold s1.
    unfold s1. now rewrite RequestRenderpass_state. }
  split; [exact E|]. rewrite E.
  pose proof (RequestRenderpass_records fb s H) as R.
  eexists. split; [apply program_order_records; exact R|].
  destruct (renderpass_matches fb s); simpl; auto.
  rewrite count_begin_app. simpl.
  destruct (EndRenderPass_commands_plain s) as (_ & _ & C). rewrite C. reflexivity.
Qed.

(** C6, as amended.  Of two calls of [UpdateGraphicsPipeline] with the same
    pipeline in a row, the first returns true exactly when the pipeline
    differs from the cached one and the second returns false. *)
Theorem UpdateGraphicsPipeline_twice (pipeline : Z) (s : Scheduler.t) :
  fst (UpdateGraphicsPipeline pipeline s)
    = negb (graphics_pipeline (state s) =? pipeline) /\
  fst (UpdateGraphicsPipeline pipeline (snd (UpdateGraphicsPipeline pipeline s)))
    = false.
Proof.
  unfold UpdateGraphicsPipeline.
  destruct (graphics_pipeline (state s) =? pipeline) eqn:E; simpl.
  - rewrite E. auto.
  - rewrite Z.eqb_refl. auto.
Qed.

(* ================================================================== *)
(** * Properties of the scheduler: submission *)
(* ================================================================== *)

Lemma NotifySegment_records flag s :
  reserve_reset s -> records s (NotifySegment flag s) [].
Proof.
  intros H. unfold NotifySegment. destruct (query_cache s).
  - now apply set_query_cache_records.
  - now apply records_refl.
Qed.

Lemma DispatchWork_chunk_empty s :
  reserve_reset s -> commands (chunk (DispatchWork s)) = [].
Proof.
  intros H. unfold DispatchWork. destruct (Empty (chunk s)) eqn:E.
  - unfold Empty in E. destruct (commands (chunk s)); [reflexivity|discriminate].
  - set (s1 := set_chunks _ _ _ s).
    assert (H1 : reserve_reset s1) by exact H.
    destruct (AcquireNewChunk_reset s1 H1) as (C & _). now rewrite C.
Qed.

(** What [SubmitExecution] does: it issues the next tick and records, after
    the end of a pending render pass, the submit command of that tick; the
    chunk it leaves is empty. *)
Lemma SubmitExecution_spec sg wt s :
  reserve_reset s ->
  let v := MasterSemaphore.current_tick (master_semaphore s) in
  let s' := snd (SubmitExecution sg wt s) in
  fst (SubmitExecution sg wt s) = v /\
  (exists new0, closures_of new0 = [] /\ submit_ticks new0 = [] /\
                pending s' = pending s ++ new0 ++ [SubmitCmd sg wt v]) /\
  commands (chunk s') = [] /\
  worker s' = worker s /\
  gpu s' = gpu s /\
  master_semaphore s' = snd (MasterSemaphore.NextTick (master_semaphore s)) /\
  reserve_reset s'.
Proof.
  intros H v s'. subst s'. unfold SubmitExecution.
  pose proof (NotifySegment_records false s H) as N.
  assert (R0 : reserve_reset (NotifySegment false s)) by apply N.
  pose proof (EndRenderPass_records _ R0) as E.
  pose proof (records_trans _ _ _ _ _ N E) as NE. simpl in NE.
  unfold EndPendingOperations.
  set (s1 := EndRenderPass (NotifySegment false s)) in *.
  assert (R1 : reserve_reset s1) by apply NE.
  pose proof (set_state_records
                {| renderpass := nullptr; framebuffer := nullptr;
                   render_area := render_area (state s1);
                   graphics_pipeline := nullptr;
                   is_rescaling := is_rescaling (state s1);
                   rescaling_defined := false |} s1 R1) as I.
  fold (InvalidateState s1) in I.
  pose proof (records_trans _ _ _ _ _ NE I) as NEI. rewrite app_nil_r in NEI.
  set (s2 := InvalidateState s1) in *.
  destruct NEI as (P2 & W2 & G2 & M2 & R2).
  unfold MasterSemaphore.NextTick. rewrite M2. fold v.
  set (ms := {| MasterSemaphore.current_tick := to_u64 (v + 1);
                MasterSemaphore.gpu_tick :=
                  MasterSemaphore.gpu_tick (master_semaphore s) |}).
  set (s3 := set_master_semaphore ms s2).
  assert (R3 : reserve_reset s3) by exact R2.
  pose proof (Record_records (SubmitCmd sg wt v) s3 R3) as (P4 & W4 & G4 & M4 & R4).
  set (s4 := Record_ (SubmitCmd sg wt v) s3) in *.
  set (s5 := set_chunks (MarkSubmit (chunk s4)) (work_queue s4) (chunk_reserve s4) s4).
  assert (R5 : reserve_reset s5) by exact R4.
  pose proof (DispatchWork_records s5 R5) as (P6 & W6 & G6 & M6 & R6).
  pose proof (DispatchWork_chunk_empty s5 R5) as C6.
  simpl. split; [reflexivity|].
  split.
  { exists (EndRenderPass_commands (NotifySegment false s)).
    destruct (EndRenderPass_commands_plain (NotifySegment false s)) as (A & B & _).
    split; [exact A|]. split; [exact B|].
    rewrite P6, app_nil_r.
    change (pending s5) with (pending s4). rewrite P4.
    change (pending s3) with (pending s2). rewrite P2.
    now rewrite app_assoc. }
  split; [exact C6|].
  split; [rewrite W6; change (worker s5) with (worker s4); rewrite W4;
          change (worker s3) with (worker s2); exact W2|].
  split; [rewrite G6; change (gpu s5) with (gpu s4); rewrite G4;
          change (gpu s3) with (gpu s2); exact G2|].
  split; [rewrite M6; change (master_semaphore s5) with (master_semaphore s4);
          rewrite M4; reflexivity|].
  exact R6.
Qed.

Lemma Flush_spec sg wt s :
  reserve_reset s ->
  let v := MasterSemaphore.current_tick (master_semaphore s) in
  let s' := snd (Flush sg wt s) in
  fst (Flush sg wt s) = v /\
  (exists new0, closures_of new0 = [] /\ submit_ticks new0 = [] /\
                pending s' = pending s ++ new0 ++ [SubmitCmd sg wt v]) /\
  worker s' = worker s /\
  gpu s' = gpu s /\
  master_semaphore s' = snd (MasterSemaphore.NextTick (master_semaphore s)) /\
  reserve_reset s'.
Proof.
  intros H v s'. subst s'. unfold Flush.
  pose proof (SubmitExecution_spec sg wt s H) as S.
  destruct (SubmitExecution sg wt s) as [tick s1]. simpl in *.
  destruct S as (T & (new0 & A & B & P) & C & W & G & M & R).
  pose proof (NotifySegment_records true s1 R) as (P' & W' & G' & M' & R').
  unfold AllocateNewContext.
  split; [exact T|].
  split; [exists new0; rewrite P', app_nil_r; auto|].
  repeat split; congruence.
Qed.

(* ================================================================== *)
(** * Properties of the scheduler: the worker thread and the GPU *)
(* ================================================================== *)

Lemma execute_commands_ok r cmds :
  forall w g w' g',
    execute_commands r cmds w g = (w', g', None) ->
    executed w' = executed w ++ cmds /\
    alive w' = alive w /\
    submitted g' = submitted g ++ submit_ticks cmds /\
    retired g' = retired g.
Proof.
  induction cmds as [|c cmds IH]; intros w g w' g' H; simpl in H.
  - inversion H; subst. rewrite !app_nil_r. auto.
  - destruct c;
      try (apply IH in H; simpl in H; destruct H as (E & A & S & R);
           rewrite E, <- app_assoc; simpl; auto).
    destruct (r =? VK_SUCCESS).
    + apply IH in H. simpl in H. destruct H as (E & A & S & R).
      rewrite E, S, <- !app_assoc. simpl. auto.
    + destruct (r =? VK_ERROR_DEVICE_LOST); discriminate.
Qed.

Lemma execute_commands_fail r cmds :
  forall w g w' g' e,
    execute_commands r cmds w g = (w', g', Some e) ->
    retired g' = retired g /\ submit_ticks cmds <> [].
Proof.
  induction cmds as [|c cmds IH]; intros w g w' g' e H; simpl in H.
  - discriminate.
  - destruct c; try (apply IH in H; simpl in H; exact H).
    simpl. split; [|discriminate].
    destruct (r =? VK_SUCCESS).
    + apply IH in H. simpl in H. apply H.
    + destruct (r =? VK_ERROR_DEVICE_LOST); inversion H; subst; reflexivity.
Qed.

Lemma execute_commands_success cmds :
  forall w g, exists w' g', execute_commands VK_SUCCESS cmds w g = (w', g', None).
Proof.
  induction cmds as [|c cmds IH]; intros w g; simpl.
  - eauto.
  - destruct c; apply IH.
Qed.

(** A turn of the worker: it stays blocked, or it executes the front chunk
    whole, or it dies on a submit command. *)
Lemma WorkerThread_turn_cases r s :
  let s' := WorkerThread_turn r s in
  (work_queue s = [] /\ s' = s) \/
  (exists work rest,
     work_queue s = work :: rest /\
     master_semaphore s' = master_semaphore s /\
     retired (gpu s') = retired (gpu s) /\
     chunk s' = chunk s /\
     work_queue s' = rest /\
     ((alive (worker s') = alive (worker s) /\
       executed (worker s') = executed (worker s) ++ commands work /\
       submitted (gpu s') = submitted (gpu s) ++ submit_ticks (commands work) /\
       chunk_reserve s' = chunk_reserve s ++ [new_chunk]) \/
      (alive (worker s') = false /\
       submit_ticks (commands work) <> [] /\
       r <> VK_SUCCESS /\
       chunk_reserve s' = chunk_reserve s))).
Proof.
  intros s'. subst s'. unfold WorkerThread_turn.
  destruct (work_queue s) as [|work rest] eqn:Q; [left; auto|].
  right. exists work, rest. split; [reflexivity|].
  unfold ExecuteAll.
  destruct (execute_commands r (commands work) (worker s) (gpu s))
    as [[w g] [e|]] eqn:X; simpl.
  - apply execute_commands_fail in X as F. destruct F as (R & T).
    repeat split; auto. right. repeat split; auto.
    intros ->.
    destruct (execute_commands_success (commands work) (worker s) (gpu s))
      as (w2 & g2 & Y). rewrite Y in X. discriminate.
  - apply execute_commands_ok in X. destruct X as (E & A & S & R).
    repeat split; auto. left.
    destruct (HasSubmit work); simpl; auto.
Qed.

(** An executed chunk leaves the program order and the ticks in flight as
    they were. *)
Lemma worker_executes_frame s s' work rest :
  work_queue s = work :: rest ->
  chunk s' = chunk s ->
  work_queue s' = rest ->
  executed (worker s') = executed (worker s) ++ commands work ->
  submitted (gpu s') = submitted (gpu s) ++ submit_ticks (commands work) ->
  program_order s' = program_order s /\
  in_flight s' = in_flight s /\
  pending s = commands work ++ pending s'.
Proof.
  intros Q C Q' E S. unfold in_flight, program_order, pending.
  rewrite Q, Q', C, E, S. simpl. rewrite !submit_ticks_app, <- !app_assoc.
  auto.
Qed.

(** The GPU retires nothing, or the oldest submission on the queue. *)
Lemma Gpu_retire_cases s :
  let s' := Gpu_retire s in
  (submitted (gpu s) = [] /\ s' = s) \/
  (exists v rest,
     submitted (gpu s) = v :: rest /\
     MasterSemaphore.gpu_tick (master_semaphore s') = v /\
     MasterSemaphore.current_tick (master_semaphore s')
       = MasterSemaphore.current_tick (master_semaphore s) /\
     submitted (gpu s') = rest /\
     retired (gpu s') = retired (gpu s) ++ [v] /\
     worker s' = worker s /\
     pending s' = pending s /\
     chunk_reserve s' = chunk_reserve s).
Proof.
  intros s'. subst s'. unfold Gpu_retire.
  destruct (submitted (gpu s)) as [|v rest] eqn:E; [left; auto|].
  right. exists v, rest. simpl. repeat split; auto.
Qed.

Lemma sorted_snoc (l : list Z) (v : Z) :
  StronglySorted Z.lt l -> Forall (fun a => a < v) l ->
  StronglySorted Z.lt (l ++ [v]).
Proof.
  induction 1 as [|a l S IH F]; intros B; simpl.
  - repeat constructor.
  - inversion B; subst. constructor; [now apply IH|].
    apply Forall_app. split; [exact F|]. repeat constructor. assumption.
Qed.

Lemma sorted_app (l1 l2 : list Z) :
  StronglySorted Z.lt l1 -> StronglySorted Z.lt l2 ->
  (forall a b, In a l1 -> In b l2 -> a < b) ->
  StronglySorted Z.lt (l1 ++ l2).
Proof.
  induction 1 as [|a l S IH F]; intros S2 B; simpl; [exact S2|].
  constructor.
  - apply IH; [exact S2|]. intros x y Hx Hy. apply B; [now right|exact Hy].
  - apply Forall_app. split; [exact F|].
    apply Forall_forall. intros y Hy. apply B; [now left|exact Hy].
Qed.

(** Below 2^64 the horizon is the next tick. *)
Lemma horizon_next s :
  0 < MasterSemaphore.current_tick (master_semaphore s) ->
  horizon s = MasterSemaphore.current_tick (master_semaphore s).
Proof.
  intros P. unfold horizon.
  destruct (Z.eqb_spec (MasterSemaphore.current_tick (master_semaphore s)) 0);
    [lia|reflexivity].
Qed.

Lemma horizon_below s :
  horizon s < u64_modulus ->
  horizon s = MasterSemaphore.current_tick (master_semaphore s).
Proof.
  unfold horizon.
  destruct (Z.eqb_spec (MasterSemaphore.current_tick (master_semaphore s)) 0);
    lia.
Qed.

Lemma horizon_same s s' :
  MasterSemaphore.current_tick (master_semaphore s')
  = MasterSemaphore.current_tick (master_semaphore s) ->
  horizon s' = horizon s.
Proof. intros E. unfold horizon. now rewrite E. Qed.

Lemma wf_horizon s :
  wf s -> horizon s = MasterSemaphore.current_tick (master_semaphore s).
Proof.
  intros (S & F & R & Z0 & C & RR). apply horizon_next.
  unfold timeline in F. apply Forall_cons_iff in F. lia.
Qed.

Lemma wf_inv s : wf s -> inv s.
Proof.
  intros W. pose proof (wf_horizon s W) as H.
  destruct W as (S & F & R & Z0 & C & RR). unfold inv. rewrite H.
  pose proof F as F'. unfold timeline in F'. apply Forall_cons_iff in F'.
  destruct F' as (G & _).
  repeat split; auto. lia.
Qed.

(* ================================================================== *)
(** * Properties of the scheduler: invariants of a run *)
(* ================================================================== *)

(** A producer call other than [Flush] only records, and records no
    submission. *)
Lemma call_records c s :
  reserve_reset s ->
  is_flush (Producer c) = false ->
  exists new,
    records s (fst (call c s)) new /\
    submit_ticks new = [] /\
    closures_of new = recorded [Producer c] /\
    snd (call c s) = [].
Proof.
  intros H F. destruct c; simpl in *; try discriminate.
  - exists [Closure stamp]. split; [now apply Record_records|auto].
  - eexists. split; [now apply RequestRenderpass_records|].
    destruct (EndRenderPass_commands_plain s) as (A & B & _).
    destruct (renderpass_matches fb s); simpl; auto.
    rewrite submit_ticks_app, closures_of_app, A, B. auto.
  - eexists. split; [now apply EndRenderPass_records|].
    destruct (EndRenderPass_commands_plain s) as (A & B & _). auto.
  - exists []. split; [|auto]. unfold UpdateGraphicsPipeline.
    destruct (graphics_pipeline (state s) =? pipeline); simpl.
    + now apply records_refl.
    + now apply set_state_records.
  - exists []. split; [|auto]. unfold UpdateRescaling.
    destruct (rescaling_defined (state s) &&
              Bool.eqb is_rescaling_ (is_rescaling (state s))); simpl.
    + now apply records_refl.
    + now apply set_state_records.
  - exists []. split; [now apply DispatchWork_records|auto].
Qed.

Lemma in_flight_records s s' new :
  records s s' new -> in_flight s' = in_flight s ++ submit_ticks new.
Proof.
  intros (P & _ & G & _). unfold in_flight.
  now rewrite P, G, submit_ticks_app, app_assoc.
Qed.

Lemma inv_records s s' new :
  alive (worker s) = true -> inv s -> records s s' new ->
  submit_ticks new = [] ->
  inv s' /\ (forall v, tracked s v -> tracked s' v) /\
  master_semaphore s' = master_semaphore s.
Proof.
  intros A (Z0 & GC & CU & RT & _ & AL) R T.
  pose proof (in_flight_records _ _ _ R) as I. rewrite T, app_nil_r in I.
  destruct R as (P & W & G & M & RR).
  destruct (AL A) as (SS & FT).
  assert (H : horizon s' = horizon s) by (apply horizon_same; now rewrite M).
  split; [|split; [|exact M]].
  - unfold inv, timeline in *. rewrite H, M, G, I. repeat split; auto.
  - intros v [Hr | [Hg Hi]]; unfold tracked; rewrite M, G, W, I; auto.
Qed.

Lemma to_u64_small z : 0 <= z < u64_modulus -> to_u64 z = z.
Proof. intros H. unfold to_u64. now apply Z.mod_small. Qed.

(** A [Flush] while a tick is left: it returns the next tick, which is the
    horizon, and moves the horizon by one; with the last tick, 2^64 - 1,
    the counter wraps to zero and the horizon is 2^64. *)
Lemma inv_flush sg wt s :
  alive (worker s) = true -> inv s ->
  horizon s + 1 <= u64_modulus ->
  let v := MasterSemaphore.current_tick (master_semaphore s) in
  let s' := snd (Flush sg wt s) in
  fst (Flush sg wt s) = v /\
  inv s' /\ (forall x, tracked s x -> tracked s' x) /\ tracked s' v /\
  horizon s = v /\ horizon s' = v + 1.
Proof.
  intros A (Z0 & GC & CU & RT & RR & AL) NW v s'.
  destruct (AL A) as (SS & FT).
  destruct (Flush_spec sg wt s RR) as (T & (new0 & C0 & T0 & P) & W & G & M & R).
  fold s' in P, W, G, M, R. fold v in T, P.
  assert (Hv : horizon s = v) by (apply horizon_below; lia).
  rewrite Hv in GC, CU, NW, FT.
  assert (I : in_flight s' = in_flight s ++ [v]).
  { unfold in_flight. rewrite P, G, !submit_ticks_app, T0. simpl.
    now rewrite app_assoc. }
  assert (Mc : MasterSemaphore.current_tick (master_semaphore s')
               = to_u64 (v + 1)).
  { rewrite M. reflexivity. }
  assert (Hc : horizon s' = v + 1).
  { unfold horizon. rewrite Mc. unfold to_u64.
    destruct (Z.eq_dec (v + 1) u64_modulus) as [E|E].
    - rewrite E, Z.mod_same by (unfold u64_modulus; lia). simpl. lia.
    - rewrite Z.mod_small by lia.
      destruct (Z.eqb_spec (v + 1) 0); lia. }
  assert (Mg : MasterSemaphore.gpu_tick (master_semaphore s')
               = MasterSemaphore.gpu_tick (master_semaphore s)).
  { rewrite M. reflexivity. }
  split; [exact T|].
  split; [|split; [|split; [|split; [exact Hv|exact Hc]]]].
  - unfold inv, timeline in *. rewrite Hc, Mg, G, I.
    split; [exact Z0|]. split; [lia|]. split; [lia|].
    split; [exact RT|]. split; [exact R|]. intros _. split.
    + change (StronglySorted Z.lt
                ((MasterSemaphore.gpu_tick (master_semaphore s) :: in_flight s)
                   ++ [v])).
      apply sorted_snoc; assumption.
    + change (Forall (fun x => x < v + 1)
                ((MasterSemaphore.gpu_tick (master_semaphore s) :: in_flight s)
                   ++ [v])).
      apply Forall_app. split.
      * eapply Forall_impl; [|exact FT]. simpl. intros x Hx. fold v in Hx. lia.
      * repeat constructor. lia.
  - intros x [Hr | [Hg Hi]]; unfold tracked; rewrite Mg, G, W, I.
    + now left.
    + right. split; [exact Hg|]. intros A'. apply in_or_app. left. now apply Hi.
  - unfold tracked. rewrite Mg, I. right. split; [exact GC|].
    intros _. apply in_or_app. right. now left.
Qed.

Lemma inv_worker r s :
  alive (worker s) = true -> inv s ->
  let s' := WorkerThread_turn r s in
  inv s' /\ (forall v, tracked s v -> tracked s' v) /\
  master_semaphore s' = master_semaphore s.
Proof.
  intros A I s'. subst s'.
  destruct (WorkerThread_turn_cases r s)
    as [[_ E] | (work & rest & Q & M & R & C & Q' & Cases)].
  - simpl in E. rewrite E. auto.
  - destruct I as (Z0 & GC & CU & RT & RR & AL). destruct (AL A) as (SS & FT).
    assert (H : horizon (WorkerThread_turn r s) = horizon s)
      by (apply horizon_same; now rewrite M).
    destruct Cases as [(A' & E & S & CR) | (A' & _ & _ & CR)].
    + destruct (worker_executes_frame _ _ _ _ Q C Q' E S) as (_ & F & _).
      split; [|split; [|exact M]].
      * unfold inv, timeline in *. rewrite H, M, R, F.
        split; [exact Z0|]. split; [exact GC|]. split; [exact CU|].
        split; [exact RT|]. split; [|intros _; now split].
        unfold reserve_reset in *. rewrite CR. apply Forall_app.
        split; [exact RR|]. repeat constructor.
      * intros v [Hr | [Hg Hi]]; unfold tracked; rewrite M, R, F; [now left|].
        right. split; [exact Hg|]. intros _. now apply Hi.
    + split; [|split; [|exact M]].
      * unfold inv. rewrite H, M, R.
        split; [exact Z0|]. split; [exact GC|]. split; [exact CU|].
        split; [exact RT|]. split; [unfold reserve_reset in *; now rewrite CR|].
        intros B. rewrite A' in B. discriminate.
      * intros v [Hr | [Hg Hi]]; unfold tracked; rewrite M, R; [now left|].
        right. split; [exact Hg|]. intros B. rewrite A' in B. discriminate.
Qed.

Lemma inv_gpu s :
  alive (worker s) = true -> inv s ->
  let s' := Gpu_retire s in
  inv s' /\ (forall v, tracked s v -> tracked s' v) /\
  MasterSemaphore.current_tick (master_semaphore s')
    = MasterSemaphore.current_tick (master_semaphore s).
Proof.
  intros A I s'. subst s'.
  destruct (Gpu_retire_cases s)
    as [[_ E] | (v & rest & S & Mg & Mc & S' & R & W & P & CR)].
  - simpl in E. rewrite E. auto.
  - destruct I as (Z0 & GC & CU & RT & RR & AL). destruct (AL A) as (SS & FT).
    unfold timeline, in_flight in SS, FT. rewrite S in SS, FT. simpl in SS, FT.
    apply StronglySorted_inv in SS. destruct SS as (SS & Lt).
    apply Forall_cons_iff in Lt. destruct Lt as (Lv & Lrest).
    apply Forall_cons_iff in FT. destruct FT as (_ & FT').
    assert (IF : in_flight (Gpu_retire s) = rest ++ submit_ticks (pending s)).
    { unfold in_flight. now rewrite S', P. }
    assert (H : horizon (Gpu_retire s) = horizon s) by now apply horizon_same.
    split; [|split; [|exact Mc]].
    + unfold inv, timeline. rewrite H, Mg, R, IF.
      split; [lia|]. split; [now apply Forall_cons_iff in FT'|].
      split; [exact CU|].
      split; [|split].
      * apply Forall_app. split; [|repeat constructor; lia].
        eapply Forall_impl; [|exact RT]. simpl. intros x Hx. lia.
      * unfold reserve_reset. now rewrite CR.
      * intros _. split; auto.
    + intros x [Hr | [Hg Hi]]; unfold tracked; rewrite Mg, R, W, IF.
      * left. apply in_or_app. now left.
      * specialize (Hi A). unfold in_flight in Hi. rewrite S in Hi.
        destruct Hi as [<- | Hi].
        -- left. apply in_or_app. right. now left.
        -- right. apply StronglySorted_inv in SS. destruct SS as (_ & Fv).
           rewrite Forall_forall in Fv. split; [now apply Fv|]. intros _. exact Hi.
Qed.

Lemma step_inv e s :
  inv s ->
  horizon s + (if is_flush e then 1 else 0) <= u64_modulus ->
  let s' := fst (step e s) in
  let ticks := snd (step e s) in
  inv s' /\
  (forall v, tracked s v -> tracked s' v) /\
  Forall (tracked s') ticks /\
  Forall (fun v => horizon s <= v < horizon s') ticks /\
  (length ticks <= 1)%nat /\
  horizon s <= horizon s' <= horizon s + (if is_flush e then 1 else 0).
Proof.
  intros I NW s' ticks. subst s' ticks. unfold step.
  destruct (alive (worker s)) eqn:A.
  2:{ simpl.
      split; [exact I|]. split; [auto|]. split; [constructor|].
      split; [constructor|]. split; [lia|]. destruct (is_flush e); lia. }
  destruct (is_flush e) eqn:F.
  - destruct e as [c| |]; try discriminate. destruct c; try discriminate.
    destruct (inv_flush signal_semaphore wait_semaphore s A I NW)
      as (T & I' & Tr & Tv & Hv & Hc).
    cbv beta iota delta [call].
    destruct (Flush signal_semaphore wait_semaphore s) as [tick s1].
    cbn [fst snd] in *. subst tick.
    split; [exact I'|]. split; [exact Tr|].
    split; [constructor; [exact Tv | constructor]|].
    split; [constructor; [lia | constructor]|].
    split; [simpl; lia|lia].
  - rewrite Z.add_0_r in *. destruct e as [c| r |].
    + assert (RR : reserve_reset s) by apply I.
      destruct (call_records c s RR F) as (new & R & T & _ & N).
      destruct (inv_records s _ new A I R T) as (I' & Tr & M).
      rewrite N. cbn [fst snd].
      rewrite (horizon_same s (fst (call c s))) by now rewrite M.
      split; [exact I'|]. split; [exact Tr|]. split; [constructor|].
      split; [constructor|]. split; [simpl; lia|lia].
    + destruct (inv_worker r s A I) as (I' & Tr & M).
      cbn [fst snd].
      rewrite (horizon_same s (WorkerThread_turn r s)) by now rewrite M.
      split; [exact I'|]. split; [exact Tr|]. split; [constructor|].
      split; [constructor|]. split; [simpl; lia|lia].
    + destruct (inv_gpu s A I) as (I' & Tr & M).
      cbn [fst snd].
      rewrite (horizon_same s (Gpu_retire s)) by exact M.
      split; [exact I'|]. split; [exact Tr|]. split; [constructor|].
      split; [constructor|]. split; [simpl; lia|lia].
Qed.

Lemma flushes_cons e evs :
  Z.of_nat (flushes (e :: evs))
    = (if is_flush e then 1 else 0) + Z.of_nat (flushes evs).
Proof.
  unfold flushes. simpl. destruct (is_flush e); simpl length; lia.
Qed.

Lemma run_cons e evs s :
  run (e :: evs) s
    = (fst (run evs (fst (step e s))),
       snd (step e s) ++ snd (run evs (fst (step e s)))).
Proof.
  simpl. destruct (step e s) as [s1 t1]. simpl.
  destruct (run evs s1) as [s2 t2]. reflexivity.
Qed.

(** The invariant of a run that asks for no tick beyond the last [u64]
    value: the ticks returned increase strictly and each of them is
    tracked. *)
Lemma run_inv evs :
  forall s,
    inv s ->
    horizon s + Z.of_nat (flushes evs) <= u64_modulus ->
    let s' := fst (run evs s) in
    let ticks := snd (run evs s) in
    inv s' /\
    (forall v, tracked s v -> tracked s' v) /\
    Forall (tracked s') ticks /\
    StronglySorted Z.lt ticks /\
    Forall (fun v => horizon s <= v < horizon s') ticks /\
    horizon s <= horizon s' <= horizon s + Z.of_nat (flushes evs).
Proof.
  induction evs as [|e evs IH]; intros s I NW s' ticks; subst s' ticks.
  - simpl.
    split; [exact I|]. split; [auto|]. split; [constructor|].
    split; [constructor|]. split; [constructor|]. lia.
  - rewrite run_cons. simpl fst. simpl snd. rewrite flushes_cons in *.
    assert (N0 : 0 <= Z.of_nat (flushes evs)) by lia.
    destruct (step_inv e s I) as (I1 & Tr1 & Tk1 & B1 & L1 & C1); [lia|].
    simpl in B1, C1.
    set (s1 := fst (step e s)) in *.
    destruct (IH s1 I1) as (I2 & Tr2 & Tk2 & S2 & B2 & C2); [lia|].
    simpl in B2, C2.
    set (s2 := fst (run evs s1)) in *.
    simpl.
    split; [exact I2|]. split; [auto|].
    split; [apply Forall_app; split; [|exact Tk2];
            eapply Forall_impl; [|exact Tk1]; auto|].
    split.
    { apply sorted_app; [| exact S2 |].
      - destruct (snd (step e s)) as [|a [|b l]]; simpl in L1;
          [constructor | repeat constructor | lia].
      - rewrite Forall_forall in B1, B2. intros a b Ha Hb.
        specialize (B1 a Ha). specialize (B2 b Hb). simpl in *. lia. }
    split; [|lia].
    apply Forall_app. split.
    + eapply Forall_impl; [|exact B1]. simpl. intros; lia.
    + eapply Forall_impl; [|exact B2]. simpl. intros; lia.
Qed.

(** [n] calls of [Flush] in a row move the horizon by [n], as long as the
    ticks last. *)
Lemma flush_many sg wt n :
  forall s,
    inv s -> alive (worker s) = true ->
    horizon s + Z.of_nat n <= u64_modulus ->
    let s' := fst (run (repeat (Producer (CallFlush sg wt)) n) s) in
    inv s' /\ alive (worker s') = true /\
    horizon s' = horizon s + Z.of_nat n /\
    MasterSemaphore.gpu_tick (master_semaphore s')
      = MasterSemaphore.gpu_tick (master_semaphore s).
Proof.
  induction n as [|n IH]; intros s I A NW s'; subst s'.
  - cbn [repeat run fst]. split; [exact I|]. split; [exact A|].
    split; [simpl; lia|reflexivity].
  - cbn [repeat]. rewrite run_cons. cbn [fst].
    assert (St : fst (step (Producer (CallFlush sg wt)) s) = snd (Flush sg wt s)).
    { unfold step. rewrite A. cbv beta iota delta [call].
      now destruct (Flush sg wt s). }
    rewrite St. clear St.
    destruct (inv_flush sg wt s A I) as (_ & I1 & _ & _ & H0 & C1); [lia|].
    destruct (Flush_spec sg wt s) as (_ & _ & W1 & _ & M1 & _); [apply I|].
    set (s1 := snd (Flush sg wt s)) in *.
    destruct (IH s1 I1) as (I2 & A2 & C2 & G2); [now rewrite W1 | lia |].
    split; [exact I2|]. split; [exact A2|]. split; [lia|].
    rewrite G2, M1. reflexivity.
Qed.



(* ================================================================== *)
(** * Properties of the scheduler: Finish *)
(* ================================================================== *)

Lemma run_dead evs s : alive (worker s) = false -> run evs s = (s, []).
Proof.
  intros D. induction evs as [|e evs IH]; [reflexivity|].
  rewrite run_cons. unfold step. rewrite D. simpl. now rewrite IH.
Qed.

Lemma run_app a b s :
  fst (run (a ++ b) s) = fst (run b (fst (run a s))).
Proof.
  revert s. induction a as [|e a IH]; intros s; [reflexivity|].
  simpl app. rewrite !run_cons. simpl fst. apply IH.
Qed.

Lemma no_flush_flushes evs :
  Forall (fun e => is_flush e = false) evs -> flushes evs = O.
Proof.
  unfold flushes. induction 1 as [|e evs F _ IH]; simpl; [reflexivity|].
  now rewrite F.
Qed.

Lemma run_inv_no_flush evs s :
  inv s -> Forall (fun e => is_flush e = false) evs -> inv (fst (run evs s)).
Proof.
  intros I F. apply run_inv; [exact I|].
  rewrite (no_flush_flushes evs F). simpl. destruct I as (_ & _ & C & _). lia.
Qed.

(** A step other than [Flush] adds to the program order the closure it
    records, if it records one. *)
Lemma step_order e s :
  inv s -> is_flush e = false ->
  alive (worker (fst (step e s))) = true ->
  closures_of (program_order (fst (step e s)))
    = closures_of (program_order s) ++ recorded [e].
Proof.
  intros I F. unfold step. destruct (alive (worker s)) eqn:A.
  2:{ cbn [fst]. intros B. rewrite A in B. discriminate. }
  assert (RR : reserve_reset s) by apply I.
  destruct e as [c | r |]; cbn [fst].
  - destruct (call_records c s RR F) as (new & R & _ & C & _).
    intros _. rewrite (program_order_records _ _ _ R), closures_of_app.
    now rewrite C.
  - intros B. simpl recorded. rewrite app_nil_r.
    destruct (WorkerThread_turn_cases r s)
      as [[_ E] | (work & rest & Q & M & R & C & Q' & Cases)].
    + simpl in E. now rewrite E.
    + destruct Cases as [(A' & E & S & CR) | (A' & _)].
      * destruct (worker_executes_frame _ _ _ _ Q C Q' E S) as (P & _).
        now rewrite P.
      * rewrite A' in B. discriminate.
  - intros _. simpl recorded. rewrite app_nil_r.
    destruct (Gpu_retire_cases s)
      as [[_ E] | (v & rest & S & Mg & Mc & S' & R & W & P & CR)].
    + simpl in E. now rewrite E.
    + unfold program_order. now rewrite W, P.
Qed.

Lemma recorded_cons e evs : recorded (e :: evs) = recorded [e] ++ recorded evs.
Proof. destruct e as [c| |]; try reflexivity. destruct c; reflexivity. Qed.

(** While the worker lives, the closures of the program order are those
    there at the start followed by those the schedule records. *)
Lemma run_order evs :
  forall s,
    inv s -> Forall (fun e => is_flush e = false) evs ->
    alive (worker (fst (run evs s))) = true ->
    closures_of (program_order (fst (run evs s)))
      = closures_of (program_order s) ++ recorded evs.
Proof.
  induction evs as [|e evs IH]; intros s I F B.
  - simpl. now rewrite app_nil_r.
  - apply Forall_cons_iff in F. destruct F as (Fe & F).
    rewrite run_cons in *. cbn [fst] in *.
    assert (I1 : inv (fst (step e s))).
    { pose proof (run_inv_no_flush [e] s I) as I1.
      rewrite run_cons in I1. cbn [fst run] in I1.
      apply I1. now repeat constructor. }
    assert (A1 : alive (worker (fst (step e s))) = true).
    { destruct (alive (worker (fst (step e s)))) eqn:A1; [reflexivity|].
      rewrite (run_dead evs _ A1) in B. cbn [fst] in B. congruence. }
    rewrite (IH _ I1 F B), (step_order e s I Fe A1), (recorded_cons e evs).
    now rewrite app_assoc.
Qed.

Lemma app_last_suffix {A : Type} (a b pre : list A) (x : A) :
  a ++ b = pre ++ [x] -> b <> [] -> exists pre', b = pre' ++ [x].
Proof.
  intros E N. destruct (exists_last N) as (b' & y & ->).
  rewrite app_assoc in E. apply app_inj_tail in E. destruct E as (_ & ->).
  now exists b'.
Qed.

Lemma in_flight_last s pre sg wt v :
  pending s = pre ++ [SubmitCmd sg wt v] -> In v (in_flight s).
Proof.
  intros P. unfold in_flight. rewrite P, submit_ticks_app. simpl.
  apply in_or_app. right. apply in_or_app. right. now left.
Qed.

Lemma timeline_above s v :
  StronglySorted Z.lt (timeline s) -> In v (in_flight s) ->
  MasterSemaphore.gpu_tick (master_semaphore s) < v.
Proof.
  unfold timeline. intros S Hi. apply StronglySorted_inv in S.
  destruct S as (_ & F). rewrite Forall_forall in F. now apply F.
Qed.

(** [SubmitExecution] puts the caller in the state of waiting for its
    tick. *)
Lemma waiting_start sg wt s :
  inv s -> horizon s < u64_modulus ->
  let v := fst (SubmitExecution sg wt s) in
  let s' := snd (SubmitExecution sg wt s) in
  waiting v (program_order s') s' /\
  closures_of (program_order s') = closures_of (program_order s) /\
  alive (worker s') = alive (worker s) /\
  commands (chunk s') = [].
Proof.
  intros (Z0 & GC & CU & RT & RR & AL) B v s'.
  rewrite (horizon_below s B) in GC, AL.
  destruct (SubmitExecution_spec sg wt s RR)
    as (T & (new0 & C0 & T0 & P) & C & W & G & M & R).
  fold s' in P, C, W, G, M, R. fold v in T. rewrite <- T in P.
  assert (Mg : MasterSemaphore.gpu_tick (master_semaphore s')
               = MasterSemaphore.gpu_tick (master_semaphore s)).
  { rewrite M. reflexivity. }
  split; [|split; [|split; [now rewrite W | exact C]]].
  - unfold waiting. rewrite W. destruct (alive (worker s)) eqn:A.
    + destruct (AL eq_refl) as (SS & FT).
      split; [reflexivity|]. split.
      * unfold timeline, in_flight in *. rewrite Mg, G, P, !submit_ticks_app, T0.
        simpl. rewrite app_assoc.
        change (StronglySorted Z.lt
                  ((MasterSemaphore.gpu_tick (master_semaphore s)
                      :: submitted (gpu s) ++ submit_ticks (pending s)) ++ [v])).
        apply sorted_snoc; [exact SS|]. now rewrite T.
      * right. exists (pending s ++ new0), sg, wt. now rewrite <- app_assoc.
    + rewrite Mg, T. exact GC.
  - unfold program_order. rewrite W, P, !closures_of_app, C0. simpl.
    now rewrite !app_nil_r.
Qed.

(** The worker and the GPU keep the caller of [Finish] waiting in good
    order. *)
Lemma step_waiting v order e s :
  is_env e = true -> waiting v order s -> waiting v order (fst (step e s)).
Proof.
  intros Env Wt. unfold step. destruct (alive (worker s)) eqn:A; [|exact Wt].
  unfold waiting in Wt. rewrite A in Wt. destruct Wt as (PO & SS & Last).
  destruct e as [c | r |]; [discriminate | |]; cbn [fst].
  - destruct (WorkerThread_turn_cases r s)
      as [[_ E] | (work & rest & Q & M & R & C & Q' & Cases)].
    + simpl in E. rewrite E. unfold waiting. rewrite A. auto.
    + unfold waiting. destruct Cases as [(A' & E & S & CR) | (A' & T & _)].
      * destruct (worker_executes_frame _ _ _ _ Q C Q' E S) as (P & F & Pd).
        rewrite A', A, P. split; [exact PO|]. split.
        -- unfold timeline in *. now rewrite M, F.
        -- destruct (pending (WorkerThread_turn r s)) as [|c l] eqn:Pe;
             [now left|right].
           destruct Last as [Nil | (pre & sg & wt & L)].
           ++ rewrite Nil in Pd. destruct (commands work); discriminate.
           ++ rewrite L in Pd. symmetry in Pd.
              apply app_last_suffix in Pd; [|discriminate].
              destruct Pd as (pre' & Pd). now exists pre', sg, wt.
      * rewrite A', M.
        destruct Last as [Nil | (pre & sg & wt & L)].
        -- exfalso. apply T. unfold pending in Nil. rewrite Q in Nil.
           simpl in Nil. apply app_eq_nil in Nil. destruct Nil as (Nil & _).
           apply app_eq_nil in Nil. destruct Nil as (Nil & _). now rewrite Nil.
        -- apply timeline_above; [exact SS|]. eapply in_flight_last; exact L.
  - destruct (Gpu_retire_cases s)
      as [[_ E] | (v0 & rest & S & Mg & Mc & S' & R & W & P & CR)].
    + simpl in E. rewrite E. unfold waiting. rewrite A. auto.
    + unfold waiting. rewrite W, A. split; [|split].
      * unfold program_order in *. now rewrite W, P.
      * unfold timeline, in_flight in *. rewrite Mg, S', P. rewrite S in SS.
        simpl in SS. now apply StronglySorted_inv in SS.
      * now rewrite P.
Qed.

Lemma run_waiting v order evs :
  forall s,
    Forall (fun e => is_env e = true) evs ->
    waiting v order s -> waiting v order (fst (run evs s)).
Proof.
  induction evs as [|e evs IH]; intros s F Wt; [exact Wt|].
  apply Forall_cons_iff in F. destruct F as (Fe & F).
  rewrite run_cons. cbn [fst]. apply IH; [exact F|].
  now apply step_waiting.
Qed.

(** When the wait is over everything recorded has been executed. *)
Lemma waiting_done v order s :
  waiting v order s -> IsTickCompleted s v = true ->
  executed (worker s) = order.
Proof.
  unfold waiting, IsTickCompleted, MasterSemaphore.IsSignaled.
  rewrite Z.leb_le. intros Wt L.
  destruct (alive (worker s)); [|lia].
  destruct Wt as (PO & SS & [Nil | (pre & sg & wt & Last)]).
  - unfold program_order in PO. now rewrite Nil, app_nil_r in PO.
  - pose proof (timeline_above s v SS (in_flight_last _ _ _ _ _ Last)). lia.
Qed.

Lemma filter_is_env evs : Forall (fun e => is_env e = true) (filter is_env evs).
Proof.
  apply Forall_forall. intros e He. now apply filter_In in He.
Qed.

Lemma waiting_done_alive v order s :
  waiting v order s -> IsTickCompleted s v = true -> alive (worker s) = true.
Proof.
  unfold waiting, IsTickCompleted, MasterSemaphore.IsSignaled.
  rewrite Z.leb_le. intros Wt L.
  destruct (alive (worker s)); [reflexivity|lia].
Qed.

Lemma NotifySegment_worker flag s : worker (NotifySegment flag s) = worker s.
Proof. unfold NotifySegment. now destruct (query_cache s). Qed.

Lemma filter_all {A : Type} (f : A -> bool) (l : list A) :
  Forall (fun x => f x = true) l -> filter f l = l.
Proof.
  induction 1 as [|x l Hx _ IH]; simpl; [reflexivity|]. now rewrite Hx, IH.
Qed.

Lemma last_cons_default {A : Type} (l : list A) (x d : A) :
  last (x :: l) d = last l x.
Proof.
  revert x d. induction l as [|y l IH]; intros x d; [reflexivity|].
  transitivity (last (y :: l) d); [reflexivity|].
  now rewrite (IH y d), (IH y x).
Qed.

(** Enough successful turns of the worker empty the work queue and put
    every recorded submission on the GPU queue. *)
Lemma worker_drain q :
  forall s,
    work_queue s = q -> alive (worker s) = true ->
    let s' := fst (run (repeat (WorkerTurn VK_SUCCESS) (length q)) s) in
    alive (worker s') = true /\
    work_queue s' = [] /\
    chunk s' = chunk s /\
    submitted (gpu s')
      = submitted (gpu s) ++ submit_ticks (concat (map commands q)) /\
    master_semaphore s' = master_semaphore s.
Proof.
  induction q as [|work rest IH]; intros s Q A s'; subst s'.
  - simpl. rewrite app_nil_r. auto.
  - simpl repeat. rewrite run_cons. cbn [fst].
    assert (St : fst (step (WorkerTurn VK_SUCCESS) s)
                 = WorkerThread_turn VK_SUCCESS s)
      by (unfold step; now rewrite A).
    rewrite St. clear St.
    destruct (WorkerThread_turn_cases VK_SUCCESS s)
      as [[E _] | (work' & rest' & Q' & M & R & C & Q1 & Cases)];
      [congruence|].
    rewrite Q in Q'. injection Q' as Ew Er.
    rewrite <- Er in Q1. rewrite <- Ew in Cases.
    destruct Cases as [(A' & E & S & CR) | (_ & _ & N & _)];
      [|now contradiction N].
    rewrite A in A'.
    destruct (IH _ Q1 A') as (A2 & Q2 & C2 & S2 & M2).
    split; [exact A2|]. split; [exact Q2|]. split; [congruence|].
    split; [|congruence].
    rewrite S2, S. simpl. now rewrite submit_ticks_app, app_assoc.
Qed.

(** Enough steps of the GPU retire every submission on its queue. *)
Lemma gpu_drain l :
  forall s,
    submitted (gpu s) = l -> alive (worker s) = true ->
    MasterSemaphore.gpu_tick
      (master_semaphore (fst (run (repeat GpuRetires (length l)) s)))
    = last l (MasterSemaphore.gpu_tick (master_semaphore s)).
Proof.
  induction l as [|v rest IH]; intros s S A; [reflexivity|].
  simpl repeat. rewrite run_cons. cbn [fst].
  assert (St : fst (step GpuRetires s) = Gpu_retire s)
    by (unfold step; now rewrite A).
  rewrite St. clear St.
  destruct (Gpu_retire_cases s)
    as [[E _] | (v' & rest' & S1 & Mg & Mc & S' & R & W & P & CR)];
    [congruence|].
  rewrite S in S1. injection S1 as Ev Er.
  rewrite <- Er in S'. rewrite <- Ev in Mg.
  rewrite (IH _ S'), Mg; [|now rewrite W].
  symmetry. apply last_cons_default.
Qed.

Lemma repeat_env e n :
  is_env e = true -> Forall (fun x => is_env x = true) (repeat e n).
Proof.
  intros H. apply Forall_forall. intros x Hx.
  apply repeat_spec in Hx. now subst x.
Qed.

(** C2.  Whatever the producer records and however the worker and the GPU
    are scheduled meanwhile, when [Finish] returns the worker has executed
    every client closure recorded so far, each one once and in the order of
    recording: those in program order at the start followed by the M
    closures of the schedule, and M closures exactly on a scheduler that had
    recorded none.  And [Finish] does return: from a scheduler whose worker
    is running there are turns of the worker and of the GPU after which the
    wait is over. *)
Theorem Finish_executes_recorded (evs : list Event) (sg wt : Z)
    (s : Scheduler.t) :
  wf s ->
  Forall (fun e => is_flush e = false) evs ->
  let s1 := fst (run evs s) in
  (forall during_wait s',
      Finish sg wt during_wait s1 = Some s' ->
      closures_of (executed (worker s'))
        = closures_of (program_order s) ++ recorded evs) /\
  (alive (worker s1) = true ->
   exists during_wait s', Finish sg wt during_wait s1 = Some s').
Proof.
  intros W F s1.
  assert (I1 : inv s1) by (apply run_inv_no_flush; [now apply wf_inv|exact F]).
  assert (B1 : horizon s1 < u64_modulus).
  { pose proof (wf_horizon s W) as H. pose proof W as (_ & _ & _ & _ & C & _).
    assert (NW : horizon s + Z.of_nat (flushes evs) <= u64_modulus)
      by (rewrite (no_flush_flushes evs F); simpl; lia).
    destruct (run_inv evs s (wf_inv s W) NW) as (_ & _ & _ & _ & _ & L).
    fold s1 in L. rewrite (no_flush_flushes evs F) in L. simpl in L. lia. }
  pose proof (waiting_start sg wt s1 I1 B1) as (Wt & Cl & Al & Ch).
  pose proof (SubmitExecution_spec sg wt s1 (proj1 (proj2 (proj2 (proj2 (proj2 I1))))))
    as (T & (new0 & C0 & T0 & P) & _ & _ & G & M & _).
  split.
  - intros during_wait s'. unfold Finish.
    destruct (SubmitExecution sg wt s1) as [v s2]. cbn [fst snd] in *.
    pose proof (run_waiting v (program_order s2) _ s2
                  (filter_is_env during_wait) Wt) as Wt3.
    set (s3 := fst (run (filter is_env during_wait) s2)) in *.
    destruct (IsTickCompleted s3 v) eqn:Done; [|discriminate].
    intros E. inversion E; subst s'. clear E.
    unfold AllocateNewContext. rewrite NotifySegment_worker.
    rewrite (waiting_done _ _ _ Wt3 Done), Cl.
    apply run_order; [now apply wf_inv | exact F |].
    fold s1. rewrite <- Al.
    destruct (alive (worker s2)) eqn:A2; [reflexivity|].
    pose proof (waiting_done_alive _ _ _ Wt3 Done) as A3.
    subst s3. rewrite (run_dead _ _ A2) in A3. cbn [fst] in A3. congruence.
  - intros A1. unfold Finish.
    destruct (SubmitExecution sg wt s1) as [v s2]. cbn [fst snd] in *.
    rewrite <- Al in A1.
    set (turns := repeat (WorkerTurn VK_SUCCESS) (length (work_queue s2))).
    destruct (worker_drain (work_queue s2) s2 eq_refl A1)
      as (A3 & Q3 & C3 & S3 & M3).
    fold turns in A3, Q3, C3, S3, M3.
    set (s3 := fst (run turns s2)) in *.
    set (retires := repeat GpuRetires (length (submitted (gpu s3)))).
    pose proof (gpu_drain (submitted (gpu s3)) s3 eq_refl A3) as Gd.
    fold retires in Gd.
    exists (turns ++ retires). eexists.
    rewrite filter_all.
    2:{ apply Forall_app. split; now apply repeat_env. }
    rewrite run_app. fold s3.
    assert (Done : IsTickCompleted (fst (run retires s3)) v = true).
    { unfold IsTickCompleted, MasterSemaphore.IsSignaled. rewrite Gd, S3.
      assert (E : concat (map commands (work_queue s2)) = pending s2).
      { unfold pending. now rewrite Ch, app_nil_r. }
      rewrite E, P, !submit_ticks_app, T0, T. simpl.
      rewrite !app_assoc, last_last. apply Z.leb_refl. }
    rewrite Done. reflexivity.
Qed.

(* ================================================================== *)
(** * The scheduler on concrete runs *)
(* ================================================================== *)

Lemma wf_fresh : wf fresh.
Proof.
  unfold wf, fresh, reserve_reset, u64_modulus. simpl.
  repeat split; try (repeat constructor; fail); lia.
Qed.

Lemma fresh_flushes n :
  1 + Z.of_nat n < u64_modulus ->
  master_semaphore (fst (run (repeat (Producer (CallFlush 0 0)) n) fresh))
  = {| MasterSemaphore.current_tick := 1 + Z.of_nat n;
       MasterSemaphore.gpu_tick := 0 |}.
Proof.
  intros NW.
  destruct (flush_many 0 0 n fresh (wf_inv fresh wf_fresh) eq_refl)
    as (_ & _ & C & G); [change (horizon fresh) with 1; lia|].
  change (horizon fresh) with 1 in C.
  rewrite horizon_below in C by (rewrite C; lia).
  destruct (master_semaphore _) as [c g].
  cbn [MasterSemaphore.current_tick MasterSemaphore.gpu_tick] in C, G.
  now rewrite C, G.
Qed.

Lemma inv_alive_wf s :
  inv s -> horizon s < u64_modulus -> alive (worker s) = true -> wf s.
Proof.
  intros (Z0 & GC & CU & RT & RR & AL) B A. destruct (AL A) as (SS & FT).
  pose proof (horizon_below s B) as H. rewrite H in *.
  unfold wf. auto 10.
Qed.

(** Well-formedness is no restriction on the schedulers met in practice:
    whatever the schedule, the scheduler reached from a fresh one is well
    formed while its worker lives and the tick counter has not wrapped. *)
Lemma wf_reachable evs :
  1 + Z.of_nat (flushes evs) < u64_modulus ->
  alive (worker (fst (run evs fresh))) = true ->
  wf (fst (run evs fresh)).
Proof.
  intros NW A.
  destruct (run_inv evs fresh (wf_inv fresh wf_fresh)) as (I & _ & _ & _ & _ & L);
    [change (horizon fresh) with 1; lia|].
  change (horizon fresh) with 1 in L.
  apply inv_alive_wf; [exact I | lia | exact A].
Qed.

Example three_flushes_ticks : snd (run three_flushes fresh) = [1; 2; 3].
Proof. reflexivity. Qed.

Example three_flushes_retired :
  retired (gpu (fst (run three_flushes fresh))) = [1] /\
  map (IsTickCompleted (fst (run three_flushes fresh))) [1; 2; 3]
    = [true; false; false].
Proof. split; reflexivity. Qed.

Example recording_then_Finish :
  option_map (fun s => closures_of (executed (worker s)))
    (Finish 0 0 [WorkerTurn VK_SUCCESS; WorkerTurn VK_SUCCESS; GpuRetires]
       (fst (run recording fresh)))
  = Some [1; 2; 3]%nat.
Proof. reflexivity. Qed.

Example recording_Finish_blocked :
  Finish 0 0 [WorkerTurn VK_SUCCESS; WorkerTurn VK_SUCCESS]
    (fst (run recording fresh)) = None.
Proof. reflexivity. Qed.

(** The worker dies on a lost device; the wait of [Finish] never ends. *)
Example recording_Finish_device_lost :
  Finish 0 0 [WorkerTurn VK_SUCCESS; WorkerTurn VK_ERROR_DEVICE_LOST;
              GpuRetires; GpuRetires]
    (fst (run recording fresh)) = None.
Proof. reflexivity. Qed.


(** The last tick a counter of 64 bits gives: on a scheduler whose next
    tick is 2^64 - 1, a [Flush] returns it, and the tick is completed once
    the worker has submitted and the GPU retired the submission. *)
Example Flush_last_tick :
  snd (run last_flush exhausted) = [18446744073709551615] /\
  MasterSemaphore.current_tick (master_semaphore exhausted)
    + Z.of_nat (flushes last_flush) = u64_modulus /\
  IsTickCompleted (fst (run last_flush exhausted)) 18446744073709551615 = true /\
  retired (gpu (fst (run last_flush exhausted))) = [18446744073709551615].
Proof. repeat split. Qed.

(** Past that tick the counter, as modelled, starts again: on the same
    scheduler two calls of [Flush] return 2^64 - 1 and then 0, which is why
    the theorem asks for a counter that has the ticks to give.  The counter
    of a fresh scheduler gets there by 2^64 - 2 calls of [Flush]. *)
Lemma Flush_ticks_wrap :
  wf exhausted /\
  snd (run [Producer (CallFlush 0 0); Producer (CallFlush 0 0)] exhausted)
    = [18446744073709551615; 0] /\
  ~ StronglySorted Z.lt
      (snd (run [Producer (CallFlush 0 0); Producer (CallFlush 0 0)] exhausted)) /\
  master_semaphore
    (fst (run (repeat (Producer (CallFlush 0 0)) (Z.to_nat (u64_modulus - 2)))
              fresh))
  = master_semaphore exhausted.
Proof.
  split; [|split; [|split]].
  - unfold wf, exhausted, fresh, reserve_reset, u64_modulus. simpl.
    repeat split; try (repeat constructor; fail); lia.
  - reflexivity.
  - intros S.
    change (StronglySorted Z.lt [18446744073709551615; 0]) in S.
    apply StronglySorted_inv in S. destruct S as (_ & F).
    apply Forall_cons_iff in F. destruct F as (F & _). lia.
  - assert (P : 0 <= u64_modulus - 2) by (unfold u64_modulus; lia).
    rewrite fresh_flushes by (rewrite Z2Nat.id by exact P; lia).
    rewrite Z2Nat.id by exact P.
    unfold exhausted. cbn [master_semaphore set_master_semaphore].
    f_equal; lia.
Qed.

Lemma Finish_executes_recorded_witness :
  wf fresh /\
  Forall (fun e => is_flush e = false) recording /\
  (forall during_wait s',
      Finish 0 0 during_wait (fst (run recording fresh)) = Some s' ->
      closures_of (executed (worker s')) = [1; 2; 3]%nat) /\
  (alive (worker (fst (run recording fresh))) = true ->
   exists during_wait s',
     Finish 0 0 during_wait (fst (run recording fresh)) = Some s').
Proof.
  assert (W : wf fresh) by exact wf_fresh.
  assert (F : Forall (fun e => is_flush e = false) recording)
    by (repeat constructor).
  split; [exact W|]. split; [exact F|].
  exact (Finish_executes_recorded recording 0 0 fresh W F).
Defined.

Lemma RequestRenderpass_twice_witness :
  reserve_reset fresh /\
  RequestRenderpass sample_framebuffer
    (RequestRenderpass sample_framebuffer fresh)
  = RequestRenderpass sample_framebuffer fresh /\
  exists new,
    program_order (RequestRenderpass sample_framebuffer
                     (RequestRenderpass sample_framebuffer fresh))
    = program_order fresh ++ new /\
    count_begin new = 1%nat.
Proof.
  assert (R : reserve_reset fresh) by constructor.
  split; [exact R|].
  exact (RequestRenderpass_twice sample_framebuffer fresh R).
Defined.

(** C7 as stated fails inside the render pass asked for: the cached state
    matches before the first call already and neither call records a begin
    command. *)
Lemma RequestRenderpass_already_bound :
  renderpass_matches sample_framebuffer in_renderpass = true /\
  program_order (RequestRenderpass sample_framebuffer
                   (RequestRenderpass sample_framebuffer in_renderpass))
  = program_order in_renderpass /\
  count_begin (program_order in_renderpass) = 1%nat /\
  count_begin (program_order
                 (RequestRenderpass sample_framebuffer
                    (RequestRenderpass sample_framebuffer in_renderpass)))
  = 1%nat.
Proof. repeat split. Qed.

(** C6 as stated fails for a pipeline that is bound already, and for the
    null pipeline on a fresh scheduler: the first call returns false. *)
Lemma UpdateGraphicsPipeline_already_bound :
  fst (UpdateGraphicsPipeline 7 bound) = false /\
  fst (UpdateGraphicsPipeline 7 (snd (UpdateGraphicsPipeline 7 bound))) = false /\
  fst (UpdateGraphicsPipeline nullptr fresh) = false.
Proof. repeat split. Qed.

(* ================================================================== *)
(** * Properties of the fences *)
(* ================================================================== *)

Lemma Queue_is_stubbed Q f s :
  Fence.is_stubbed (fst (Fence.Queue Q f s)) = Fence.is_stubbed f.
Proof.
  unfold Fence.Queue.
  destruct (Fence.IsStubbed f); [destruct (Q true s) | destruct (Q false s)];
    reflexivity.
Qed.

Lemma queue_times_is_stubbed Q n :
  forall f s,
    Fence.is_stubbed (fst (Fence.queue_times Q n f s)) = Fence.is_stubbed f.
Proof.
  induction n as [|n IH]; intros f s; simpl; [reflexivity|].
  pose proof (Queue_is_stubbed Q f s) as E.
  destruct (Fence.Queue Q f s) as [f' s']. simpl in E.
  now rewrite IH.
Qed.

(** C4.  A fence constructed stubbed reports itself signaled whatever the
    scheduler, before [Queue] and after any number of calls of [Queue]
    (whatever tick [QueueGpuFence] hands back), and its [Wait] returns at
    once without a tick wait on the scheduler. *)
Theorem stubbed_fence_signaled
    (QueueGpuFence : bool -> Scheduler.t -> Z * Scheduler.t)
    (n : nat) (s0 s : Scheduler.t) :
  let f := fst (Fence.queue_times QueueGpuFence n (Fence.create true) s0) in
  Fence.IsSignaled f s = true /\ Fence.Wait f = Fence.ReturnsAtOnce.
Proof.
  intros f.
  assert (E : Fence.is_stubbed f = true)
    by (subst f; now rewrite queue_times_is_stubbed).
  unfold Fence.IsSignaled, Fence.Wait, Fence.IsStubbed. now rewrite E.
Qed.

(** C5, as amended.  [Wait] on a fence that is not stubbed and was never
    queued ([wait_tick] still zero) returns at once: it performs no wait on
    the scheduler and raises no assertion. *)
Theorem Wait_never_queued (f : Fence.InnerFence) :
  Fence.is_stubbed f = false ->
  Fence.wait_tick f = 0 ->
  Fence.Wait f = Fence.ReturnsAtOnce.
Proof.
  intros S T. unfold Fence.Wait, Fence.IsStubbed. now rewrite S, T.
Qed.

Lemma Wait_never_queued_witness :
  Fence.is_stubbed (Fence.create false) = false /\
  Fence.wait_tick (Fence.create false) = 0 /\
  Fence.Wait (Fence.create false) = Fence.ReturnsAtOnce.
Proof.
  split; [reflexivity|]. split; [reflexivity|].
  exact (Wait_never_queued (Fence.create false) eq_refl eq_refl).
Defined.

(** C5 as stated fails: the wait on a fence created unstubbed and never
    queued is no assertion failure, the call returns and nothing is
    reported. *)
Lemma Wait_never_queued_no_assertion :
  Fence.Wait (Fence.create false) <> Fence.AssertionFailure /\
  Fence.WaitFence (Fence.CreateFence false) = Fence.ReturnsAtOnce.
Proof. split; [discriminate|reflexivity]. Qed.

(** C10.  [IsFenceSignaled] answers true for a null fence and the fence's
    own [IsSignaled] for any other. *)
Theorem IsFenceSignaled_null (s : Scheduler.t) :
  Fence.IsFenceSignaled None s = true /\
  forall f, Fence.IsFenceSignaled (Some f) s = Fence.IsSignaled f s.
Proof. split; [reflexivity|]. intros f. reflexivity. Qed.

Example unstubbed_fence_follows_tick :
  let s := fst (run three_flushes fresh) in
  map (fun tick =>
         Fence.IsFenceSignaled
           (Some {| Fence.is_stubbed := false; Fence.wait_tick := tick |}) s)
      [0; 1; 2]
  = [false; true; false].
Proof. reflexivity. Qed.

(* ================================================================== *)
(** * Properties of the barrier batch of EndRenderPass *)
(* ================================================================== *)

Lemma array_store_length {A : Type} (arr arr' : list (option A)) i (b : A) :
  array_store arr i b = Some arr' -> length arr' = length arr.
Proof.
  unfold array_store.
  destruct ((0 <=? i) && (i <? Z.of_nat (length arr))) eqn:B; [|discriminate].
  apply andb_prop in B. destruct B as (L & H).
  apply Z.leb_le in L. apply Z.ltb_lt in H.
  intros [= <-].
  rewrite length_app, length_firstn. cbn [length]. rewrite length_skipn. lia.
Qed.

Lemma array_store_in_bounds {A : Type} (arr : list (option A)) i (b : A) :
  0 <= i < Z.of_nat (length arr) -> exists arr', array_store arr i b = Some arr'.
Proof.
  intros (L & H). unfold array_store.
  apply Z.leb_le in L. apply Z.ltb_lt in H. rewrite L, H. simpl. eauto.
Qed.

Lemma fill_barriers_in_bounds images ranges indices :
  forall arr stored,
    Forall (fun i => 0 <= i < Z.of_nat (length arr)) indices ->
    exists arr',
      fill_barriers indices images ranges arr stored
        = Some (arr', stored ++ indices) /\
      length arr' = length arr.
Proof.
  induction indices as [|i rest IH]; intros arr stored F; simpl.
  - exists arr. now rewrite app_nil_r.
  - apply Forall_cons_iff in F. destruct F as (Hi & F).
    destruct (array_store_in_bounds arr i (make_barrier images ranges i) Hi)
      as (arr1 & E).
    rewrite E. pose proof (array_store_length _ _ _ _ E) as L.
    rewrite <- L in F.
    destruct (IH arr1 (stored ++ [i]) F) as (arr' & E' & L').
    exists arr'. rewrite E', <- app_assoc. simpl. split; [reflexivity|congruence].
Qed.

Lemma loop_indices_below count :
  Forall (fun i => 0 <= i < count) (loop_indices count).
Proof.
  unfold loop_indices. apply Forall_forall. intros i Hi.
  apply in_map_iff in Hi. destruct Hi as (n & <- & Hn).
  apply in_seq in Hn. lia.
Qed.

Lemma barrier_count_of_min num_images :
  barrier_count_of num_images = Z.min num_images MAX_BARRIERS.
Proof.
  unfold barrier_count_of. destruct (MAX_BARRIERS <? num_images) eqn:E.
  - apply Z.ltb_lt in E. lia.
  - apply Z.ltb_ge in E. lia.
Qed.

(** C8.  For every number of attachments the closure recorded by
    [EndRenderPass] runs to its barrier call with every store into the
    barrier array in bounds: the batch has [min(num_images, 9)] barriers, at
    most 9, the indices stored to are 0, 1, ... below that count, all below
    9, and the array keeps its 9 slots. *)
Theorem EndRenderPass_barriers_bounded (num_images : Z) (images : list Z)
    (ranges : list VkImageSubresourceRange) :
  exists batch,
    EndRenderPass_closure num_images images ranges = Some batch /\
    barrier_count batch = Z.min num_images 9 /\
    barrier_count batch <= 9 /\
    length (barriers batch) = 9%nat /\
    stored_indices batch = loop_indices (barrier_count batch) /\
    Forall (fun i => 0 <= i < 9) (stored_indices batch) /\
    (length (stored_indices batch) <= 9)%nat.
Proof.
  unfold EndRenderPass_closure.
  pose proof (barrier_count_of_min num_images) as M.
  unfold MAX_BARRIERS in M.
  set (count := barrier_count_of num_images) in *.
  assert (B : Forall (fun i => 0 <= i < Z.of_nat (length barrier_array))
                     (loop_indices count)).
  { eapply Forall_impl; [|apply loop_indices_below].
    simpl. intros i Hi. lia. }
  destruct (fill_barriers_in_bounds images ranges _ barrier_array [] B)
    as (arr & E & L).
  rewrite E. eexists. split; [reflexivity|]. simpl.
  split; [exact M|]. split; [lia|]. split; [exact L|].
  split; [reflexivity|]. split.
  - eapply Forall_impl; [|apply loop_indices_below]. simpl. intros i Hi. lia.
  - unfold loop_indices. rewrite length_map, length_seq. lia.
Qed.

Example EndRenderPass_barriers_clamped :
  option_map (fun b => (barrier_count b, stored_indices b, length (barriers b)))
    (EndRenderPass_closure 12 [] [])
  = Some (9, [0; 1; 2; 3; 4; 5; 6; 7; 8], 9%nat).
Proof. reflexivity. Qed.

Example EndRenderPass_records_images :
  pending (EndRenderPass in_renderpass)
  = [BeginRenderPassCmd 11 12 {| width := 1280; height := 720 |};
     EndRenderPassCmd 1 4096 8192].
Proof. reflexivity. Qed.

(* ================================================================== *)
(** * Properties of the memory allocator *)
(* ================================================================== *)

Section MemoryAllocatorProperties.

Import MemoryAllocator.

Lemma testbit_to_u32 x i : 0 <= i < 32 -> Z.testbit (to_u32 x) i = Z.testbit x i.
Proof.
  intros H. unfold to_u32, u32_modulus. apply Z.mod_pow2_bits_low. lia.
Qed.

Lemma testbit_type_bit i j :
  0 <= i < 32 -> 0 <= j ->
  Z.testbit (to_u32 (Z.shiftl 1 j)) i = (j =? i).
Proof.
  intros Hi Hj. rewrite testbit_to_u32 by exact Hi.
  rewrite Z.shiftl_1_l. now apply Z.pow2_bits_eqb.
Qed.

Lemma for_each_type_bits props i indices :
  0 <= i < 32 ->
  forall acc,
    Forall (fun j => 0 <= j) indices ->
    Z.testbit (for_each_type props disallow_small_heap indices acc) i
    = Z.testbit acc i
      || existsb (fun j => (j =? i) && small_heap_type props j) indices.
Proof.
  intros Hi. induction indices as [|j rest IH]; intros acc F; simpl.
  - now rewrite orb_false_r.
  - apply Forall_cons_iff in F. destruct F as (Hj & F).
    unfold small_heap_type at 1.
    destruct (is_device_local (memory_type props j) &&
              is_host_visible (memory_type props j)) eqn:E; simpl.
    + rewrite (IH _ F). unfold disallow_small_heap.
      destruct (size (memory_heap props (heapIndex (memory_type props j)))
                <=? MiB_256).
      * rewrite Z.lor_spec, testbit_type_bit by assumption.
        rewrite andb_true_r. now rewrite orb_assoc.
      * now rewrite andb_false_r.
    + rewrite (IH _ F). now rewrite andb_false_r.
Qed.

Lemma existsb_index (c : Z -> bool) i n :
  0 <= i ->
  existsb (fun j => (j =? i) && c j) (map Z.of_nat (seq 0 n))
  = (i <? Z.of_nat n) && c i.
Proof.
  intros Hi. induction n as [|n IH].
  - cbn [seq map existsb]. destruct (Z.ltb_spec i (Z.of_nat 0)); [lia|reflexivity].
  - rewrite seq_S, map_app, existsb_app, IH. cbn [map existsb Nat.add].
    rewrite orb_false_r.
    destruct (Z.eqb_spec (Z.of_nat n) i) as [E|E];
      destruct (Z.ltb_spec i (Z.of_nat n));
      destruct (Z.ltb_spec i (Z.of_nat (S n)));
      cbn [andb orb]; rewrite ?orb_false_r; try reflexivity; try lia.
    now rewrite E.
Qed.

(** The mask of the constructor: bit [i] is set exactly for the small
    device-local host-visible types when a debugging tool is attached. *)
Lemma disallowed_bits device i :
  0 <= i < 32 ->
  Z.testbit (disallowed_memory_types_for_stream (create device)) i
  = HasDebuggingToolAttached device && small_device_local_host_visible device i.
Proof.
  intros Hi. unfold create. simpl.
  destruct (HasDebuggingToolAttached device); simpl; [|apply Z.testbit_0_l].
  unfold ForEachDeviceLocalHostVisibleHeap.
  rewrite for_each_type_bits; [|exact Hi|].
  2:{ apply Forall_forall. intros j Hj. apply in_map_iff in Hj.
      destruct Hj as (n & <- & _). lia. }
  rewrite Z.testbit_0_l. simpl.
  rewrite existsb_index by lia.
  unfold small_device_local_host_visible, small_heap_type.
  replace (0 <=? i) with true by (symmetry; apply Z.leb_le; lia). simpl.
  replace (i <? Z.of_nat (Z.to_nat (memoryTypeCount (GetMemoryProperties device))))
    with (i <? memoryTypeCount (GetMemoryProperties device)).
  - now rewrite !andb_assoc.
  - destruct (i <? memoryTypeCount (GetMemoryProperties device)) eqn:L1;
      symmetry; [apply Z.ltb_lt in L1; apply Z.ltb_lt
                |apply Z.ltb_ge in L1; apply Z.ltb_ge]; lia.
Qed.

Lemma testbit_not_u32 x i :
  0 <= i < 32 -> Z.testbit (not_u32 x) i = negb (Z.testbit x i).
Proof.
  intros Hi. unfold not_u32. rewrite testbit_to_u32 by exact Hi.
  apply Z.lnot_spec. lia.
Qed.

(** The memory-type mask bit by bit.  For a buffer of usage Stream, bit [i]
    of the mask is cleared exactly for the memory types [i] within the
    count that are device-local and host-visible with a heap of at most
    256 MiB, and only when a debugging tool was attached at construction
    (with none attached no bit is cleared); the allocator library reads the
    mask bit by bit unless it is zero.  For every other usage the mask is
    zero, which the library reads as every memory type. *)
Theorem CreateBuffer_stream_mask (device : Device) (i : Z) :
  0 <= i < VK_MAX_MEMORY_TYPES ->
  let stream_mask := CreateBuffer_memoryTypeBits (create device) Stream in
  Z.testbit stream_mask i
    = negb (HasDebuggingToolAttached device &&
            small_device_local_host_visible device i) /\
  (stream_mask <> 0 ->
   type_accepted stream_mask i
     = negb (HasDebuggingToolAttached device &&
             small_device_local_host_visible device i)) /\
  forall usage,
    usage <> Stream ->
    CreateBuffer_memoryTypeBits (create device) usage = 0 /\
    forall j, type_accepted (CreateBuffer_memoryTypeBits (create device) usage) j
              = true.
Proof.
  intros Hi stream_mask. unfold VK_MAX_MEMORY_TYPES in Hi.
  assert (B : Z.testbit stream_mask i
              = negb (HasDebuggingToolAttached device &&
                      small_device_local_host_visible device i)).
  { subst stream_mask. unfold CreateBuffer_memoryTypeBits.
    cbn [MemoryUsage_eqb].
    rewrite testbit_not_u32 by exact Hi. now rewrite disallowed_bits. }
  split; [exact B|]. split.
  - intros N. unfold type_accepted.
    destruct (stream_mask =? 0) eqn:E; [apply Z.eqb_eq in E; contradiction|].
    exact B.
  - intros usage U. unfold CreateBuffer_memoryTypeBits.
    destruct usage; simpl; try (split; reflexivity). contradiction.
Qed.

Example sample_device_masks :
  CreateBuffer_memoryTypeBits (create sample_device) Stream = 4294967293 /\
  CreateBuffer_memoryTypeBits (create sample_device_plain) Stream = 4294967295 /\
  map (CreateBuffer_memoryTypeBits (create sample_device))
      [DeviceLocal; Upload; Download] = [0; 0; 0].
Proof. repeat split. Qed.

Lemma CreateBuffer_stream_mask_witness :
  0 <= 1 < VK_MAX_MEMORY_TYPES /\
  Z.testbit (CreateBuffer_memoryTypeBits (create sample_device) Stream) 1 = false /\
  type_accepted (CreateBuffer_memoryTypeBits (create sample_device) Stream) 1
    = false /\
  CreateBuffer_memoryTypeBits (create sample_device) Upload = 0.
Proof.
  assert (H : 0 <= 1 < VK_MAX_MEMORY_TYPES) by (unfold VK_MAX_MEMORY_TYPES; lia).
  destruct (CreateBuffer_stream_mask sample_device 1 H) as (B & A & U).
  split; [exact H|]. split; [exact B|].
  split; [apply A; discriminate|].
  apply (U Upload). discriminate.
Defined.

(** C9, at the input where it fails.  On [crowded_device] a debugging tool
    is attached and each of the 32 memory types is device-local and
    host-visible on a heap of 128 MiB, so that the Stream mask is to exclude
    every one of them.  The constructor sets the 32 bits of
    [disallowed_memory_types_for_stream]; [CreateBuffer] hands over their
    complement, which is zero, and a zero mask is read as every memory type,
    as it is for the other usages: not one of the 32 types is excluded. *)
Theorem CreateBuffer_stream_mask_all_excluded :
  HasDebuggingToolAttached crowded_device = true /\
  (forall i, 0 <= i < VK_MAX_MEMORY_TYPES ->
             small_device_local_host_visible crowded_device i = true) /\
  disallowed_memory_types_for_stream (create crowded_device) = 4294967295 /\
  CreateBuffer_memoryTypeBits (create crowded_device) Stream = 0 /\
  CreateBuffer_memoryTypeBits (create crowded_device) Stream
  = CreateBuffer_memoryTypeBits (create crowded_device) Upload /\
  (forall i, 0 <= i < VK_MAX_MEMORY_TYPES ->
             type_accepted
               (CreateBuffer_memoryTypeBits (create crowded_device) Stream) i
             = true).
Proof.
  assert (Small : forall i, 0 <= i < VK_MAX_MEMORY_TYPES ->
                    small_device_local_host_visible crowded_device i = true).
  { intros i Hi. unfold VK_MAX_MEMORY_TYPES in Hi.
    assert (C : In i (map Z.of_nat (seq 0 32))).
    { apply in_map_iff. exists (Z.to_nat i). split; [lia|]. apply in_seq. lia. }
    clear Hi. revert i C. apply Forall_forall.
    repeat (constructor; [reflexivity|]). constructor. }
  split; [reflexivity|]. split; [exact Small|].
  split; [reflexivity|]. split; [reflexivity|]. split; [reflexivity|].
  intros i _. reflexivity.
Qed.

End MemoryAllocatorProperties.

(* ================================================================== *)
(** * Properties of the copy to the swapchain *)
(* ================================================================== *)

Section PresentManagerProperties.

Import PresentManager.

Variable drv : Driver.

Local Abbreviation count := (count_occ DriverCall_eq_dec).

Lemma RecreateSwapchain_succeeds log :
  recreation_succeeds drv ->
  RecreateSwapchain drv log = (Returned tt, log ++ [SwapchainCreate]).
Proof.
  intros R. unfold RecreateSwapchain, ask.
  destruct (R (count log SwapchainCreate)) as (_ & (b & ->)). reflexivity.
Qed.

Lemma count_snoc_other log (c d : DriverCall) :
  c <> d -> count (log ++ [c]) d = count log d.
Proof.
  intros N. rewrite count_occ_app. simpl.
  destruct (DriverCall_eq_dec c d); [contradiction|]. apply Nat.add_0_r.
Qed.

Lemma count_snoc_same log (c : DriverCall) : count (log ++ [c]) c = S (count log c).
Proof.
  rewrite count_occ_app. simpl.
  destruct (DriverCall_eq_dec c c); [|contradiction]. apply Nat.add_1_r.
Qed.

(** An attempt on a quiet driver: one acquisition, the submit, and the
    present, which decides the outcome. *)
Lemma CopyToSwapchainImpl_quiet fuel log :
  quiet drv ->
  CopyToSwapchainImpl (S fuel) drv log
  = match drv SwapchainPresent (count log SwapchainPresent) with
    | Ok _ =>
        (Returned tt, log ++ [AcquireNextImage; QueueSubmit; SwapchainPresent])
    | Fail r =>
        (Threw r, log ++ [AcquireNextImage; QueueSubmit; SwapchainPresent])
    end.
Proof.
  intros Q. unfold CopyToSwapchainImpl. cbn [acquire_loop]. unfold ask.
  destruct (Q (count log AcquireNextImage)) as (-> & _).
  destruct (Q (count (log ++ [AcquireNextImage]) QueueSubmit)) as (_ & (b & ->)).
  rewrite !count_snoc_other by discriminate.
  rewrite <- !app_assoc. simpl.
  destruct (drv SwapchainPresent (count log SwapchainPresent)); reflexivity.
Qed.

Lemma try_block_quiet fuel (flag : bool) (log : Log) :
  quiet drv -> recreation_succeeds drv ->
  let log0 := if flag then log ++ [CreateSurface; SwapchainCreate] else log in
  try_block (S fuel) drv flag log
  = match drv SwapchainPresent (count log SwapchainPresent) with
    | Ok _ =>
        (Returned tt,
         log0 ++ [AcquireNextImage; QueueSubmit; SwapchainPresent], false)
    | Fail r =>
        (Threw r,
         log0 ++ [AcquireNextImage; QueueSubmit; SwapchainPresent], false)
    end.
Proof.
  intros Q R log0. subst log0. unfold try_block. destruct flag.
  - unfold ask at 1.
    destruct (R (count log CreateSurface)) as ((b & ->) & _).
    rewrite RecreateSwapchain_succeeds by exact R.
    rewrite CopyToSwapchainImpl_quiet by exact Q.
    rewrite !count_snoc_other by discriminate.
    rewrite <- !app_assoc. simpl.
    destruct (drv SwapchainPresent (count log SwapchainPresent)); reflexivity.
  - rewrite CopyToSwapchainImpl_quiet by exact Q.
    destruct (drv SwapchainPresent (count log SwapchainPresent)); reflexivity.
Qed.

End PresentManagerProperties.

(* ================================================================== *)
(** * The copy to the swapchain on concrete drivers *)
(* ================================================================== *)

Lemma fails_once_recreation result :
  PresentManager.recreation_succeeds (fails_once result).
Proof. intros n. split; exists false; reflexivity. Qed.

Lemma fails_once_quiet result : PresentManager.quiet (fails_once result).
Proof. intros n. split; [reflexivity|]. exists false. reflexivity. Qed.

Example CopyToSwapchain_suboptimal_once :
  PresentManager.CopyToSwapchain 5 (fails_once VK_SUBOPTIMAL_KHR)
  = (Returned tt,
     [PresentManager.AcquireNextImage; PresentManager.QueueSubmit;
      PresentManager.SwapchainPresent; PresentManager.SwapchainCreate;
      PresentManager.AcquireNextImage; PresentManager.QueueSubmit;
      PresentManager.SwapchainPresent]).
Proof. reflexivity. Qed.

Example CopyToSwapchain_device_lost :
  PresentManager.CopyToSwapchain 5 (fails_once VK_ERROR_DEVICE_LOST)
  = (Threw VK_ERROR_DEVICE_LOST,
     [PresentManager.AcquireNextImage; PresentManager.QueueSubmit;
      PresentManager.SwapchainPresent; PresentManager.ReportLoss]).
Proof. reflexivity. Qed.

(** While every present fails the loop goes on: each turn recreates the
    swapchain and tries again. *)
Lemma CopyToSwapchain_loop_keeps_retrying fuel :
  forall flag log,
    fst (PresentManager.CopyToSwapchain_loop fuel always_out_of_date flag log)
    = OutOfFuel.
Proof.
  assert (Q : PresentManager.quiet always_out_of_date)
    by (intros n; split; [reflexivity | exists false; reflexivity]).
  assert (R : PresentManager.recreation_succeeds always_out_of_date)
    by (intros n; split; exists false; reflexivity).
  induction fuel as [|fuel IH]; intros flag log; [reflexivity|].
  cbn [PresentManager.CopyToSwapchain_loop].
  rewrite (try_block_quiet always_out_of_date fuel flag log Q R).
  cbn [always_out_of_date].
  change (VK_ERROR_OUT_OF_DATE_KHR =? VK_ERROR_SURFACE_LOST_KHR) with false.
  change ((VK_ERROR_OUT_OF_DATE_KHR =? VK_ERROR_OUT_OF_DATE_KHR)
          || (VK_ERROR_OUT_OF_DATE_KHR =? VK_SUBOPTIMAL_KHR)) with true.
  cbv iota.
  rewrite (RecreateSwapchain_succeeds always_out_of_date _ R).
  apply IH.
Qed.

(** C3 as stated fails when the condition comes back.  With the swapchain
    out of date twice in a row the first retry does not present and the
    swapchain is recreated twice; while every present fails
    [CopyToSwapchain] does not return; and when the acquisition asks for a
    new swapchain the attempt itself recreates it, on top of the recreation
    that answers the condition. *)
Lemma CopyToSwapchain_condition_repeats :
  PresentManager.CopyToSwapchain 5 fails_twice
  = (Returned tt,
     [PresentManager.AcquireNextImage; PresentManager.QueueSubmit;
      PresentManager.SwapchainPresent; PresentManager.SwapchainCreate;
      PresentManager.AcquireNextImage; PresentManager.QueueSubmit;
      PresentManager.SwapchainPresent; PresentManager.SwapchainCreate;
      PresentManager.AcquireNextImage; PresentManager.QueueSubmit;
      PresentManager.SwapchainPresent]) /\
  count_occ PresentManager.DriverCall_eq_dec
    (snd (PresentManager.CopyToSwapchain 5 fails_twice))
    PresentManager.SwapchainCreate = 2%nat /\
  (forall fuel,
      fst (PresentManager.CopyToSwapchain fuel always_out_of_date) = OutOfFuel) /\
  PresentManager.CopyToSwapchain 5 acquire_outdated
  = (Returned tt,
     [PresentManager.AcquireNextImage; PresentManager.SwapchainCreate;
      PresentManager.AcquireNextImage; PresentManager.QueueSubmit;
      PresentManager.SwapchainPresent; PresentManager.SwapchainCreate;
      PresentManager.AcquireNextImage; PresentManager.QueueSubmit;
      PresentManager.SwapchainPresent]).
Proof.
  split; [reflexivity|]. split; [reflexivity|].
  split; [|reflexivity].
  intros fuel. apply CopyToSwapchain_loop_keeps_retrying.
Qed.

(* ================================================================== *)
(** * Further properties of the scheduler: chunks and the state cache *)
(* ================================================================== *)

Lemma AcquireNewChunk_back s :
  chunk_reserve (AcquireNewChunk s) = removelast (chunk_reserve s) /\
  work_queue (AcquireNewChunk s) = work_queue s.
Proof.
  unfold AcquireNewChunk.
  destruct (rev (chunk_reserve s)) as [|back front] eqn:E; simpl.
  - assert (N : chunk_reserve s = [])
      by (rewrite <- (rev_involutive (chunk_reserve s)), E; reflexivity).
    rewrite N. auto.
  - apply reserve_back in E. rewrite E, removelast_last. auto.
Qed.

Lemma Empty_commands ch : Empty ch = true <-> commands ch = [].
Proof.
  unfold Empty. destruct (commands ch); split; intros H;
    try reflexivity; discriminate.
Qed.

Lemma DispatchWork_moves_chunk_aux s :
  reserve_reset s ->
  Empty (chunk s) = false ->
  work_queue (DispatchWork s) = work_queue s ++ [chunk s] /\
  chunk_reserve (DispatchWork s) = removelast (chunk_reserve s).
Proof.
  intros _ E. unfold DispatchWork. rewrite E.
  destruct (AcquireNewChunk_back
              (set_chunks (chunk s) (work_queue s ++ [chunk s])
                          (chunk_reserve s) s)) as (B & Q).
  rewrite B, Q. auto.
Qed.

(** X1.  [DispatchWork] leaves a scheduler whose chunk is empty as it is.
    Otherwise the chunk goes to the back of the work queue and the chunk
    taken for recording is the last one of the reserve, a new one being
    made only when the reserve is empty.  Either way the chunk is empty
    afterwards, the commands pending are the same in the same order, and a
    second call changes nothing. *)
Theorem DispatchWork_moves_chunk (s : Scheduler.t) :
  reserve_reset s ->
  let s' := DispatchWork s in
  (Empty (chunk s) = true -> s' = s) /\
  (Empty (chunk s) = false ->
   work_queue s' = work_queue s ++ [chunk s] /\
   chunk_reserve s' = removelast (chunk_reserve s)) /\
  Empty (chunk s') = true /\
  pending s' = pending s /\
  DispatchWork s' = s'.
Proof.
  intros R s'.
  assert (E' : Empty (chunk s') = true).
  { apply Empty_commands. now apply DispatchWork_chunk_empty. }
  split; [|split; [|split; [exact E'|split]]].
  - intros E. subst s'. unfold DispatchWork. now rewrite E.
  - intros E. now apply DispatchWork_moves_chunk_aux.
  - destruct (DispatchWork_records s R) as (P & _).
    fold s' in P. now rewrite P, app_nil_r.
  - unfold DispatchWork at 1. now rewrite E'.
Qed.

Lemma DispatchWork_moves_chunk_witness :
  reserve_reset (Record_ (Closure 1) fresh) /\
  work_queue (DispatchWork (Record_ (Closure 1) fresh))
  = [{| commands := [Closure 1]; submit := false |}] /\
  pending (DispatchWork (Record_ (Closure 1) fresh)) = [Closure 1].
Proof.
  assert (R : reserve_reset (Record_ (Closure 1) fresh)) by constructor.
  destruct (DispatchWork_moves_chunk (Record_ (Closure 1) fresh) R)
    as (_ & Q & _ & P & _).
  split; [exact R|]. split; [|exact P].
  destruct (Q eq_refl) as (Q' & _). exact Q'.
Defined.

(** X2.  [UpdateRescaling] returns true exactly when no rescaling state is
    cached or the cached one differs.  Right after a call, a call with the
    same value returns false and changes nothing, and a call with the other
    value returns true. *)
Theorem UpdateRescaling_twice (is_rescaling_ : bool) (s : Scheduler.t) :
  let s' := snd (UpdateRescaling is_rescaling_ s) in
  fst (UpdateRescaling is_rescaling_ s)
    = negb (rescaling_defined (state s) &&
            Bool.eqb is_rescaling_ (is_rescaling (state s))) /\
  rescaling_defined (state s') = true /\
  is_rescaling (state s') = is_rescaling_ /\
  UpdateRescaling is_rescaling_ s' = (false, s') /\
  fst (UpdateRescaling (negb is_rescaling_) s') = true.
Proof.
  unfold UpdateRescaling.
  destruct (rescaling_defined (state s)) eqn:D;
    destruct is_rescaling_; destruct (is_rescaling (state s)) eqn:I;
    simpl; rewrite ?D, ?I; simpl; auto.
Qed.

Lemma same_but_chunks_refl s : same_but_chunks s s.
Proof. unfold same_but_chunks. auto 10. Qed.

Lemma same_but_chunks_trans s1 s2 s3 :
  same_but_chunks s1 s2 -> same_but_chunks s2 s3 -> same_but_chunks s1 s3.
Proof.
  unfold same_but_chunks.
  intros (A1 & A2 & A3 & A4 & A5 & A6 & A7 & A8 & A9)
         (B1 & B2 & B3 & B4 & B5 & B6 & B7 & B8 & B9).
  repeat split; congruence.
Qed.

Lemma AcquireNewChunk_same s : same_but_chunks s (AcquireNewChunk s).
Proof.
  unfold AcquireNewChunk, same_but_chunks.
  destruct (rev (chunk_reserve s)); simpl; auto 10.
Qed.

Lemma DispatchWork_same s : same_but_chunks s (DispatchWork s).
Proof.
  unfold DispatchWork. destruct (Empty (chunk s)).
  - apply same_but_chunks_refl.
  - eapply same_but_chunks_trans; [|apply AcquireNewChunk_same].
    unfold same_but_chunks. simpl. auto 10.
Qed.

Lemma Record_same c s : same_but_chunks s (Record_ c s).
Proof.
  unfold Record_. destruct (chunk_full s).
  - eapply same_but_chunks_trans; [apply DispatchWork_same|].
    unfold same_but_chunks. simpl. auto 10.
  - unfold same_but_chunks. simpl. auto 10.
Qed.

(** The cached state after [EndRenderPass]: no render pass, no attachments
    when one was ended, the rest of the cache as it was. *)
Lemma EndRenderPass_cache s :
  renderpass (state (EndRenderPass s)) = nullptr /\
  render_area (state (EndRenderPass s)) = render_area (state s) /\
  graphics_pipeline (state (EndRenderPass s)) = graphics_pipeline (state s) /\
  is_rescaling (state (EndRenderPass s)) = is_rescaling (state s) /\
  rescaling_defined (state (EndRenderPass s)) = rescaling_defined (state s) /\
  query_cache (EndRenderPass s) = query_cache s /\
  master_semaphore (EndRenderPass s) = master_semaphore s.
Proof.
  unfold EndRenderPass.
  destruct (renderpass (state s) =? nullptr) eqn:E.
  - apply Z.eqb_eq in E. auto 10.
  - destruct (Record_same (EndRenderPassCmd (num_renderpass_images s)
                (renderpass_images s) (renderpass_image_ranges s)) s)
      as (S1 & _ & _ & _ & Q & _ & M & _).
    simpl. rewrite S1, Q, M. auto 10.
Qed.

(** [SubmitExecution] to the letter: the end of the render pass that is
    open, then the submit command of the tick issued; the state cache is
    invalidated and the query cache told of the end of the segment. *)
Lemma SubmitExecution_exact sg wt s :
  reserve_reset s ->
  let v := MasterSemaphore.current_tick (master_semaphore s) in
  let s' := snd (SubmitExecution sg wt s) in
  pending s' = pending s ++ EndRenderPass_commands s ++ [SubmitCmd sg wt v] /\
  state s' = invalidated (state s) /\
  query_cache s' = option_map (fun log => log ++ [false]) (query_cache s).
Proof.
  intros H v s'. subst s'. unfold SubmitExecution.
  pose proof (NotifySegment_records false s H) as N.
  assert (R0 : reserve_reset (NotifySegment false s)) by apply N.
  pose proof (EndRenderPass_records _ R0) as E.
  pose proof (records_trans _ _ _ _ _ N E) as NE. simpl in NE.
  assert (St0 : state (NotifySegment false s) = state s)
    by (unfold NotifySegment; now destruct (query_cache s)).
  assert (Q0 : query_cache (NotifySegment false s)
               = option_map (fun log => log ++ [false]) (query_cache s))
    by (unfold NotifySegment; destruct (query_cache s) eqn:Q; simpl; auto).
  assert (C0 : EndRenderPass_commands (NotifySegment false s)
               = EndRenderPass_commands s).
  { unfold EndRenderPass_commands. rewrite St0.
    unfold NotifySegment. now destruct (query_cache s). }
  rewrite C0 in NE.
  destruct (EndRenderPass_cache (NotifySegment false s))
    as (_ & Ra & _ & Ir & _ & Q1 & _).
  rewrite St0 in Ra, Ir. rewrite Q0 in Q1.
  unfold EndPendingOperations.
  set (s1 := EndRenderPass (NotifySegment false s)) in *.
  assert (R1 : reserve_reset s1) by apply NE.
  set (s2 := InvalidateState s1).
  assert (P2 : pending s2 = pending s ++ EndRenderPass_commands s) by apply NE.
  assert (M2 : master_semaphore s2 = master_semaphore s) by apply NE.
  unfold MasterSemaphore.NextTick. rewrite M2. fold v.
  set (ms := {| MasterSemaphore.current_tick := to_u64 (v + 1);
                MasterSemaphore.gpu_tick :=
                  MasterSemaphore.gpu_tick (master_semaphore s) |}).
  set (s3 := set_master_semaphore ms s2).
  assert (R3 : reserve_reset s3) by exact R1.
  pose proof (Record_records (SubmitCmd sg wt v) s3 R3) as (P4 & _ & _ & _ & R4).
  destruct (Record_same (SubmitCmd sg wt v) s3) as (S4 & _ & _ & _ & Q4 & _).
  set (s4 := Record_ (SubmitCmd sg wt v) s3) in *.
  set (s5 := set_chunks (MarkSubmit (chunk s4)) (work_queue s4) (chunk_reserve s4) s4).
  assert (R5 : reserve_reset s5) by exact R4.
  pose proof (DispatchWork_records s5 R5) as (P6 & _).
  destruct (DispatchWork_same s5) as (S6 & _ & _ & _ & Q6 & _).
  cbn [snd]. split; [|split].
  - rewrite P6, app_nil_r. change (pending s5) with (pending s4). rewrite P4.
    change (pending s3) with (pending s2). rewrite P2. now rewrite app_assoc.
  - rewrite S6. change (state s5) with (state s4). rewrite S4.
    change (state s3) with (state s2). subst s2. unfold InvalidateState, invalidated.
    cbn [state set_state]. now rewrite Ra, Ir.
  - rewrite Q6. change (query_cache s5) with (query_cache s4). rewrite Q4.
    exact Q1.
Qed.

Lemma Flush_exact sg wt s :
  reserve_reset s ->
  let v := MasterSemaphore.current_tick (master_semaphore s) in
  let s' := snd (Flush sg wt s) in
  pending s' = pending s ++ EndRenderPass_commands s ++ [SubmitCmd sg wt v] /\
  state s' = invalidated (state s) /\
  query_cache s'
    = option_map (fun log => log ++ [false; true]) (query_cache s).
Proof.
  intros H v s'. subst s'. unfold Flush.
  destruct (SubmitExecution_exact sg wt s H) as (P & S & Q).
  destruct (SubmitExecution_spec sg wt s H) as (_ & _ & _ & _ & _ & _ & R).
  destruct (SubmitExecution sg wt s) as [tick s1]. cbn [snd] in *.
  unfold AllocateNewContext.
  destruct (NotifySegment_records true s1 R) as (P' & _).
  rewrite P', app_nil_r. split; [exact P|].
  unfold NotifySegment. rewrite Q.
  destruct (query_cache s) as [log|]; simpl; [|auto].
  split; [exact S|]. now rewrite <- app_assoc.
Qed.

(** X3.  [Flush] leaves the state cache invalidated, so that change
    detection starts anew: the next [UpdateGraphicsPipeline] returns true
    for every pipeline but the null one, the next [UpdateRescaling] returns
    true whatever the value, no render pass is considered open, and the
    next [RequestRenderpass] for a framebuffer with a render pass records
    its begin command and nothing else. *)
Theorem Flush_invalidates_state (sg wt : Z) (s : Scheduler.t) :
  reserve_reset s ->
  let s' := snd (Flush sg wt s) in
  (forall pipeline,
      fst (UpdateGraphicsPipeline pipeline s') = negb (pipeline =? nullptr)) /\
  (forall is_rescaling_, fst (UpdateRescaling is_rescaling_ s') = true) /\
  in_render_pass s' = false /\
  (forall fb,
      RenderPass fb <> nullptr ->
      pending (RequestRenderpass fb s')
      = pending s' ++
        [BeginRenderPassCmd (RenderPass fb) (Handle fb) (RenderArea fb)]).
Proof.
  intros R s'.
  destruct (Flush_exact sg wt s R) as (_ & S & _). fold s' in S.
  destruct (Flush_spec sg wt s R) as (_ & _ & _ & _ & _ & R'). fold s' in R'.
  split; [|split; [|split]].
  - intros p. unfold UpdateGraphicsPipeline. rewrite S.
    cbn [graphics_pipeline invalidated]. rewrite (Z.eqb_sym p nullptr).
    now destruct (nullptr =? p).
  - intros b. unfold UpdateRescaling. rewrite S. reflexivity.
  - unfold in_render_pass. rewrite S. reflexivity.
  - intros fb N.
    destruct (RequestRenderpass_records fb s' R') as (P & _).
    rewrite P.
    assert (M : renderpass_matches fb s' = false).
    { unfold renderpass_matches. rewrite S. cbn [renderpass invalidated].
      destruct (Z.eqb_spec nullptr (RenderPass fb)) as [E|E]; [|reflexivity].
      now contradiction N. }
    rewrite M. unfold EndRenderPass_commands. rewrite S. reflexivity.
Qed.

Lemma Flush_invalidates_state_witness :
  reserve_reset (snd (UpdateGraphicsPipeline 7 in_renderpass)) /\
  fst (UpdateGraphicsPipeline 7
         (snd (Flush 0 0 (snd (UpdateGraphicsPipeline 7 in_renderpass)))))
  = true /\
  in_render_pass (snd (Flush 0 0 (snd (UpdateGraphicsPipeline 7 in_renderpass))))
  = false.
Proof.
  assert (R : reserve_reset (snd (UpdateGraphicsPipeline 7 in_renderpass)))
    by constructor.
  destruct (Flush_invalidates_state 0 0 _ R) as (P & _ & I & _).
  split; [exact R|]. split; [exact (P 7)|exact I].
Defined.

Lemma EndRenderPass_idempotent s : EndRenderPass (EndRenderPass s) = EndRenderPass s.
Proof.
  destruct (EndRenderPass_cache s) as (N & _).
  unfold EndRenderPass at 1. now rewrite N, Z.eqb_refl.
Qed.

(* ================================================================== *)
(** * Further properties of the barrier batch of EndRenderPass *)
(* ================================================================== *)

Lemma array_store_nth {A : Type} (arr arr' : list (option A)) i (b : A) :
  array_store arr i b = Some arr' ->
  forall j, 0 <= j ->
    nth (Z.to_nat j) arr' None
    = if j =? i then Some b else nth (Z.to_nat j) arr None.
Proof.
  unfold array_store.
  destruct ((0 <=? i) && (i <? Z.of_nat (length arr))) eqn:B; [|discriminate].
  apply andb_prop in B. destruct B as (L & H).
  apply Z.leb_le in L. apply Z.ltb_lt in H.
  intros [= <-] j Hj.
  assert (Lf : length (firstn (Z.to_nat i) arr) = Z.to_nat i)
    by (apply firstn_length_le; lia).
  destruct (Z.eqb_spec j i) as [E|E].
  - subst j. rewrite app_nth2 by lia. rewrite Lf, Nat.sub_diag. reflexivity.
  - destruct (Z_lt_le_dec j i) as [Lt|Ge].
    + rewrite app_nth1 by lia. rewrite nth_firstn.
      destruct (Nat.ltb_spec (Z.to_nat j) (Z.to_nat i)); [reflexivity|lia].
    + rewrite app_nth2 by lia. rewrite Lf.
      destruct (Z.to_nat j - Z.to_nat i)%nat as [|k] eqn:D; [lia|].
      cbn [nth]. rewrite nth_skipn. f_equal. lia.
Qed.

Lemma fill_barriers_nth images ranges indices :
  forall arr stored arr' stored',
    fill_barriers indices images ranges arr stored = Some (arr', stored') ->
    forall j, 0 <= j ->
      nth (Z.to_nat j) arr' None
      = if existsb (Z.eqb j) indices
        then Some (make_barrier images ranges j)
        else nth (Z.to_nat j) arr None.
Proof.
  induction indices as [|i rest IH]; intros arr stored arr' stored' E j Hj;
    simpl in E.
  - injection E as <- _. reflexivity.
  - destruct (array_store arr i (make_barrier images ranges i)) as [arr1|] eqn:S;
      [|discriminate].
    rewrite (IH _ _ _ _ E j Hj). cbn [existsb].
    rewrite (array_store_nth _ _ _ _ S j Hj).
    destruct (Z.eqb_spec j i) as [->|N]; cbn [orb].
    + now destruct (existsb (Z.eqb i) rest).
    + reflexivity.
Qed.

Lemma existsb_loop_indices j count :
  0 <= j -> existsb (Z.eqb j) (loop_indices count) = (j <? count).
Proof.
  intros Hj. unfold loop_indices.
  destruct (existsb (Z.eqb j) (map Z.of_nat (seq 0 (Z.to_nat count)))) eqn:E.
  - apply existsb_exists in E. destruct E as (x & Hx & Ex).
    apply Z.eqb_eq in Ex. subst x. apply in_map_iff in Hx.
    destruct Hx as (n & En & Hn). apply in_seq in Hn.
    symmetry. apply Z.ltb_lt. lia.
  - symmetry. apply Z.ltb_ge. destruct (Z_lt_le_dec j count) as [Lt|Ge]; [|exact Ge].
    exfalso. rewrite <- Bool.not_true_iff_false in E. apply E.
    apply existsb_exists. exists j. split; [|apply Z.eqb_refl].
    apply in_map_iff. exists (Z.to_nat j). split; [lia|].
    apply in_seq. lia.
Qed.

(** The test [aspectMask & (DEPTH | STENCIL)] reads bits 1 and 2. *)
Lemma depth_or_stencil aspect :
  (Z.land aspect (Z.lor VK_IMAGE_ASPECT_DEPTH_BIT VK_IMAGE_ASPECT_STENCIL_BIT) =? 0)
  = negb (Z.testbit aspect 1 || Z.testbit aspect 2).
Proof.
  change (Z.lor VK_IMAGE_ASPECT_DEPTH_BIT VK_IMAGE_ASPECT_STENCIL_BIT) with 6.
  destruct (Z.eqb_spec (Z.land aspect 6) 0) as [E|N].
  - assert (B1 : Z.testbit (Z.land aspect 6) 1 = false) by (rewrite E; apply Z.bits_0).
    assert (B2 : Z.testbit (Z.land aspect 6) 2 = false) by (rewrite E; apply Z.bits_0).
    rewrite Z.land_spec in B1, B2.
    change (Z.testbit 6 1) with true in B1. change (Z.testbit 6 2) with true in B2.
    rewrite andb_true_r in B1, B2. now rewrite B1, B2.
  - destruct (Z.testbit aspect 1 || Z.testbit aspect 2) eqn:B; [reflexivity|].
    exfalso. apply N. apply orb_false_elim in B. destruct B as (B1 & B2).
    apply Z.bits_inj'. intros n Hn. rewrite Z.land_spec, Z.bits_0.
    destruct (Z.eq_dec n 0) as [->|N0]; [now rewrite andb_false_r|].
    destruct (Z.eq_dec n 1) as [->|N1]; [now rewrite B1|].
    destruct (Z.eq_dec n 2) as [->|N2]; [now rewrite B2|].
    rewrite (Z.bits_above_log2 6 n); [apply andb_false_r | lia |].
    change (Z.log2 6) with 2. lia.
Qed.

(** X5.  The closure recorded by [EndRenderPass] hands over one barrier for
    each of the first [min(num_images, 9)] attachments and leaves the other
    slots of its array unwritten.  The barrier at index [i] names image [i]
    with its subresource range, moves it to the general layout, and takes
    the depth-stencil attachment layout as the old one exactly when the
    range has the depth or the stencil aspect, the colour attachment layout
    otherwise. *)
Theorem EndRenderPass_barrier_contents (num_images : Z) (images : list Z)
    (ranges : list VkImageSubresourceRange) :
  exists batch,
    EndRenderPass_closure num_images images ranges = Some batch /\
    forall i,
      0 <= i < 9 ->
      nth (Z.to_nat i) (barriers batch) None
      = (if i <? Z.min num_images 9
         then Some (make_barrier images ranges i) else None) /\
      image (make_barrier images ranges i) = nth (Z.to_nat i) images nullptr /\
      subresourceRange (make_barrier images ranges i)
      = nth (Z.to_nat i) ranges default_range /\
      newLayout (make_barrier images ranges i) = VK_IMAGE_LAYOUT_GENERAL /\
      oldLayout (make_barrier images ranges i)
      = if Z.testbit (aspectMask (nth (Z.to_nat i) ranges default_range)) 1
           || Z.testbit (aspectMask (nth (Z.to_nat i) ranges default_range)) 2
        then VK_IMAGE_LAYOUT_DEPTH_STENCIL_ATTACHMENT_OPTIMAL
        else VK_IMAGE_LAYOUT_COLOR_ATTACHMENT_OPTIMAL.
Proof.
  unfold EndRenderPass_closure.
  pose proof (barrier_count_of_min num_images) as M.
  unfold MAX_BARRIERS in M.
  set (count := barrier_count_of num_images) in *.
  assert (B : Forall (fun i => 0 <= i < Z.of_nat (length barrier_array))
                     (loop_indices count)).
  { eapply Forall_impl; [|apply loop_indices_below].
    simpl. intros i Hi. lia. }
  destruct (fill_barriers_in_bounds images ranges _ barrier_array [] B)
    as (arr & E & L).
  rewrite E. eexists. split; [reflexivity|]. cbn [barriers].
  intros i Hi. split; [|split; [|split; [|split]]]; try reflexivity.
  - rewrite (fill_barriers_nth _ _ _ _ _ _ _ E i) by lia.
    rewrite existsb_loop_indices by lia. rewrite M.
    destruct (i <? Z.min num_images 9); [reflexivity|].
    unfold barrier_array. apply nth_repeat.
  - unfold make_barrier. cbn [oldLayout]. rewrite depth_or_stencil.
    now destruct (Z.testbit _ 1 || Z.testbit _ 2).
Qed.

(** What the closure of [EndRenderPass] makes of the arrays it reads: the
    barrier of each attachment below the clamp names the image and the
    range found at its index. *)
Lemma EndRenderPass_closure_reads (num_images : Z) (images : list Z)
    (ranges : list VkImageSubresourceRange) :
  exists batch,
    EndRenderPass_closure num_images images ranges = Some batch /\
    forall i,
      0 <= i < Z.min num_images 9 ->
      exists b,
        nth (Z.to_nat i) (barriers batch) None = Some b /\
        image b = nth (Z.to_nat i) images nullptr /\
        subresourceRange b = nth (Z.to_nat i) ranges default_range.
Proof.
  unfold EndRenderPass_closure.
  pose proof (barrier_count_of_min num_images) as M.
  unfold MAX_BARRIERS in M.
  set (count := barrier_count_of num_images) in *.
  assert (B : Forall (fun i => 0 <= i < Z.of_nat (length barrier_array))
                     (loop_indices count)).
  { eapply Forall_impl; [|apply loop_indices_below].
    simpl. intros i Hi. lia. }
  destruct (fill_barriers_in_bounds images ranges _ barrier_array [] B)
    as (arr & E & L).
  rewrite E. eexists. split; [reflexivity|]. cbn [barriers].
  intros i Hi. exists (make_barrier images ranges i).
  split; [|split; reflexivity].
  rewrite (fill_barriers_nth _ _ _ _ _ _ _ E i) by lia.
  rewrite existsb_loop_indices by lia. rewrite M.
  destruct (Z.ltb_spec i (Z.min num_images 9)); [reflexivity|lia].
Qed.

(** X4.  [EndRenderPass] called inside the render pass that
    [RequestRenderpass] has just begun records one end command.  The
    command captures the attachment count and the two pointers the
    framebuffer returned at the request, not the arrays: whatever the
    memory is when the worker executes it, the barrier of attachment [i]
    names the image and the range found at these addresses then.  The call
    leaves no render pass open and the stored count and pointers reset, so
    that a second call, or [RequestOutsideRenderPassOperationContext],
    records nothing. *)
Theorem EndRenderPass_once (fb : Framebuffer) (s : Scheduler.t) :
  reserve_reset s ->
  RenderPass fb <> nullptr ->
  renderpass_matches fb s = false ->
  let s1 := RequestRenderpass fb s in
  let s2 := EndRenderPass s1 in
  let end_command :=
    EndRenderPassCmd (NumImages fb) (Images fb) (ImageRanges fb) in
  pending s2 = pending s1 ++ [end_command] /\
  (forall mem : Memory,
      exists batch,
        execute_EndRenderPass mem end_command = Some batch /\
        forall i,
          0 <= i < Z.min (NumImages fb) 9 ->
          exists b,
            nth (Z.to_nat i) (barriers batch) None = Some b /\
            image b = nth (Z.to_nat i) (images_at mem (Images fb)) nullptr /\
            subresourceRange b
            = nth (Z.to_nat i) (ranges_at mem (ImageRanges fb)) default_range) /\
  in_render_pass s1 = true /\
  in_render_pass s2 = false /\
  num_renderpass_images s2 = 0 /\
  renderpass_images s2 = nullptr /\
  renderpass_image_ranges s2 = nullptr /\
  EndRenderPass s2 = s2 /\
  RequestOutsideRenderPassOperationContext s2 = s2.
Proof.
  intros R N M s1 s2 end_command.
  assert (R1 : reserve_reset s1) by (apply (RequestRenderpass_records fb s R)).
  assert (S1 : renderpass (state s1) = RenderPass fb /\
               num_renderpass_images s1 = NumImages fb /\
               renderpass_images s1 = Images fb /\
               renderpass_image_ranges s1 = ImageRanges fb).
  { subst s1. unfold RequestRenderpass. rewrite M.
    cbn [state num_renderpass_images renderpass_images renderpass_image_ranges
         set_renderpass_images].
    match goal with
    | |- context [Record_ ?c ?x] =>
        destruct (Record_same c x) as (St & _); rewrite St
    end.
    cbn [state set_state renderpass]. auto. }
  destruct S1 as (Rp & Ni & Im & Rg).
  assert (O1 : (renderpass (state s1) =? nullptr) = false).
  { rewrite Rp. now apply Z.eqb_neq. }
  split; [|split; [|split; [|split; [|split; [|split; [|split; [|split]]]]]]].
  - destruct (EndRenderPass_records s1 R1) as (P & _). fold s2 in P.
    rewrite P. unfold EndRenderPass_commands. now rewrite O1, Ni, Im, Rg.
  - intros mem. subst end_command. cbn [execute_EndRenderPass].
    apply EndRenderPass_closure_reads.
  - unfold in_render_pass. now rewrite O1.
  - unfold in_render_pass. destruct (EndRenderPass_cache s1) as (Z0 & _).
    fold s2 in Z0. now rewrite Z0.
  - subst s2. unfold EndRenderPass. now rewrite O1.
  - subst s2. unfold EndRenderPass. now rewrite O1.
  - subst s2. unfold EndRenderPass. now rewrite O1.
  - apply EndRenderPass_idempotent.
  - apply EndRenderPass_idempotent.
Qed.

(** On [sample_framebuffer]: the command recorded holds the addresses 4096
    and 8192, and executed once image 99 has been written over image 13 in
    the framebuffer's array its barrier names image 99. *)
Lemma EndRenderPass_once_witness :
  reserve_reset fresh /\
  pending (EndRenderPass (RequestRenderpass sample_framebuffer fresh))
  = pending (RequestRenderpass sample_framebuffer fresh) ++
    [EndRenderPassCmd 1 4096 8192] /\
  exists batch,
    execute_EndRenderPass later_memory (EndRenderPassCmd 1 4096 8192)
    = Some batch /\
    exists b, nth 0 (barriers batch) None = Some b /\ image b = 99.
Proof.
  assert (R : reserve_reset fresh) by constructor.
  assert (N : RenderPass sample_framebuffer <> nullptr) by discriminate.
  destruct (EndRenderPass_once sample_framebuffer fresh R N eq_refl)
    as (P & E & _).
  split; [exact R|]. split; [exact P|].
  destruct (E later_memory) as (batch & B & C).
  exists batch. split; [exact B|].
  destruct (C 0) as (b & Hb & Hi & _); [vm_compute; split; congruence|].
  exists b. split; [exact Hb | exact Hi].
Defined.

(** X27.  [RequestRenderpass] for another framebuffer inside a render pass
    changes the render target in order: it records the end of the open
    render pass, capturing the attachment count and the array pointers of
    the framebuffer that opened it, and then the begin command of the new
    one, whose count and pointers it stores for the end to come. *)
Theorem RequestRenderpass_switches (fb1 fb2 : Framebuffer) (s : Scheduler.t) :
  reserve_reset s ->
  RenderPass fb1 <> nullptr ->
  renderpass_matches fb1 s = false ->
  (RenderPass fb2 <> RenderPass fb1 \/ Handle fb2 <> Handle fb1 \/
   width (RenderArea fb2) <> width (RenderArea fb1) \/
   height (RenderArea fb2) <> height (RenderArea fb1)) ->
  let s1 := RequestRenderpass fb1 s in
  let s2 := RequestRenderpass fb2 s1 in
  pending s2
  = pending s1 ++
    [EndRenderPassCmd (NumImages fb1) (Images fb1) (ImageRanges fb1);
     BeginRenderPassCmd (RenderPass fb2) (Handle fb2) (RenderArea fb2)] /\
  num_renderpass_images s2 = NumImages fb2 /\
  renderpass_images s2 = Images fb2 /\
  renderpass_image_ranges s2 = ImageRanges fb2 /\
  renderpass_matches fb2 s2 = true.
Proof.
  intros R N M D s1 s2.
  assert (R1 : reserve_reset s1) by (apply (RequestRenderpass_records fb1 s R)).
  assert (S1 : state s1
               = {| renderpass := RenderPass fb1; framebuffer := Handle fb1;
                    render_area := RenderArea fb1;
                    graphics_pipeline := graphics_pipeline (state s);
                    is_rescaling := is_rescaling (state s);
                    rescaling_defined := rescaling_defined (state s) |} /\
               num_renderpass_images s1 = NumImages fb1 /\
               renderpass_images s1 = Images fb1 /\
               renderpass_image_ranges s1 = ImageRanges fb1).
  { subst s1. unfold RequestRenderpass. rewrite M.
    cbn [state num_renderpass_images renderpass_images renderpass_image_ranges
         set_renderpass_images].
    match goal with
    | |- context [Record_ ?c ?x] =>
        destruct (Record_same c x) as (St & _); rewrite St
    end.
    cbn [state set_state].
    destruct (EndRenderPass_cache s) as (_ & _ & G & I & D' & _).
    now rewrite G, I, D'. }
  destruct S1 as (St & Ni & Im & Rg).
  assert (M2 : renderpass_matches fb2 s1 = false).
  { unfold renderpass_matches. rewrite St. cbn [renderpass framebuffer render_area].
    destruct (Z.eqb_spec (RenderPass fb1) (RenderPass fb2)) as [E1|E1];
      [|reflexivity].
    destruct (Z.eqb_spec (Handle fb1) (Handle fb2)) as [E2|E2]; [|reflexivity].
    destruct (Z.eqb_spec (width (RenderArea fb1)) (width (RenderArea fb2)))
      as [E3|E3]; [|reflexivity].
    destruct (Z.eqb_spec (height (RenderArea fb1)) (height (RenderArea fb2)))
      as [E4|E4]; [|reflexivity].
    exfalso. destruct D as [D | [D | [D | D]]]; congruence. }
  split; [|split; [|split; [|split]]].
  - destruct (RequestRenderpass_records fb2 s1 R1) as (P & _). fold s2 in P.
    rewrite P, M2. unfold EndRenderPass_commands. rewrite St.
    cbn [renderpass]. apply Z.eqb_neq in N. now rewrite N, Ni, Im, Rg.
  - subst s2. unfold RequestRenderpass. now rewrite M2.
  - subst s2. unfold RequestRenderpass. now rewrite M2.
  - subst s2. unfold RequestRenderpass. now rewrite M2.
  - now apply RequestRenderpass_state.
Qed.

Lemma RequestRenderpass_switches_witness :
  let other := {| RenderPass := 21; Handle := 22;
                  RenderArea := {| width := 640; height := 480 |};
                  NumImages := 2; Images := 12288; ImageRanges := 16384 |} in
  reserve_reset fresh /\
  pending (RequestRenderpass other (RequestRenderpass sample_framebuffer fresh))
  = pending (RequestRenderpass sample_framebuffer fresh) ++
    [EndRenderPassCmd 1 4096 8192;
     BeginRenderPassCmd 21 22 {| width := 640; height := 480 |}] /\
  renderpass_images
    (RequestRenderpass other (RequestRenderpass sample_framebuffer fresh))
  = 12288.
Proof.
  intros other.
  assert (R : reserve_reset fresh) by constructor.
  assert (N : RenderPass sample_framebuffer <> nullptr) by discriminate.
  assert (D : RenderPass other <> RenderPass sample_framebuffer \/
              Handle other <> Handle sample_framebuffer \/
              width (RenderArea other) <> width (RenderArea sample_framebuffer) \/
              height (RenderArea other)
              <> height (RenderArea sample_framebuffer))
    by (left; discriminate).
  destruct (RequestRenderpass_switches sample_framebuffer other fresh R N
              eq_refl D) as (P & _ & I & _).
  split; [exact R|]. split; [exact P | exact I].
Defined.

(* ================================================================== *)
(** * Further properties of the worker thread *)
(* ================================================================== *)

(** The two halves of a turn make the turn. *)
Lemma WorkerThread_turn_halves r s :
  WorkerThread_turn r s
  = match WorkerThread_pop s with
    | Some (work, s') => WorkerThread_execute r work s'
    | None => s
    end.
Proof.
  unfold WorkerThread_turn, WorkerThread_pop, WorkerThread_execute.
  destruct (work_queue s) as [|work rest]; [reflexivity|].
  cbn [worker gpu set_chunks].
  destruct (ExecuteAll r work (worker s) (gpu s)) as [[[work' w] g] [e|]];
    reflexivity.
Qed.

Lemma execute_commands_failed_submit r pre sg wt v post :
  submit_ticks pre = [] -> r <> VK_SUCCESS ->
  forall w g,
    execute_commands r (pre ++ SubmitCmd sg wt v :: post) w g
    = ({| executed := executed w ++ pre ++ [SubmitCmd sg wt v];
          cmdbuf_allocations := cmdbuf_allocations w;
          alive := alive w |},
       {| submitted := submitted g; retired := retired g;
          loss_reported := loss_reported g || (r =? VK_ERROR_DEVICE_LOST) |},
       Some r).
Proof.
  intros T N. apply Z.eqb_neq in N.
  induction pre as [|c pre IH]; intros w g.
  - cbn [app execute_commands]. rewrite N.
    destruct (r =? VK_ERROR_DEVICE_LOST); unfold log_executed;
      [now rewrite orb_true_r|].
    destruct g. cbn. now rewrite orb_false_r.
  - destruct c; cbn [submit_ticks] in T; try discriminate;
      cbn [app execute_commands]; rewrite (IH T); unfold log_executed;
      cbn [executed cmdbuf_allocations alive]; now rewrite <- app_assoc.
Qed.

(** X6.  When the queue refuses the submission of the chunk the worker
    executes, the worker stops at the submit command: the commands before
    it have been executed, those after it are not, nothing reaches the GPU
    queue, no new command buffers are begun and the chunk does not come
    back to the reserve.  The loss of the device is reported exactly when
    the result is [VK_ERROR_DEVICE_LOST].  From then on no event changes
    the scheduler. *)
Theorem WorkerThread_failed_submit (r : Z) (s : Scheduler.t)
    (work : CommandChunk) (rest : list CommandChunk)
    (pre post : list Command) (sg wt v : Z) :
  work_queue s = work :: rest ->
  commands work = pre ++ SubmitCmd sg wt v :: post ->
  submit_ticks pre = [] ->
  r <> VK_SUCCESS ->
  let s' := WorkerThread_turn r s in
  alive (worker s') = false /\
  executed (worker s') = executed (worker s) ++ pre ++ [SubmitCmd sg wt v] /\
  cmdbuf_allocations (worker s') = cmdbuf_allocations (worker s) /\
  submitted (gpu s') = submitted (gpu s) /\
  retired (gpu s') = retired (gpu s) /\
  loss_reported (gpu s')
  = loss_reported (gpu s) || (r =? VK_ERROR_DEVICE_LOST) /\
  work_queue s' = rest /\
  chunk_reserve s' = chunk_reserve s /\
  forall evs, run evs s' = (s', []).
Proof.
  intros Q C T N s'.
  assert (E : s' = set_worker_gpu
                     (stop_worker
                        {| executed := executed (worker s) ++ pre ++ [SubmitCmd sg wt v];
                           cmdbuf_allocations := cmdbuf_allocations (worker s);
                           alive := alive (worker s) |})
                     {| submitted := submitted (gpu s); retired := retired (gpu s);
                        loss_reported :=
                          loss_reported (gpu s) || (r =? VK_ERROR_DEVICE_LOST) |}
                     (set_chunks (chunk s) rest (chunk_reserve s) s)).
  { subst s'. unfold WorkerThread_turn. rewrite Q. unfold ExecuteAll.
    rewrite C, (execute_commands_failed_submit r pre sg wt v post T N).
    reflexivity. }
  rewrite E. cbn. repeat split; auto.
  intros evs. now apply run_dead.
Qed.

Lemma WorkerThread_failed_submit_witness :
  let s := snd (Flush 0 0 (Record_ (Closure 1) fresh)) in
  alive (worker (WorkerThread_turn VK_ERROR_DEVICE_LOST s)) = false /\
  executed (worker (WorkerThread_turn VK_ERROR_DEVICE_LOST s))
  = [Closure 1; SubmitCmd 0 0 1] /\
  loss_reported (gpu (WorkerThread_turn VK_ERROR_DEVICE_LOST s)) = true.
Proof.
  intros s.
  destruct (WorkerThread_failed_submit VK_ERROR_DEVICE_LOST s
              {| commands := [Closure 1; SubmitCmd 0 0 1]; submit := true |}
              [] [Closure 1] [] 0 0 1 eq_refl eq_refl eq_refl)
    as (A & E & _ & _ & _ & L & _); [discriminate|].
  split; [exact A|]. split; [exact E|exact L].
Defined.

(* ================================================================== *)
(** * Further properties of the scheduler: what a schedule keeps *)
(* ================================================================== *)

Lemma run_alive_back evs s :
  alive (worker (fst (run evs s))) = true -> alive (worker s) = true.
Proof.
  intros H. destruct (alive (worker s)) eqn:A; [reflexivity|].
  rewrite (run_dead evs s A) in H. cbn [fst] in H. congruence.
Qed.

Lemma step_alive e s :
  alive (worker s) = true ->
  step e s = match e with
             | Producer c => call c s
             | WorkerTurn r => (WorkerThread_turn r s, [])
             | GpuRetires => (Gpu_retire s, [])
             end.
Proof. intros A. unfold step. now rewrite A. Qed.

(** A call of the producer, to the letter. *)
Lemma call_exact c s :
  reserve_reset s ->
  let s' := fst (call c s) in
  pending s' = pending s ++ call_commands c s /\
  worker s' = worker s /\
  gpu s' = gpu s /\
  reserve_reset s' /\
  snd (call c s) = submit_ticks (call_commands c s) /\
  query_cache s'
  = (if is_flush (Producer c)
     then option_map (fun log => log ++ [false; true]) (query_cache s)
     else query_cache s).
Proof.
  intros R. destruct c; cbn [call call_commands is_flush fst snd].
  - destruct (Record_records (Closure stamp) s R) as (P & W & G & _ & R').
    destruct (Record_same (Closure stamp) s) as (_ & _ & _ & _ & Q & _).
    auto 10.
  - destruct (RequestRenderpass_records fb s R) as (P & W & G & _ & R').
    split; [exact P|]. split; [exact W|]. split; [exact G|]. split; [exact R'|].
    destruct (EndRenderPass_commands_plain s) as (_ & T & _).
    split.
    + destruct (renderpass_matches fb s); [reflexivity|].
      now rewrite submit_ticks_app, T.
    + unfold RequestRenderpass. destruct (renderpass_matches fb s); [reflexivity|].
      cbn [query_cache set_renderpass_images].
      match goal with
      | |- context [Record_ ?c ?x] =>
          destruct (Record_same c x) as (_ & _ & _ & _ & Q & _); rewrite Q
      end.
      cbn [query_cache set_state]. apply EndRenderPass_cache.
  - unfold RequestOutsideRenderPassOperationContext.
    destruct (EndRenderPass_records s R) as (P & W & G & _ & R').
    destruct (EndRenderPass_commands_plain s) as (_ & T & _).
    destruct (EndRenderPass_cache s) as (_ & _ & _ & _ & _ & Q & _).
    rewrite T. auto 10.
  - unfold UpdateGraphicsPipeline.
    destruct (graphics_pipeline (state s) =? pipeline); cbn [fst snd];
      rewrite app_nil_r; auto 10.
  - unfold UpdateRescaling.
    destruct (rescaling_defined (state s) &&
              Bool.eqb is_rescaling_ (is_rescaling (state s))); cbn [fst snd];
      rewrite app_nil_r; auto 10.
  - destruct (DispatchWork_records s R) as (P & W & G & _ & R').
    destruct (DispatchWork_same s) as (_ & _ & _ & _ & Q & _).
    auto 10.
  - destruct (Flush_exact signal_semaphore wait_semaphore s R) as (P & _ & Q).
    destruct (Flush_spec signal_semaphore wait_semaphore s R)
      as (T & _ & W & G & _ & R').
    destruct (Flush signal_semaphore wait_semaphore s) as [tick s1].
    cbn [fst snd] in *.
    destruct (EndRenderPass_commands_plain s) as (_ & T0 & _).
    rewrite submit_ticks_app, T0, T. auto 10.
Qed.

(** The worker and the GPU do not touch the caches. *)
Lemma WorkerThread_turn_caches r s :
  state (WorkerThread_turn r s) = state s /\
  query_cache (WorkerThread_turn r s) = query_cache s.
Proof.
  unfold WorkerThread_turn. destruct (work_queue s) as [|work rest]; [auto|].
  destruct (ExecuteAll r work (worker s) (gpu s)) as [[[work' w] g] [e|]]; auto.
Qed.

Lemma Gpu_retire_caches s :
  state (Gpu_retire s) = state s /\ query_cache (Gpu_retire s) = query_cache s.
Proof. unfold Gpu_retire. destruct (submitted (gpu s)); auto. Qed.

(** What a step does to the program order, the ticks and the threads, as
    long as the worker lives through it. *)
Lemma step_exact e s :
  reserve_reset s ->
  alive (worker (fst (step e s))) = true ->
  let s' := fst (step e s) in
  reserve_reset s' /\
  (exists new,
      program_order s' = program_order s ++ new /\
      snd (step e s) = submit_ticks new /\
      new = match e with Producer c => call_commands c s | _ => [] end) /\
  retired (gpu s') ++ submitted (gpu s') ++ submit_ticks (pending s')
  = retired (gpu s) ++ submitted (gpu s) ++ submit_ticks (pending s)
    ++ snd (step e s).
Proof.
  intros R A'.
  assert (A : alive (worker s) = true).
  { apply (run_alive_back [e] s). rewrite run_cons. exact A'. }
  rewrite (step_alive e s A) in *. destruct e as [c | r |]; cbn [fst snd] in *.
  - destruct (call_exact c s R) as (P & W & G & R' & T & _).
    split; [exact R'|]. split.
    + exists (call_commands c s). unfold program_order.
      rewrite P, W, app_assoc. auto.
    + now rewrite P, G, T, submit_ticks_app.
  - destruct (WorkerThread_turn_cases r s)
      as [[_ E] | (work & rest & Q & M & Rt & C & Q' & Cases)].
    + simpl in E. rewrite E, !app_nil_r. split; [exact R|]. split; [|reflexivity].
      exists []. now rewrite app_nil_r.
    + destruct Cases as [(_ & E & S & CR) | (D & _)];
        [|rewrite D in A'; discriminate].
      destruct (worker_executes_frame _ _ _ _ Q C Q' E S) as (PO & _ & Pd).
      split.
      { unfold reserve_reset in *. rewrite CR. apply Forall_app.
        split; [exact R|]. repeat constructor. }
      split; [exists []; now rewrite app_nil_r|].
      rewrite Rt, S, Pd, submit_ticks_app, !app_nil_r, <- !app_assoc.
      reflexivity.
  - destruct (Gpu_retire_cases s)
      as [[_ E] | (v & rest & S & _ & _ & S' & Rt & W & P & CR)].
    + simpl in E. rewrite E, !app_nil_r. split; [exact R|]. split; [|reflexivity].
      exists []. now rewrite app_nil_r.
    + split; [unfold reserve_reset; now rewrite CR|].
      split; [exists []; unfold program_order; now rewrite W, P, !app_nil_r|].
      rewrite Rt, S', P, S, !app_nil_r, <- !app_assoc. reflexivity.
Qed.

(** X7.  Between [Flush] and the queue of the device no submission is
    lost, repeated or overtaken: as long as the worker lives, the signal
    values the GPU has retired, then those on its queue, then those of the
    submit commands still pending are what they were at the start followed
    by the ticks the [Flush] calls of the schedule returned, in the order of
    the calls. *)
Theorem submissions_in_order (evs : list Event) (s : Scheduler.t) :
  reserve_reset s ->
  alive (worker (fst (run evs s))) = true ->
  let s' := fst (run evs s) in
  retired (gpu s') ++ submitted (gpu s') ++ submit_ticks (pending s')
  = retired (gpu s) ++ submitted (gpu s) ++ submit_ticks (pending s)
    ++ snd (run evs s).
Proof.
  revert s. induction evs as [|e evs IH]; intros s R A s'; subst s'.
  - cbn [run fst snd]. now rewrite !app_nil_r.
  - rewrite run_cons in *. cbn [fst snd] in *.
    pose proof (run_alive_back _ _ A) as A1.
    destruct (step_exact e s R A1) as (R1 & _ & E1).
    rewrite (IH _ R1 A). rewrite !app_assoc in *. rewrite E1.
    reflexivity.
Qed.

Lemma submissions_in_order_witness :
  reserve_reset fresh /\
  alive (worker (fst (run three_flushes fresh))) = true /\
  retired (gpu (fst (run three_flushes fresh)))
    ++ submitted (gpu (fst (run three_flushes fresh)))
    ++ submit_ticks (pending (fst (run three_flushes fresh)))
  = [1; 2; 3].
Proof.
  assert (R : reserve_reset fresh) by constructor.
  split; [exact R|]. split; [reflexivity|].
  exact (submissions_in_order three_flushes fresh R eq_refl).
Defined.

Lemma render_passes_app o a b :
  render_passes o (a ++ b)
  = match render_passes o a with
    | Some o' => render_passes o' b
    | None => None
    end.
Proof.
  revert o. induction a as [|c a IH]; intros o; [reflexivity|].
  destruct c; cbn [app render_passes]; destruct o; auto.
Qed.

Lemma EndRenderPass_commands_open s :
  render_passes (in_render_pass s) (EndRenderPass_commands s) = Some false.
Proof.
  unfold in_render_pass, EndRenderPass_commands.
  now destruct (renderpass (state s) =? nullptr).
Qed.

Lemma RequestRenderpass_cache fb s :
  renderpass_matches fb s = false ->
  renderpass (state (RequestRenderpass fb s)) = RenderPass fb.
Proof.
  intros M. unfold RequestRenderpass. rewrite M.
  cbn [state set_renderpass_images].
  match goal with
  | |- context [Record_ ?c ?x] =>
      destruct (Record_same c x) as (St & _); rewrite St
  end.
  reflexivity.
Qed.

(** The commands a call records keep the render passes in order and agree
    with the cached state on whether one is open. *)
Lemma call_render_pass c s :
  (forall fb, c = CallRequestRenderpass fb -> RenderPass fb <> nullptr) ->
  render_passes (in_render_pass s) (call_commands c s)
  = Some (in_render_pass (fst (call c s))).
Proof.
  intros N. destruct c; cbn [call call_commands fst].
  - destruct (Record_same (Closure stamp) s) as (St & _).
    unfold in_render_pass. now rewrite St.
  - specialize (N fb eq_refl). apply Z.eqb_neq in N.
    destruct (renderpass_matches fb s) eqn:M.
    + unfold RequestRenderpass. rewrite M. reflexivity.
    + rewrite render_passes_app, EndRenderPass_commands_open.
      unfold in_render_pass. rewrite (RequestRenderpass_cache fb s M), N.
      reflexivity.
  - unfold RequestOutsideRenderPassOperationContext.
    rewrite EndRenderPass_commands_open. unfold in_render_pass.
    destruct (EndRenderPass_cache s) as (Z0 & _). now rewrite Z0.
  - unfold UpdateGraphicsPipeline.
    now destruct (graphics_pipeline (state s) =? pipeline).
  - unfold UpdateRescaling.
    now destruct (rescaling_defined (state s) &&
                  Bool.eqb is_rescaling_ (is_rescaling (state s))).
  - destruct (DispatchWork_same s) as (St & _).
    unfold in_render_pass. now rewrite St.
  - rewrite render_passes_app, EndRenderPass_commands_open.
    cbn [render_passes]. unfold Flush, AllocateNewContext.
    pose proof (EndRenderPass_cache (NotifySegment false s)) as (Z0 & _).
    unfold SubmitExecution, EndPendingOperations.
    destruct (MasterSemaphore.NextTick _) as [v ms]. cbn [fst].
    unfold in_render_pass.
    assert (St : forall x, state (NotifySegment true x) = state x)
      by (intros x; unfold NotifySegment; now destruct (query_cache x)).
    rewrite St.
    match goal with
    | |- context [DispatchWork ?x] =>
        destruct (DispatchWork_same x) as (S6 & _); rewrite S6
    end.
    cbn [state set_chunks].
    match goal with
    | |- context [Record_ ?c ?x] =>
        destruct (Record_same c x) as (S4 & _); rewrite S4
    end.
    reflexivity.
Qed.

Lemma framebuffers_of_cons e evs :
  framebuffers_of (e :: evs)
  = match e with
    | Producer (CallRequestRenderpass fb) => [fb]
    | _ => []
    end ++ framebuffers_of evs.
Proof. destruct e as [c| |]; try reflexivity. destruct c; reflexivity. Qed.

(** X8.  Render passes stay in order along every schedule whose
    framebuffers have a render pass: in the program order each begin
    command comes with no render pass open, each end command closes the
    open one, and no submission is recorded inside a render pass; the cached
    state tells whether a render pass is open at the end.  This holds as long
    as the worker lives. *)
Theorem render_passes_in_order (evs : list Event) (s : Scheduler.t) :
  reserve_reset s ->
  Forall (fun fb => RenderPass fb <> nullptr) (framebuffers_of evs) ->
  alive (worker (fst (run evs s))) = true ->
  render_passes false (program_order s) = Some (in_render_pass s) ->
  render_passes false (program_order (fst (run evs s)))
  = Some (in_render_pass (fst (run evs s))).
Proof.
  revert s. induction evs as [|e evs IH]; intros s R F A B; [exact B|].
  rewrite run_cons in *. cbn [fst] in *.
  rewrite framebuffers_of_cons in F. apply Forall_app in F.
  destruct F as (Fe & F).
  pose proof (run_alive_back _ _ A) as A1.
  pose proof (run_alive_back [e] s) as A0.
  rewrite run_cons in A0. specialize (A0 A1).
  destruct (step_exact e s R A1) as (R1 & (new & P & _ & N) & _).
  apply (IH _ R1 F A). rewrite P, render_passes_app, B.
  subst new. rewrite (step_alive e s A0). destruct e as [c | r |].
  - apply call_render_pass. intros fb ->.
    now apply Forall_cons_iff in Fe.
  - cbn [fst render_passes]. unfold in_render_pass.
    destruct (WorkerThread_turn_caches r s) as (St & _). now rewrite St.
  - cbn [fst render_passes]. unfold in_render_pass.
    destruct (Gpu_retire_caches s) as (St & _). now rewrite St.
Qed.

Lemma render_passes_in_order_witness :
  reserve_reset fresh /\
  render_passes false (program_order (fst (run recording fresh))) = Some true.
Proof.
  assert (R : reserve_reset fresh) by constructor.
  split; [exact R|].
  refine (render_passes_in_order recording fresh R _ eq_refl eq_refl).
  repeat constructor. discriminate.
Defined.

Lemma segment_notifications_S n :
  segment_notifications (S n) = [false; true] ++ segment_notifications n.
Proof. reflexivity. Qed.

(** X9.  The query cache hears of each submission twice and of nothing
    else: along a schedule the worker lives through, its notifications grow
    by the end of a segment and the start of the next for each [Flush], in
    this order, whatever else is recorded or executed; a scheduler without
    a query cache stays without. *)
Theorem query_segments_paired (evs : list Event) (s : Scheduler.t) :
  reserve_reset s ->
  alive (worker (fst (run evs s))) = true ->
  query_cache (fst (run evs s))
  = option_map (fun log => log ++ segment_notifications (flushes evs))
               (query_cache s).
Proof.
  revert s. induction evs as [|e evs IH]; intros s R A.
  - cbn [run fst]. unfold flushes, segment_notifications. cbn.
    destruct (query_cache s); cbn [option_map];
      [now rewrite app_nil_r|reflexivity].
  - rewrite run_cons in *. cbn [fst] in *.
    pose proof (run_alive_back _ _ A) as A1.
    pose proof (run_alive_back [e] s) as A0.
    rewrite run_cons in A0. specialize (A0 A1).
    destruct (step_exact e s R A1) as (R1 & _).
    rewrite (IH _ R1 A).
    assert (Q : query_cache (fst (step e s))
                = if is_flush e
                  then option_map (fun log => log ++ [false; true]) (query_cache s)
                  else query_cache s).
    { rewrite (step_alive e s A0). destruct e as [c | r |].
      - apply (call_exact c s R).
      - apply WorkerThread_turn_caches.
      - apply Gpu_retire_caches. }
    rewrite Q. unfold flushes. cbn [filter].
    destruct (is_flush e); destruct (query_cache s); cbn [option_map length];
      try reflexivity.
    now rewrite segment_notifications_S, <- app_assoc.
Qed.

Lemma query_segments_paired_witness :
  reserve_reset fresh /\
  query_cache (fst (run three_flushes fresh))
  = Some [false; true; false; true; false; true].
Proof.
  assert (R : reserve_reset fresh) by constructor.
  split; [exact R|].
  exact (query_segments_paired three_flushes fresh R eq_refl).
Defined.

(* ================================================================== *)
(** * Further properties of the scheduler: the shape of the chunks *)
(* ================================================================== *)

Lemma DispatchWork_shape s : shape s -> shape (DispatchWork s).
Proof.
  intros (Q & M & T & R). unfold DispatchWork.
  destruct (Empty (chunk s)) eqn:E; [now repeat split|].
  set (s1 := set_chunks (chunk s) (work_queue s ++ [chunk s]) (chunk_reserve s) s).
  assert (R1 : reserve_reset s1) by exact R.
  destruct (AcquireNewChunk_reset s1 R1) as (C & Q' & R' & _).
  unfold shape. rewrite C, Q'. split; [|now repeat split].
  apply Forall_app. split; [exact Q|].
  constructor; [|constructor]. split; [exact E|].
  unfold chunk_shape. now rewrite M.
Qed.

(** Recording a command: the chunk being recorded ends with it. *)
Lemma Record_chunk c s :
  shape s ->
  exists pre,
    Forall (fun ch => Empty ch = false /\ chunk_shape ch)
           (work_queue (Record_ c s)) /\
    chunk (Record_ c s) = {| commands := pre ++ [c]; submit := false |} /\
    submit_ticks pre = [] /\
    reserve_reset (Record_ c s).
Proof.
  intros H.
  assert (A : forall s0, shape s0 ->
            exists pre,
              Forall (fun ch => Empty ch = false /\ chunk_shape ch)
                     (work_queue (append_command c s0)) /\
              chunk (append_command c s0)
              = {| commands := pre ++ [c]; submit := false |} /\
              submit_ticks pre = [] /\
              reserve_reset (append_command c s0)).
  { intros s0 (Q & M & T & R). exists (commands (chunk s0)).
    unfold append_command. cbn. rewrite M. auto. }
  unfold Record_. destruct (chunk_full s).
  - apply A. now apply DispatchWork_shape.
  - now apply A.
Qed.

Lemma Record_shape c s :
  shape s -> submit_ticks [c] = [] -> shape (Record_ c s).
Proof.
  intros H T. destruct (Record_chunk c s H) as (pre & Q & C & P & R).
  unfold shape. rewrite C. cbn [submit commands].
  rewrite submit_ticks_app, P, T. auto.
Qed.

Lemma EndRenderPass_shape s : shape s -> shape (EndRenderPass s).
Proof.
  intros H. unfold EndRenderPass.
  destruct (renderpass (state s) =? nullptr); [exact H|].
  exact (Record_shape (EndRenderPassCmd (num_renderpass_images s)
                         (renderpass_images s) (renderpass_image_ranges s))
                      s H eq_refl).
Qed.

Lemma NotifySegment_shape flag s : shape s -> shape (NotifySegment flag s).
Proof. intros H. unfold NotifySegment. now destruct (query_cache s). Qed.

Lemma RequestRenderpass_shape fb s : shape s -> shape (RequestRenderpass fb s).
Proof.
  intros H. unfold RequestRenderpass.
  destruct (renderpass_matches fb s); [exact H|].
  pose proof (EndRenderPass_shape s H) as H1.
  set (s2 := set_state _ (EndRenderPass s)).
  assert (H2 : shape s2) by exact H1.
  exact (Record_shape (BeginRenderPassCmd (RenderPass fb) (Handle fb)
                         (RenderArea fb)) s2 H2 eq_refl).
Qed.

Lemma SubmitExecution_shape sg wt s :
  shape s -> shape (snd (SubmitExecution sg wt s)).
Proof.
  intros H. unfold SubmitExecution, EndPendingOperations.
  pose proof (EndRenderPass_shape _ (NotifySegment_shape false s H)) as H1.
  set (s1 := EndRenderPass (NotifySegment false s)) in *.
  destruct (MasterSemaphore.NextTick (master_semaphore (InvalidateState s1)))
    as [v ms].
  set (s3 := set_master_semaphore ms (InvalidateState s1)).
  assert (H3 : shape s3) by exact H1.
  destruct (Record_chunk (SubmitCmd sg wt v) s3 H3) as (pre & Q & C & P & R).
  set (s4 := Record_ (SubmitCmd sg wt v) s3) in *.
  set (s5 := set_chunks (MarkSubmit (chunk s4)) (work_queue s4) (chunk_reserve s4) s4).
  cbn [snd]. unfold DispatchWork.
  assert (E : Empty (chunk s5) = false).
  { subst s5. cbn [chunk set_chunks]. rewrite C. unfold Empty, MarkSubmit.
    cbn [commands]. now destruct pre. }
  rewrite E.
  set (s6 := set_chunks (chunk s5) (work_queue s5 ++ [chunk s5]) (chunk_reserve s5) s5).
  assert (R6 : reserve_reset s6) by exact R.
  destruct (AcquireNewChunk_reset s6 R6) as (C7 & Q7 & R7 & _).
  unfold shape. rewrite C7, Q7. split; [|now repeat split].
  apply Forall_app. split; [exact Q|].
  constructor; [|constructor]. split; [exact E|].
  subst s5. cbn [chunk set_chunks]. rewrite C. unfold chunk_shape, MarkSubmit.
  cbn [submit commands]. now exists pre, sg, wt, v.
Qed.

Lemma call_shape c s : shape s -> shape (fst (call c s)).
Proof.
  intros H. destruct c; cbn [call fst].
  - exact (Record_shape (Closure stamp) s H eq_refl).
  - now apply RequestRenderpass_shape.
  - now apply EndRenderPass_shape.
  - unfold UpdateGraphicsPipeline.
    now destruct (graphics_pipeline (state s) =? pipeline).
  - unfold UpdateRescaling.
    now destruct (rescaling_defined (state s) &&
                  Bool.eqb is_rescaling_ (is_rescaling (state s))).
  - now apply DispatchWork_shape.
  - pose proof (SubmitExecution_shape signal_semaphore wait_semaphore s H) as H1.
    unfold Flush.
    destruct (SubmitExecution signal_semaphore wait_semaphore s) as [tick s1].
    cbn [fst snd] in *. now apply NotifySegment_shape.
Qed.

Lemma WorkerThread_turn_shape r s : shape s -> shape (WorkerThread_turn r s).
Proof.
  intros (Q & M & T & R).
  destruct (WorkerThread_turn_cases r s)
    as [[_ E] | (work & rest & Qe & _ & _ & C & Q' & Cases)].
  - simpl in E. rewrite E. now repeat split.
  - rewrite Qe in Q. apply Forall_cons_iff in Q. destruct Q as (_ & Q).
    unfold shape, reserve_reset. rewrite C, Q'.
    destruct Cases as [(_ & _ & _ & CR) | (_ & _ & _ & CR)]; rewrite CR;
      repeat split; auto.
    apply Forall_app. split; [exact R|]. repeat constructor.
Qed.

Lemma Gpu_retire_shape s : shape s -> shape (Gpu_retire s).
Proof. intros H. unfold Gpu_retire. now destruct (submitted (gpu s)). Qed.

Lemma step_shape e s : shape s -> shape (fst (step e s)).
Proof.
  intros H. unfold step. destruct (alive (worker s)); [|exact H].
  destruct e as [c | r |]; cbn [fst].
  - now apply call_shape.
  - now apply WorkerThread_turn_shape.
  - now apply Gpu_retire_shape.
Qed.

Lemma run_shape evs : forall s, shape s -> shape (fst (run evs s)).
Proof.
  induction evs as [|e evs IH]; intros s H; [exact H|].
  rewrite run_cons. cbn [fst]. apply IH. now apply step_shape.
Qed.

Lemma shape_fresh : shape fresh.
Proof. repeat split; constructor. Qed.

(** X10.  Whatever the schedule, the worker is never handed an empty
    chunk, and the mark of a chunk tells what it holds: a chunk of the work
    queue marked as a submission ends with a submit command and holds no
    other, a chunk not marked holds none, and the chunk being recorded is
    never marked. *)
Theorem chunks_keep_shape (evs : list Event) (s : Scheduler.t) :
  shape s ->
  let s' := fst (run evs s) in
  Forall (fun ch =>
            commands ch <> [] /\
            if HasSubmit ch
            then exists pre sg wt v,
                   commands ch = pre ++ [SubmitCmd sg wt v] /\
                   submit_ticks pre = []
            else submit_ticks (commands ch) = [])
         (work_queue s') /\
  HasSubmit (chunk s') = false /\
  submit_ticks (commands (chunk s')) = [].
Proof.
  intros H s'. destruct (run_shape evs s H) as (Q & M & T & _).
  split; [|split; [exact M|exact T]].
  eapply Forall_impl; [|exact Q].
  intros ch (E & S). split; [|exact S].
  intros N. apply Empty_commands in N. congruence.
Qed.

Lemma chunks_keep_shape_witness :
  shape fresh /\
  HasSubmit (chunk (fst (run three_flushes fresh))) = false.
Proof.
  split; [exact shape_fresh|].
  exact (proj1 (proj2 (chunks_keep_shape three_flushes fresh shape_fresh))).
Defined.

Lemma execute_commands_allocations r cmds :
  forall w g w' g' res,
    execute_commands r cmds w g = (w', g', res) ->
    cmdbuf_allocations w' = cmdbuf_allocations w.
Proof.
  induction cmds as [|c cmds IH]; intros w g w' g' res H; simpl in H.
  - now inversion H.
  - destruct c; try (apply IH in H; exact H).
    destruct (r =? VK_SUCCESS); [apply IH in H; exact H|].
    destruct (r =? VK_ERROR_DEVICE_LOST); inversion H; reflexivity.
Qed.

Lemma chunk_shape_count ch :
  chunk_shape ch ->
  count_submits (commands ch) = if HasSubmit ch then 1%nat else O.
Proof.
  unfold chunk_shape, HasSubmit, count_submits. destruct (submit ch).
  - intros (pre & sg & wt & v & -> & P). now rewrite submit_ticks_app, P.
  - now intros ->.
Qed.

(** A turn of the worker begins new command buffers exactly when the chunk
    it executed held a submission. *)
Lemma WorkerThread_turn_allocations r s :
  shape s ->
  alive (worker (WorkerThread_turn r s)) = true ->
  (cmdbuf_allocations (worker (WorkerThread_turn r s))
     + count_submits (executed (worker s))
   = cmdbuf_allocations (worker s)
     + count_submits (executed (worker (WorkerThread_turn r s))))%nat.
Proof.
  intros (Q & _) A. revert A. unfold WorkerThread_turn.
  destruct (work_queue s) as [|work rest]; [reflexivity|].
  apply Forall_cons_iff in Q. destruct Q as ((_ & S) & _).
  apply chunk_shape_count in S.
  unfold ExecuteAll.
  destruct (execute_commands r (commands work) (worker s) (gpu s))
    as [[w g] [e|]] eqn:X; cbn; [discriminate|].
  intros _.
  pose proof (execute_commands_allocations _ _ _ _ _ _ _ X) as Al.
  apply execute_commands_ok in X. destruct X as (E & _).
  unfold count_submits in *.
  destruct (HasSubmit work); cbn; rewrite E, submit_ticks_app, length_app, S, Al;
    lia.
Qed.

(** X11.  The worker begins a new pair of command buffers once for each
    submission it has executed and at no other time: along a schedule the
    worker lives through, the number of command buffer pairs begun grows by
    the number of submit commands executed. *)
Theorem command_buffers_per_submission (evs : list Event) (s : Scheduler.t) :
  shape s ->
  alive (worker (fst (run evs s))) = true ->
  let s' := fst (run evs s) in
  (cmdbuf_allocations (worker s') + count_submits (executed (worker s))
   = cmdbuf_allocations (worker s) + count_submits (executed (worker s')))%nat.
Proof.
  revert s. induction evs as [|e evs IH]; intros s H A s'; subst s'.
  - cbn [run fst]. lia.
  - rewrite run_cons in *. cbn [fst] in *.
    pose proof (run_alive_back _ _ A) as A1.
    pose proof (run_alive_back [e] s) as A0.
    rewrite run_cons in A0. specialize (A0 A1).
    pose proof (IH _ (step_shape e s H) A) as E2. cbv zeta in E2.
    assert (E1 : (cmdbuf_allocations (worker (fst (step e s)))
                    + count_submits (executed (worker s))
                  = cmdbuf_allocations (worker s)
                    + count_submits (executed (worker (fst (step e s)))))%nat).
    { revert A1. rewrite (step_alive e s A0). destruct e as [c | r |]; cbn [fst].
      - destruct (call_exact c s) as (_ & W & _); [apply H|]. now rewrite W.
      - now apply WorkerThread_turn_allocations.
      - destruct (Gpu_retire_cases s)
          as [[_ E] | (v & rest & _ & _ & _ & _ & _ & W & _)].
        + simpl in E. now rewrite E.
        + now rewrite W. }
    lia.
Qed.

Lemma command_buffers_per_submission_witness :
  shape fresh /\
  alive (worker (fst (run three_flushes fresh))) = true /\
  (cmdbuf_allocations (worker (fst (run three_flushes fresh)))
     + count_submits (executed (worker fresh))
   = cmdbuf_allocations (worker fresh)
     + count_submits (executed (worker (fst (run three_flushes fresh)))))%nat.
Proof.
  split; [exact shape_fresh|]. split; [reflexivity|].
  exact (command_buffers_per_submission three_flushes fresh shape_fresh eq_refl).
Defined.

(* ================================================================== *)
(** * Further properties of the scheduler: WaitWorker *)
(* ================================================================== *)

Lemma WorkerThread_execute_cases r work s :
  let s' := WorkerThread_execute r work s in
  chunk s' = chunk s /\
  work_queue s' = work_queue s /\
  master_semaphore s' = master_semaphore s /\
  retired (gpu s') = retired (gpu s) /\
  ((alive (worker s') = alive (worker s) /\
    executed (worker s') = executed (worker s) ++ commands work /\
    submitted (gpu s') = submitted (gpu s) ++ submit_ticks (commands work) /\
    chunk_reserve s' = chunk_reserve s ++ [new_chunk]) \/
   (alive (worker s') = false /\ r <> VK_SUCCESS)).
Proof.
  intros s'. subst s'. unfold WorkerThread_execute, ExecuteAll.
  destruct (execute_commands r (commands work) (worker s) (gpu s))
    as [[w g] [e|]] eqn:X; cbn.
  - apply execute_commands_fail in X as F. destruct F as (R & _).
    repeat split; auto. right. split; [reflexivity|].
    intros ->.
    destruct (execute_commands_success (commands work) (worker s) (gpu s))
      as (w2 & g2 & Y). rewrite Y in X. discriminate.
  - apply execute_commands_ok in X. destruct X as (E & A & S & R).
    repeat split; auto. left.
    destruct (HasSubmit work); cbn; auto.
Qed.

Lemma wait_run_dead evs hand s :
  alive (worker s) = false -> wait_run evs (hand, s) = (hand, s).
Proof.
  intros D. induction evs as [|e evs IH]; [reflexivity|].
  cbn [wait_run wait_step]. now rewrite D.
Qed.

Lemma wait_run_alive_back evs hand s :
  alive (worker (snd (wait_run evs (hand, s)))) = true ->
  alive (worker s) = true.
Proof.
  intros H. destruct (alive (worker s)) eqn:A; [reflexivity|].
  rewrite (wait_run_dead evs hand s A) in H. cbn [snd] in H. congruence.
Qed.

(** While the producer waits, what the worker has executed, holds and has
    still to take from the queue stays the same sequence of commands. *)
Lemma wait_step_order e hand s :
  alive (worker (snd (wait_step e (hand, s)))) = true ->
  let p' := wait_step e (hand, s) in
  executed (worker (snd p')) ++ held_commands (fst p')
    ++ concat (map commands (work_queue (snd p')))
  = executed (worker s) ++ held_commands hand
    ++ concat (map commands (work_queue s)) /\
  chunk (snd p') = chunk s.
Proof.
  cbn [wait_step]. destruct (alive (worker s)) eqn:A; [|auto].
  destruct e as [| r |].
  - destruct hand as [work|]; [auto|].
    unfold WorkerThread_pop. destruct (work_queue s) as [|work rest] eqn:Q;
      cbn; [now rewrite Q|auto].
  - destruct hand as [work|]; [|auto]. cbn [fst snd].
    destruct (WorkerThread_execute_cases r work s)
      as (C & Q & _ & _ & [(_ & E & _) | (D & _)]).
    + intros _. rewrite E, Q, <- app_assoc. auto.
    + intros B. rewrite D in B. discriminate.
  - cbn [fst snd]. intros _.
    destruct (Gpu_retire_cases s)
      as [[_ E] | (v & rest & _ & _ & _ & _ & _ & W & _)].
    + simpl in E. now rewrite E.
    + rewrite W. unfold Gpu_retire. destruct (submitted (gpu s)); auto.
Qed.

Lemma wait_run_order evs :
  forall hand s,
    alive (worker (snd (wait_run evs (hand, s)))) = true ->
    let p' := wait_run evs (hand, s) in
    executed (worker (snd p')) ++ held_commands (fst p')
      ++ concat (map commands (work_queue (snd p')))
    = executed (worker s) ++ held_commands hand
      ++ concat (map commands (work_queue s)) /\
    chunk (snd p') = chunk s.
Proof.
  induction evs as [|e evs IH]; intros hand s A; [auto|].
  cbn [wait_run] in *.
  destruct (wait_step e (hand, s)) as [hand1 s1] eqn:S1.
  pose proof (wait_run_alive_back _ _ _ A) as A1.
  pose proof (wait_step_order e hand s) as O1. rewrite S1 in O1.
  destruct (O1 A1) as (E1 & C1). cbn [fst snd] in E1, C1.
  destruct (IH hand1 s1 A) as (E2 & C2).
  cbv zeta. rewrite E2, C2. auto.
Qed.

(** A pop and the execution that follows it are a turn of the worker. *)
Lemma wait_run_turn r s :
  alive (worker s) = true ->
  wait_run [WorkerPops; WorkerExecutes r] (None, s)
  = (None, WorkerThread_turn r s).
Proof.
  intros A. rewrite WorkerThread_turn_halves.
  cbn [wait_run wait_step]. rewrite A. unfold WorkerThread_pop.
  destruct (work_queue s) as [|work rest]; cbn [wait_step worker set_chunks];
    rewrite ?A; reflexivity.
Qed.

Lemma wait_run_app a b p : wait_run (a ++ b) p = wait_run b (wait_run a p).
Proof.
  revert p. induction a as [|e a IH]; intros p; [reflexivity|].
  cbn [app wait_run]. apply IH.
Qed.

Lemma wait_drain q :
  forall s,
    work_queue s = q -> alive (worker s) = true ->
    exists s',
      wait_run (concat (repeat [WorkerPops; WorkerExecutes VK_SUCCESS] (length q)))
               (None, s) = (None, s') /\
      alive (worker s') = true /\ work_queue s' = [].
Proof.
  induction q as [|work rest IH]; intros s Q A.
  - exists s. auto.
  - cbn [length repeat concat]. rewrite wait_run_app, (wait_run_turn _ _ A).
    destruct (WorkerThread_turn_cases VK_SUCCESS s)
      as [[E _] | (work' & rest' & Q' & _ & _ & _ & Q1 & Cases)];
      [congruence|].
    rewrite Q in Q'. injection Q' as _ Er. rewrite <- Er in Q1.
    destruct Cases as [(A' & _) | (_ & _ & N & _)]; [|now contradiction N].
    rewrite A in A'. apply (IH _ Q1 A').
Qed.

(** X12.  When [WaitWorker] returns the work queue and the chunk being
    recorded are empty, and every command recorded before the call has been
    executed, in order, but for the commands of the chunk the worker has
    popped last, which it may still hold: the wait ends with the queue
    empty, not with the execution of its last chunk.  And [WaitWorker] does
    return: while the worker lives there are turns of the worker after
    which it has returned, the worker holding nothing. *)
Theorem WaitWorker_returns (hand : option CommandChunk) (s : Scheduler.t) :
  reserve_reset s ->
  (forall during_wait hand' s',
      WaitWorker during_wait (hand, s) = Some (hand', s') ->
      work_queue s' = [] /\
      commands (chunk s') = [] /\
      executed (worker s') ++ held_commands hand'
      = executed (worker s) ++ held_commands hand ++ pending s) /\
  (alive (worker s) = true ->
   exists during_wait s',
     WaitWorker during_wait (hand, s) = Some (None, s')).
Proof.
  intros R.
  destruct (DispatchWork_records s R) as (P & W & _).
  pose proof (DispatchWork_chunk_empty s R) as C.
  rewrite app_nil_r in P.
  split.
  - intros during_wait hand' s'. unfold WaitWorker.
    destruct (wait_run during_wait (hand, DispatchWork s)) as [h2 s2] eqn:Run.
    destruct (alive (worker s2)) eqn:A; [|discriminate].
    destruct (work_queue s2) as [|x l] eqn:Q; [|discriminate].
    destruct (IsTickCompleted s2 (GetCompletedTick s2)); [|discriminate].
    intros [= <- <-].
    pose proof (wait_run_order during_wait hand (DispatchWork s)) as O.
    rewrite Run in O. destruct (O A) as (E & Ch). cbn [fst snd] in E, Ch.
    rewrite Q in E. cbn [map concat] in E. rewrite app_nil_r in E.
    split; [exact Q|]. split; [now rewrite Ch|].
    rewrite E, W. unfold pending in P. rewrite C, app_nil_r in P.
    now rewrite P.
  - intros A. rewrite <- W in A.
    set (first := match hand with
                  | Some _ => [WorkerExecutes VK_SUCCESS]
                  | None => []
                  end).
    assert (F : exists s1, wait_run first (hand, DispatchWork s) = (None, s1) /\
                           alive (worker s1) = true).
    { subst first. destruct hand as [work|]; [|now exists (DispatchWork s)].
      cbn [wait_run wait_step]. rewrite A. eexists. split; [reflexivity|].
      destruct (WorkerThread_execute_cases VK_SUCCESS work (DispatchWork s))
        as (_ & _ & _ & _ & [(A' & _) | (_ & N)]); [congruence|].
      now contradiction N. }
    destruct F as (s1 & F & A1).
    destruct (wait_drain (work_queue s1) s1 eq_refl A1) as (s2 & D & A2 & Q2).
    exists (first ++ concat (repeat [WorkerPops; WorkerExecutes VK_SUCCESS]
                              (length (work_queue s1)))), s2.
    unfold WaitWorker. rewrite wait_run_app, F, D, A2, Q2.
    unfold IsTickCompleted, GetCompletedTick, MasterSemaphore.IsSignaled,
      MasterSemaphore.GetValue.
    now rewrite Z.leb_refl.
Qed.

Lemma WaitWorker_returns_witness :
  reserve_reset (Record_ (Closure 1) fresh) /\
  WaitWorker [WorkerPops; WorkerExecutes VK_SUCCESS]
             (None, Record_ (Closure 1) fresh)
  = Some (None, snd (wait_run [WorkerPops; WorkerExecutes VK_SUCCESS]
                              (None, DispatchWork (Record_ (Closure 1) fresh)))) /\
  executed (worker (snd (wait_run [WorkerPops; WorkerExecutes VK_SUCCESS]
                           (None, DispatchWork (Record_ (Closure 1) fresh)))))
    ++ held_commands None
  = [Closure 1].
Proof.
  assert (R : reserve_reset (Record_ (Closure 1) fresh)) by constructor.
  split; [exact R|]. split; [reflexivity|].
  destruct (WaitWorker_returns None (Record_ (Closure 1) fresh) R) as (Safe & _).
  now destruct (Safe [WorkerPops; WorkerExecutes VK_SUCCESS] None _ eq_refl)
    as (_ & _ & E).
Defined.

(** X13.  [WaitWorker] is no barrier for the last chunk nor for the GPU.
    Called with commands recorded, an empty queue and an idle worker, it
    returns as soon as the worker has popped the chunk: none of the commands
    has been executed, nothing was handed to the GPU and the timeline has not
    moved. *)
Theorem WaitWorker_returns_early (s : Scheduler.t) :
  reserve_reset s ->
  alive (worker s) = true ->
  work_queue s = [] ->
  Empty (chunk s) = false ->
  exists s',
    WaitWorker [WorkerPops] (None, s) = Some (Some (chunk s), s') /\
    executed (worker s') = executed (worker s) /\
    gpu s' = gpu s /\
    master_semaphore s' = master_semaphore s /\
    pending s <> [].
Proof.
  intros R A Q E.
  assert (D : work_queue (DispatchWork s) = [chunk s]).
  { destruct (DispatchWork_moves_chunk_aux s R E) as (Q' & _). now rewrite Q', Q. }
  destruct (DispatchWork_same s) as (_ & _ & _ & _ & _ & _ & M & W & G).
  unfold WaitWorker. cbn [wait_run wait_step]. rewrite W, A.
  unfold WorkerThread_pop. rewrite D. cbn [worker set_chunks work_queue].
  rewrite W, A.
  unfold IsTickCompleted, GetCompletedTick, MasterSemaphore.IsSignaled,
    MasterSemaphore.GetValue.
  rewrite Z.leb_refl. eexists. split; [reflexivity|].
  cbn [worker gpu master_semaphore set_chunks].
  split; [now rewrite W|]. split; [exact G|]. split; [exact M|].
  unfold pending. intros N. apply app_eq_nil in N. destruct N as (_ & N).
  apply Empty_commands in N. congruence.
Qed.

Lemma WaitWorker_returns_early_witness :
  exists s',
    WaitWorker [WorkerPops] (None, Record_ (Closure 1) fresh)
    = Some (Some {| commands := [Closure 1]; submit := false |}, s') /\
    executed (worker s') = [].
Proof.
  destruct (WaitWorker_returns_early (Record_ (Closure 1) fresh))
    as (s' & Wt & Ex & _); try reflexivity; [constructor|].
  exists s'. split; [exact Wt|exact Ex].
Defined.

(* ================================================================== *)
(** * Further properties of the scheduler: Finish as a full wait *)
(* ================================================================== *)

(** The worker and the GPU bring no tick into flight. *)
Lemma step_below v e s :
  is_env e = true ->
  (alive (worker s) = true -> Forall (fun x => x <= v) (timeline s)) ->
  alive (worker (fst (step e s))) = true ->
  Forall (fun x => x <= v) (timeline (fst (step e s))).
Proof.
  intros Env U A'.
  assert (A : alive (worker s) = true).
  { apply (run_alive_back [e] s). rewrite run_cons. exact A'. }
  specialize (U A). rewrite (step_alive e s A) in *.
  destruct e as [c | r |]; [discriminate | |]; cbn [fst] in *.
  - destruct (WorkerThread_turn_cases r s)
      as [[_ E] | (work & rest & Q & M & _ & C & Q' & Cases)].
    + simpl in E. now rewrite E.
    + destruct Cases as [(_ & E & S & _) | (D & _)];
        [|rewrite D in A'; discriminate].
      destruct (worker_executes_frame _ _ _ _ Q C Q' E S) as (_ & F & _).
      unfold timeline in *. now rewrite M, F.
  - destruct (Gpu_retire_cases s)
      as [[_ E] | (v0 & rest & S & Mg & _ & S' & _ & _ & P & _)].
    + simpl in E. now rewrite E.
    + unfold timeline, in_flight in *. rewrite Mg, S', P. rewrite S in U.
      now apply Forall_cons_iff in U.
Qed.

Lemma run_below v evs :
  forall s,
    Forall (fun e => is_env e = true) evs ->
    (alive (worker s) = true -> Forall (fun x => x <= v) (timeline s)) ->
    alive (worker (fst (run evs s))) = true ->
    Forall (fun x => x <= v) (timeline (fst (run evs s))).
Proof.
  induction evs as [|e evs IH]; intros s F U A; [now apply U|].
  apply Forall_cons_iff in F. destruct F as (Fe & F).
  rewrite run_cons in *. cbn [fst] in *.
  apply IH; [exact F | | exact A].
  intros A1. now apply step_below.
Qed.

(** X14.  [Finish] is a full wait.  When it returns nothing is pending and
    nothing is left on the queue of the device: every command recorded
    before the call has been executed, followed by the end of the open
    render pass and the submission, every submission has been retired, and
    the completed tick is the tick of this submission, the one
    [GetSubmitTick] gave before the call. *)
Theorem Finish_waits_for_all (sg wt : Z) (during_wait : list Event)
    (s s' : Scheduler.t) :
  wf s ->
  Finish sg wt during_wait s = Some s' ->
  pending s' = [] /\
  submitted (gpu s') = [] /\
  GetCompletedTick s' = GetSubmitTick s /\
  alive (worker s') = true /\
  executed (worker s')
  = program_order s ++ EndRenderPass_commands s
    ++ [SubmitCmd sg wt (GetSubmitTick s)].
Proof.
  intros W. pose proof (wf_inv s W) as I.
  assert (R : reserve_reset s) by apply W.
  assert (B : horizon s < u64_modulus).
  { rewrite (wf_horizon s W). apply W. }
  pose proof (waiting_start sg wt s I B) as (Wt & _).
  pose proof (SubmitExecution_spec sg wt s R)
    as (T & (new0 & _ & T0 & P) & _ & Wk & G & M & _).
  pose proof (SubmitExecution_exact sg wt s R) as (Px & _).
  unfold Finish, GetSubmitTick, MasterSemaphore.PeekNextTick.
  destruct (SubmitExecution sg wt s) as [v s2]. cbn [fst snd] in *. subst v.
  set (v := MasterSemaphore.current_tick (master_semaphore s)) in *.
  assert (U : alive (worker s2) = true -> Forall (fun x => x <= v) (timeline s2)).
  { intros _. destruct W as (_ & F & _).
    unfold timeline, in_flight in *. rewrite M, G, P.
    cbn [MasterSemaphore.NextTick snd MasterSemaphore.gpu_tick].
    rewrite !submit_ticks_app, T0. cbn [submit_ticks app].
    apply Forall_cons_iff in F. destruct F as (F0 & F).
    constructor; [fold v in F0; lia|].
    rewrite app_assoc. apply Forall_app. split.
    - eapply Forall_impl; [|exact F]. cbv beta. intros x Hx. fold v in Hx. lia.
    - repeat constructor. lia. }
  pose proof (run_waiting v (program_order s2) _ s2
                (filter_is_env during_wait) Wt) as Wt3.
  set (s3 := fst (run (filter is_env during_wait) s2)) in *.
  destruct (IsTickCompleted s3 v) eqn:Done; [|discriminate].
  intros [= <-].
  pose proof (waiting_done_alive _ _ _ Wt3 Done) as A3.
  pose proof (waiting_done _ _ _ Wt3 Done) as Ex.
  pose proof (run_below v _ s2 (filter_is_env during_wait) U A3) as B3.
  fold s3 in B3.
  unfold waiting in Wt3. rewrite A3 in Wt3. destruct Wt3 as (PO & SS & Last).
  unfold IsTickCompleted, MasterSemaphore.IsSignaled in Done.
  apply Z.leb_le in Done.
  assert (Pn : pending s3 = []).
  { destruct Last as [Nil | (pre & sg' & wt' & L)]; [exact Nil|].
    pose proof (timeline_above s3 v SS (in_flight_last _ _ _ _ _ L)). lia. }
  assert (Sb : submitted (gpu s3) = []).
  { destruct (submitted (gpu s3)) as [|x l] eqn:Sx; [reflexivity|].
    exfalso. unfold timeline, in_flight in SS, B3. rewrite Sx in SS, B3.
    apply StronglySorted_inv in SS. destruct SS as (_ & Lt).
    apply Forall_cons_iff in Lt. destruct Lt as (Lx & _).
    apply Forall_cons_iff in B3. destruct B3 as (_ & B3).
    apply Forall_cons_iff in B3. destruct B3 as (Bx & _). cbn [app] in *. lia. }
  assert (Gt : MasterSemaphore.gpu_tick (master_semaphore s3) = v).
  { unfold timeline in B3. apply Forall_cons_iff in B3. destruct B3 as (B0 & _).
    lia. }
  unfold AllocateNewContext, GetCompletedTick, MasterSemaphore.GetValue.
  assert (N : forall x, pending (NotifySegment true x) = pending x /\
                        gpu (NotifySegment true x) = gpu x /\
                        master_semaphore (NotifySegment true x) = master_semaphore x)
    by (intros x; unfold NotifySegment; now destruct (query_cache x)).
  destruct (N s3) as (N1 & N2 & N3).
  rewrite N1, N2, N3, NotifySegment_worker.
  split; [exact Pn|]. split; [exact Sb|]. split; [exact Gt|].
  split; [exact A3|].
  rewrite Ex. unfold program_order. now rewrite Wk, Px, app_assoc.
Qed.

Lemma Finish_waits_for_all_witness :
  wf (fst (run recording fresh)) /\
  exists s',
    Finish 0 0 [WorkerTurn VK_SUCCESS; WorkerTurn VK_SUCCESS; GpuRetires]
      (fst (run recording fresh)) = Some s' /\
    pending s' = [] /\ submitted (gpu s') = [] /\ GetCompletedTick s' = 1.
Proof.
  assert (W : wf (fst (run recording fresh))).
  { apply wf_reachable; [|reflexivity]. vm_compute. reflexivity. }
  split; [exact W|].
  destruct (Finish 0 0 [WorkerTurn VK_SUCCESS; WorkerTurn VK_SUCCESS; GpuRetires]
              (fst (run recording fresh))) as [s'|] eqn:F;
    [|vm_compute in F; discriminate F].
  exists s'. split; [reflexivity|].
  destruct (Finish_waits_for_all 0 0
              [WorkerTurn VK_SUCCESS; WorkerTurn VK_SUCCESS; GpuRetires]
              (fst (run recording fresh)) s' W F) as (P & S & G & _).
  split; [exact P|]. split; [exact S|]. rewrite G. reflexivity.
Defined.

(* ================================================================== *)
(** * Further properties of the fences *)
(* ================================================================== *)

(** The timeline never goes back. *)
Lemma step_completed_mono e s :
  inv s ->
  MasterSemaphore.gpu_tick (master_semaphore s)
  <= MasterSemaphore.gpu_tick (master_semaphore (fst (step e s))).
Proof.
  intros I. unfold step. destruct (alive (worker s)) eqn:A; [|cbn [fst]; lia].
  assert (RR : reserve_reset s) by apply I.
  destruct e as [c | r |]; cbn [fst].
  - destruct (is_flush (Producer c)) eqn:F.
    + destruct c; try discriminate. cbn [call].
      destruct (Flush_spec signal_semaphore wait_semaphore s RR)
        as (_ & _ & _ & _ & M & _).
      destruct (Flush signal_semaphore wait_semaphore s) as [tick s1].
      cbn [fst snd] in *. rewrite M. cbn. lia.
    + destruct (call_records c s RR F) as (new & (_ & _ & _ & M & _) & _).
      rewrite M. lia.
  - destruct (WorkerThread_turn_cases r s)
      as [[_ E] | (work & rest & _ & M & _)].
    + simpl in E. rewrite E. lia.
    + rewrite M. lia.
  - destruct (Gpu_retire_cases s)
      as [[_ E] | (v & rest & S & Mg & _)].
    + simpl in E. rewrite E. lia.
    + rewrite Mg. destruct I as (_ & _ & _ & _ & _ & AL).
      destruct (AL A) as (SS & _).
      apply Z.lt_le_incl.
      apply (timeline_above s v SS). unfold in_flight. rewrite S. now left.
Qed.

Lemma run_completed_mono evs :
  forall s,
    inv s ->
    horizon s + Z.of_nat (flushes evs) <= u64_modulus ->
    MasterSemaphore.gpu_tick (master_semaphore s)
    <= MasterSemaphore.gpu_tick (master_semaphore (fst (run evs s))).
Proof.
  induction evs as [|e evs IH]; intros s I NW; [cbn [run fst]; lia|].
  rewrite run_cons. cbn [fst]. rewrite flushes_cons in NW.
  assert (N0 : 0 <= Z.of_nat (flushes evs)) by lia.
  destruct (step_inv e s I) as (I1 & _ & _ & _ & _ & C1); [lia|].
  cbv beta in C1.
  pose proof (step_completed_mono e s I) as M1.
  specialize (IH _ I1). lia.
Qed.

(** X15.  What is complete stays complete.  Along every schedule that
    does not exhaust the tick counter the completed tick never decreases, a
    tick that [IsTickCompleted] reports complete is reported complete ever
    after, and a fence that [IsSignaled] reports signaled stays signaled. *)
Theorem signaled_stays_signaled (evs : list Event) (s : Scheduler.t) :
  wf s ->
  MasterSemaphore.current_tick (master_semaphore s)
    + Z.of_nat (flushes evs) < u64_modulus ->
  let s' := fst (run evs s) in
  GetCompletedTick s <= GetCompletedTick s' /\
  (forall tick, IsTickCompleted s tick = true -> IsTickCompleted s' tick = true) /\
  (forall f, Fence.IsSignaled f s = true -> Fence.IsSignaled f s' = true) /\
  (forall fence, Fence.IsFenceSignaled fence s = true ->
                 Fence.IsFenceSignaled fence s' = true).
Proof.
  intros W NW s'. rewrite <- (wf_horizon s W) in NW.
  pose proof (run_completed_mono evs s (wf_inv s W) (Z.lt_le_incl _ _ NW)) as M.
  fold s' in M.
  assert (T : forall tick, IsTickCompleted s tick = true ->
                           IsTickCompleted s' tick = true).
  { intros tick. unfold IsTickCompleted, MasterSemaphore.IsSignaled.
    rewrite !Z.leb_le. lia. }
  assert (F : forall f, Fence.IsSignaled f s = true -> Fence.IsSignaled f s' = true).
  { intros f. unfold Fence.IsSignaled.
    destruct (Fence.IsStubbed f); [auto|].
    destruct (Fence.wait_tick f =? 0); [auto|]. apply T. }
  split; [exact M|]. split; [exact T|]. split; [exact F|].
  intros [f|]; [apply F|auto].
Qed.

Lemma signaled_stays_signaled_witness :
  wf (fst (run three_flushes fresh)) /\
  Fence.IsSignaled {| Fence.is_stubbed := false; Fence.wait_tick := 1 |}
    (fst (run [Producer (CallFlush 0 0); GpuRetires]
              (fst (run three_flushes fresh)))) = true.
Proof.
  assert (W : wf (fst (run three_flushes fresh))).
  { apply wf_reachable; [|reflexivity]. vm_compute. reflexivity. }
  split; [exact W|].
  assert (NW : MasterSemaphore.current_tick
                 (master_semaphore (fst (run three_flushes fresh)))
               + Z.of_nat (flushes [Producer (CallFlush 0 0); GpuRetires])
               < u64_modulus) by (vm_compute; reflexivity).
  destruct (signaled_stays_signaled [Producer (CallFlush 0 0); GpuRetires]
              (fst (run three_flushes fresh)) W NW) as (_ & _ & F & _).
  apply F. reflexivity.
Defined.

(** X16.  [Wait] and [IsSignaled] agree but for a fence never queued.
    Once [Wait] has returned, a fence that is stubbed or was queued with a
    tick other than zero reports itself signaled.  A fence that is not
    stubbed and whose tick is zero, as before any [Queue], never reports
    itself signaled, whatever the scheduler has completed, although its
    [Wait] has returned. *)
Theorem Wait_then_IsSignaled (f : Fence.InnerFence) (s : Scheduler.t) :
  Fence.wait_over f s = true ->
  Fence.IsSignaled f s
  = Fence.is_stubbed f || negb (Fence.wait_tick f =? 0).
Proof.
  unfold Fence.wait_over, Fence.Wait, Fence.IsSignaled, Fence.IsStubbed.
  destruct (Fence.is_stubbed f); [reflexivity|].
  destruct (Fence.wait_tick f =? 0); [reflexivity|]. auto.
Qed.

Lemma Wait_then_IsSignaled_witness :
  Fence.wait_over (Fence.create false) fresh = true /\
  Fence.IsSignaled (Fence.create false) fresh = false /\
  Fence.wait_over {| Fence.is_stubbed := false; Fence.wait_tick := 1 |}
                  (fst (run three_flushes fresh)) = true /\
  Fence.IsSignaled {| Fence.is_stubbed := false; Fence.wait_tick := 1 |}
                   (fst (run three_flushes fresh)) = true.
Proof.
  split; [reflexivity|].
  split; [exact (Wait_then_IsSignaled (Fence.create false) fresh eq_refl)|].
  split; [reflexivity|].
  exact (Wait_then_IsSignaled {| Fence.is_stubbed := false; Fence.wait_tick := 1 |}
           (fst (run three_flushes fresh)) eq_refl).
Defined.

(* ================================================================== *)
(** * Further properties of the memory allocator *)
(* ================================================================== *)

Section MemoryAllocatorFurther.

Import MemoryAllocator.

Lemma for_each_type_calls props indices :
  forall calls,
    for_each_type props note_call indices calls
    = calls ++
      map (fun i => (i, memory_heap props (heapIndex (memory_type props i))))
          (filter (fun i => is_device_local (memory_type props i) &&
                            is_host_visible (memory_type props i))
                  indices).
Proof.
  induction indices as [|i rest IH]; intros calls; cbn [for_each_type filter map].
  - now rewrite app_nil_r.
  - destruct (is_device_local (memory_type props i) &&
              is_host_visible (memory_type props i)).
    + rewrite IH. unfold note_call. now rewrite <- app_assoc.
    + apply IH.
Qed.

Lemma sorted_indices a n : StronglySorted Z.lt (map Z.of_nat (seq a n)).
Proof.
  revert a. induction n as [|n IH]; intros a; cbn [seq map]; constructor.
  - apply IH.
  - apply Forall_forall. intros x Hx. apply in_map_iff in Hx.
    destruct Hx as (k & <- & Hk). apply in_seq in Hk. lia.
Qed.

Lemma sorted_filter (p : Z -> bool) l :
  StronglySorted Z.lt l -> StronglySorted Z.lt (filter p l).
Proof.
  induction 1 as [|a l S IH F]; cbn [filter]; [constructor|].
  destruct (p a); [|exact IH]. constructor; [exact IH|].
  apply Forall_forall. intros x Hx. apply filter_In in Hx.
  rewrite Forall_forall in F. now apply F.
Qed.

(** X17.  [ForEachDeviceLocalHostVisibleHeap] calls its callback once for
    each memory type below [memoryTypeCount] that is device-local and
    host-visible, in increasing order of the index, with the heap that the
    type names, and for no other type. *)
Theorem ForEachDeviceLocalHostVisibleHeap_calls (device : Device) :
  let props := GetMemoryProperties device in
  let calls := ForEachDeviceLocalHostVisibleHeap device note_call [] in
  StronglySorted Z.lt (map fst calls) /\
  forall i heap,
    In (i, heap) calls <->
    0 <= i < memoryTypeCount props /\
    is_device_local (memory_type props i) = true /\
    is_host_visible (memory_type props i) = true /\
    heap = memory_heap props (heapIndex (memory_type props i)).
Proof.
  intros props calls. subst calls. unfold ForEachDeviceLocalHostVisibleHeap.
  fold props. rewrite for_each_type_calls. cbn [app]. split.
  - rewrite map_map. cbn [fst]. rewrite map_id.
    apply sorted_filter, sorted_indices.
  - intros i heap. rewrite in_map_iff. split.
    + intros (j & E & Hj). injection E as -> <-.
      apply filter_In in Hj. destruct Hj as (Hj & B).
      apply andb_prop in B. destruct B as (B1 & B2).
      apply in_map_iff in Hj. destruct Hj as (k & <- & Hk).
      apply in_seq in Hk. repeat split; auto; lia.
    + intros (Hi & B1 & B2 & ->). exists i. split; [reflexivity|].
      apply filter_In. split; [|now rewrite B1, B2].
      apply in_map_iff. exists (Z.to_nat i). split; [lia|].
      apply in_seq. lia.
Qed.

(** X18.  The filter of the Stream path undoes itself at the bound.  The
    mask handed to the allocator library for a Stream buffer is zero, which
    the library reads as every memory type, exactly when a debugging tool is
    attached and each of the 32 memory types is device-local and
    host-visible on a heap of at most 256 MiB; the types the constructor
    disallowed are then all accepted. *)
Theorem stream_mask_zero (device : Device) :
  let stream_mask := CreateBuffer_memoryTypeBits (create device) Stream in
  (stream_mask = 0 <->
   HasDebuggingToolAttached device = true /\
   forall i, 0 <= i < VK_MAX_MEMORY_TYPES ->
             small_device_local_host_visible device i = true) /\
  (stream_mask = 0 -> forall i, type_accepted stream_mask i = true).
Proof.
  intros stream_mask. unfold VK_MAX_MEMORY_TYPES.
  assert (B : forall i, 0 <= i < 32 ->
              Z.testbit stream_mask i
              = negb (HasDebuggingToolAttached device &&
                      small_device_local_host_visible device i)).
  { intros i Hi. subst stream_mask. unfold CreateBuffer_memoryTypeBits.
    cbn [MemoryUsage_eqb].
    rewrite testbit_not_u32 by exact Hi. now rewrite disallowed_bits. }
  split; [split|].
  - intros Z0.
    assert (A : forall i, 0 <= i < 32 ->
                HasDebuggingToolAttached device &&
                small_device_local_host_visible device i = true).
    { intros i Hi. specialize (B i Hi). rewrite Z0, Z.bits_0 in B.
      now destruct (HasDebuggingToolAttached device &&
                    small_device_local_host_visible device i). }
    split.
    + destruct (andb_prop _ _ (A 0 ltac:(lia))) as (D & _). exact D.
    + intros i Hi. now destruct (andb_prop _ _ (A i Hi)).
  - intros (D & A). apply Z.bits_inj'. intros n Hn. rewrite Z.bits_0.
    destruct (Z_lt_le_dec n 32) as [Lt|Ge].
    + rewrite B by lia. rewrite D, A by lia. reflexivity.
    + subst stream_mask. unfold CreateBuffer_memoryTypeBits.
      cbn [MemoryUsage_eqb]. unfold not_u32, to_u32, u32_modulus.
      apply Z.mod_pow2_bits_high. lia.
  - intros Z0 i. unfold type_accepted. now rewrite Z0.
Qed.

Example crowded_device_mask :
  disallowed_memory_types_for_stream (create crowded_device) = 4294967295 /\
  CreateBuffer_memoryTypeBits (create crowded_device) Stream = 0 /\
  type_accepted (CreateBuffer_memoryTypeBits (create crowded_device) Stream) 5
  = true.
Proof. repeat split. Qed.

(** X19.  What [CreateBuffer] asks of the allocator library, by usage:
    always an allocation within the budget and one of the automatic memory
    usages, the host-preferring one for Upload and Download; a mapping for
    every usage but DeviceLocal, and with it one host access pattern,
    sequential writes for Upload and Stream and random access for Download,
    and host-coherent memory as the preference; for DeviceLocal no mapping,
    no host access and no preference.  Nothing is ever required. *)
Theorem CreateBuffer_request (a : t) (usage : MemoryUsage) :
  let ci := CreateBuffer_alloc_ci a usage in
  let mapped := Z.testbit (ci_flags ci) 2 in
  let sequential := Z.testbit (ci_flags ci) 10 in
  let random := Z.testbit (ci_flags ci) 11 in
  Z.testbit (ci_flags ci) 8 = true /\
  mapped = negb (MemoryUsage_eqb usage DeviceLocal) /\
  sequential = (MemoryUsage_eqb usage Upload || MemoryUsage_eqb usage Stream) /\
  random = MemoryUsage_eqb usage Download /\
  mapped = xorb sequential random /\
  ci_usage ci
  = (if MemoryUsage_eqb usage Upload || MemoryUsage_eqb usage Download
     then VMA_MEMORY_USAGE_AUTO_PREFER_HOST
     else VMA_MEMORY_USAGE_AUTO_PREFER_DEVICE) /\
  ci_preferredFlags ci
  = (if mapped then VK_MEMORY_PROPERTY_HOST_COHERENT_BIT else 0) /\
  ci_requiredFlags ci = 0 /\
  ci_flags ci
  = Z.lor VMA_ALLOCATION_CREATE_WITHIN_BUDGET_BIT
      (Z.lor (if mapped then VMA_ALLOCATION_CREATE_MAPPED_BIT else 0)
         (Z.lor (if sequential
                 then VMA_ALLOCATION_CREATE_HOST_ACCESS_SEQUENTIAL_WRITE_BIT
                 else 0)
                (if random
                 then VMA_ALLOCATION_CREATE_HOST_ACCESS_RANDOM_BIT
                 else 0))).
Proof. destruct usage; repeat split. Qed.

End MemoryAllocatorFurther.

(* ================================================================== *)
(** * Further properties of the present manager *)
(* ================================================================== *)

Section PresentManagerFurther.

Import PresentManager.

Variable drv : Driver.

Local Abbreviation count := (count_occ DriverCall_eq_dec).

Lemma not_in_snoc (log : Log) (c : DriverCall) :
  ~ In ReportLoss log -> c <> ReportLoss -> ~ In ReportLoss (log ++ [c]).
Proof.
  intros N D H. apply in_app_or in H. destruct H as [H | [H | []]]; auto.
Qed.

Lemma RecreateSwapchain_unreported log :
  ~ In ReportLoss log ->
  unreported drv (fun _ => True) (RecreateSwapchain drv log).
Proof.
  intros N. unfold RecreateSwapchain, ask.
  destruct (drv SwapchainCreate (count log SwapchainCreate)) as [b|r] eqn:D;
    (split; [apply not_in_snoc; [exact N|discriminate]|]); cbn; auto.
  exists log, SwapchainCreate. repeat split; [discriminate|exact D].
Qed.

Lemma acquire_loop_unreported fuel :
  forall log,
    ~ In ReportLoss log ->
    unreported drv
               (fun log' =>
                  exists log0,
                    log' = log0 ++ [AcquireNextImage] /\
                    drv AcquireNextImage (count log0 AcquireNextImage) = Ok false)
               (acquire_loop fuel drv log).
Proof.
  induction fuel as [|fuel IH]; intros log N; cbn [acquire_loop].
  - now split.
  - unfold ask.
    assert (N1 : ~ In ReportLoss (log ++ [AcquireNextImage]))
      by (apply not_in_snoc; [exact N|discriminate]).
    destruct (drv AcquireNextImage (count log AcquireNextImage)) as [[|]|r] eqn:D.
    + pose proof (RecreateSwapchain_unreported _ N1) as (N2 & O2).
      destruct (RecreateSwapchain drv (log ++ [AcquireNextImage]))
        as [[u | r |] log2]; cbn [fst snd] in *.
      * now apply IH.
      * now split.
      * now split.
    + split; [exact N1|]. cbn. now exists log.
    + split; [exact N1|]. cbn. exists log, AcquireNextImage.
      repeat split; [discriminate|exact D].
Qed.

Lemma CopyToSwapchainImpl_unreported fuel log :
  ~ In ReportLoss log ->
  unreported drv (ends_presented drv) (CopyToSwapchainImpl fuel drv log).
Proof.
  intros N. unfold CopyToSwapchainImpl.
  pose proof (acquire_loop_unreported fuel log N) as (N1 & O1).
  destruct (acquire_loop fuel drv log) as [[u | r |] log1]; cbn [fst snd] in *;
    [|now split|now split].
  destruct O1 as (log0 & -> & A).
  unfold ask.
  assert (N2 : ~ In ReportLoss ((log0 ++ [AcquireNextImage]) ++ [QueueSubmit]))
    by (apply not_in_snoc; [exact N1|discriminate]).
  destruct (drv QueueSubmit (count (log0 ++ [AcquireNextImage]) QueueSubmit))
    as [b1|r] eqn:S.
  - assert (N3 : ~ In ReportLoss
                   (((log0 ++ [AcquireNextImage]) ++ [QueueSubmit])
                      ++ [SwapchainPresent]))
      by (apply not_in_snoc; [exact N2|discriminate]).
    destruct (drv SwapchainPresent
                (count ((log0 ++ [AcquireNextImage]) ++ [QueueSubmit])
                       SwapchainPresent)) as [b2|r] eqn:P.
    + split; [exact N3|]. cbn. exists log0, b1, b2.
      rewrite <- !app_assoc. split; [reflexivity|]. split; [exact A|].
      rewrite count_snoc_other in S by discriminate.
      do 2 rewrite count_snoc_other in P by discriminate. auto.
    + split; [exact N3|]. cbn. eexists _, SwapchainPresent.
      repeat split; [discriminate|exact P].
  - split; [exact N2|]. cbn. eexists _, QueueSubmit.
    repeat split; [discriminate|exact S].
Qed.

Lemma try_block_unreported fuel flag log :
  ~ In ReportLoss log ->
  unreported drv (ends_presented drv) (fst (try_block fuel drv flag log)).
Proof.
  intros N. unfold try_block. destruct flag.
  - unfold ask.
    assert (N1 : ~ In ReportLoss (log ++ [CreateSurface]))
      by (apply not_in_snoc; [exact N|discriminate]).
    destruct (drv CreateSurface (count log CreateSurface)) as [b|r] eqn:D.
    + pose proof (RecreateSwapchain_unreported _ N1) as (N2 & O2).
      destruct (RecreateSwapchain drv (log ++ [CreateSurface]))
        as [[u | r |] log2]; cbn [fst snd] in *.
      * pose proof (CopyToSwapchainImpl_unreported fuel log2 N2) as U.
        now destruct (CopyToSwapchainImpl fuel drv log2).
      * now split.
      * now split.
    + split; [exact N1|]. cbn. exists log, CreateSurface.
      repeat split; [discriminate|exact D].
  - pose proof (CopyToSwapchainImpl_unreported fuel log N) as U.
    now destruct (CopyToSwapchainImpl fuel drv log).
Qed.

(** How [CopyToSwapchain] can end. *)
Lemma CopyToSwapchain_loop_ends fuel :
  forall flag log,
    ~ In ReportLoss log ->
    match CopyToSwapchain_loop fuel drv flag log with
    | (Returned _, log') => ~ In ReportLoss log' /\ ends_presented drv log'
    | (Threw r, log') =>
        (~ In ReportLoss log' /\
         raised_by_last_call drv r log' /\
         (r = VK_ERROR_DEVICE_LOST ->
          exists log0, log' = log0 ++ [SwapchainCreate])) \/
        (r = VK_ERROR_DEVICE_LOST /\
         exists log0,
           log' = log0 ++ [ReportLoss] /\
           ~ In ReportLoss log0 /\
           raised_by_last_call drv r log0)
    | (OutOfFuel, log') => ~ In ReportLoss log'
    end.
Proof.
  induction fuel as [|fuel IH]; intros flag log N; cbn [CopyToSwapchain_loop];
    [exact N|].
  pose proof (try_block_unreported (S fuel) flag log N) as (N1 & O1).
  destruct (try_block (S fuel) drv flag log) as [[out log1] flag1].
  cbn [fst snd] in *.
  destruct out as [u | result |]; [now split | | exact N1].
  destruct (result =? VK_ERROR_SURFACE_LOST_KHR) eqn:SL; [now apply IH|].
  destruct ((result =? VK_ERROR_OUT_OF_DATE_KHR) || (result =? VK_SUBOPTIMAL_KHR))
    eqn:OD.
  - pose proof (RecreateSwapchain_unreported _ N1) as (N2 & O2).
    unfold RecreateSwapchain, ask in *.
    destruct (drv SwapchainCreate (count log1 SwapchainCreate)) as [b|r'];
      cbn [fst snd] in *.
    + now apply IH.
    + left. split; [exact N2|]. split; [exact O2|]. intros _. now exists log1.
  - destruct (Z.eqb_spec result VK_ERROR_DEVICE_LOST) as [E|E].
    + right. split; [exact E|]. now exists log1.
    + left. split; [exact N1|]. split; [exact O1|]. intros E'. contradiction.
Qed.

(** X20.  [CopyToSwapchain] returns only once an attempt has gone through:
    the last three calls it made are an acquisition that asked for no new
    swapchain, the queue submit and the present, each answered with
    success; and it has reported no loss of the device. *)
Theorem CopyToSwapchain_returns_presented (fuel : nat) (log : Log) :
  CopyToSwapchain fuel drv = (Returned tt, log) ->
  ends_presented drv log /\ ~ In ReportLoss log.
Proof.
  unfold CopyToSwapchain. intros E.
  pose proof (CopyToSwapchain_loop_ends fuel false [] (fun H => H)) as L.
  rewrite E in L. now destruct L.
Qed.

(** X21.  The exception that leaves [CopyToSwapchain] is the one the driver
    raised last, never another.  When an attempt raised
    [VK_ERROR_DEVICE_LOST], [ReportLoss] is called once, as the last call
    before the exception is thrown again; [ReportLoss] is called on no other
    occasion, so that a device lost while the handler recreates the
    swapchain leaves unreported. *)
Theorem CopyToSwapchain_throws_last (fuel : nat) (r : Z) (log : Log) :
  CopyToSwapchain fuel drv = (Threw r, log) ->
  (~ In ReportLoss log /\
   raised_by_last_call drv r log /\
   (r = VK_ERROR_DEVICE_LOST -> exists log0, log = log0 ++ [SwapchainCreate])) \/
  (r = VK_ERROR_DEVICE_LOST /\
   exists log0,
     log = log0 ++ [ReportLoss] /\
     ~ In ReportLoss log0 /\
     raised_by_last_call drv r log0).
Proof.
  unfold CopyToSwapchain. intros E.
  pose proof (CopyToSwapchain_loop_ends fuel false [] (fun H => H)) as L.
  now rewrite E in L.
Qed.

End PresentManagerFurther.

(* ================================================================== *)
(** * The copy to the swapchain: recovery *)
(* ================================================================== *)

Section PresentManagerRecovery.

Import PresentManager.

Variable drv : Driver.

Local Abbreviation count := (count_occ DriverCall_eq_dec).

Lemma RecreateSwapchain_created log :
  swapchain_created drv ->
  RecreateSwapchain drv log = (Returned tt, log ++ [SwapchainCreate]).
Proof.
  intros R. unfold RecreateSwapchain, ask.
  destruct (R (count log SwapchainCreate)) as (b & ->). reflexivity.
Qed.

(** No condition the present manager recovers from leaves the loop, as
    long as the swapchain can be created. *)
Lemma CopyToSwapchain_loop_no_escape :
  swapchain_created drv ->
  forall fuel flag log r log',
    CopyToSwapchain_loop fuel drv flag log = (Threw r, log') ->
    transient r = false.
Proof.
  intros R. induction fuel as [|fuel IH]; intros flag log r log';
    cbn [CopyToSwapchain_loop]; [discriminate|].
  destruct (try_block (S fuel) drv flag log) as [[out log1] flag1].
  destruct out as [u | result |]; [discriminate | | discriminate].
  destruct (result =? VK_ERROR_SURFACE_LOST_KHR) eqn:SL; [apply IH|].
  destruct ((result =? VK_ERROR_OUT_OF_DATE_KHR) || (result =? VK_SUBOPTIMAL_KHR))
    eqn:OD.
  - rewrite RecreateSwapchain_created by exact R. apply IH.
  - assert (T : transient result = false)
      by (unfold transient; now rewrite SL, <- orb_assoc, OD).
    destruct (result =? VK_ERROR_DEVICE_LOST); intros [= <- _]; exact T.
Qed.

Ltac decide_calls :=
  repeat match goal with
         | |- context [DriverCall_eq_dec ?a ?b] =>
             destruct (DriverCall_eq_dec a b); try congruence
         end.

Lemma answers_snoc p c d log :
  answers drv p c (log ++ [d])
  = (answers drv p c log
     + if DriverCall_eq_dec d c
       then (if p (drv c (count log c)) then 1 else 0)
       else 0)%nat.
Proof.
  unfold answers. rewrite count_occ_app. cbn [count_occ].
  destruct (DriverCall_eq_dec d c) as [E|E].
  - rewrite Nat.add_1_r, seq_S, filter_app, length_app. cbn [filter Nat.add].
    now destruct (p (drv c (count log c))).
  - now rewrite !Nat.add_0_r.
Qed.

(** What one call adds to the counts of a log. *)
Lemma raised_snoc q d log :
  raised drv q (log ++ [d])
  = (raised drv q log
     + match d with
       | AcquireNextImage | QueueSubmit | SwapchainPresent =>
           if failed_with q (drv d (count log d)) then 1 else 0
       | _ => 0
       end)%nat.
Proof.
  unfold raised. rewrite !answers_snoc.
  destruct d; decide_calls; lia.
Qed.

Lemma asked_snoc d log :
  recreations_asked drv (log ++ [d])
  = (recreations_asked drv log
     + match d with
       | AcquireNextImage =>
           if asks_recreation (drv d (count log d)) then 1 else 0
       | _ => 0
       end)%nat.
Proof.
  unfold recreations_asked. rewrite answers_snoc.
  destruct d; decide_calls; lia.
Qed.

Lemma attempts_snoc d log :
  attempts drv (log ++ [d])
  = (attempts drv log
     + match d with
       | AcquireNextImage =>
           if asks_recreation (drv d (count log d)) then 0 else 1
       | _ => 0
       end)%nat.
Proof.
  unfold attempts. rewrite answers_snoc.
  destruct d; decide_calls; try lia.
  destruct (asks_recreation _); cbn; lia.
Qed.


Lemma adds_refl log : adds drv log log 0 0 0 0 None.
Proof. unfold adds, thrown_as. repeat split; intros; lia. Qed.

Lemma adds_trans a b c s1 c1 a1 t1 s2 c2 a2 t2 thrown :
  adds drv a b s1 c1 a1 t1 None -> adds drv b c s2 c2 a2 t2 thrown ->
  adds drv a c (s1 + s2) (c1 + c2) (a1 + a2) (t1 + t2) thrown.
Proof.
  intros (A1 & A2 & A3 & A4 & A5) (B1 & B2 & B3 & B4 & B5). unfold adds.
  split; [lia|]. split; [lia|]. split; [lia|]. split; [lia|].
  intros q. rewrite B5, A5. cbn [thrown_as]. lia.
Qed.

(** One call and what it adds. *)
Lemma adds_call d log :
  adds drv log (log ++ [d])
    (match d with CreateSurface => 1 | _ => 0 end)
    (match d with SwapchainCreate => 1 | _ => 0 end)
    (match d with
     | AcquireNextImage =>
         if asks_recreation (drv d (count log d)) then 1 else 0
     | _ => 0
     end)
    (match d with
     | AcquireNextImage =>
         if asks_recreation (drv d (count log d)) then 0 else 1
     | _ => 0
     end)
    (match d with
     | AcquireNextImage | QueueSubmit | SwapchainPresent =>
         match drv d (count log d) with
         | Fail r => Some r
         | Ok _ => None
         end
     | _ => None
     end).
Proof.
  unfold adds. rewrite asked_snoc, attempts_snoc, !count_occ_app.
  cbn [count_occ].
  split; [|split; [|split; [|split]]]; try reflexivity.
  - destruct d; decide_calls; lia.
  - destruct d; decide_calls; lia.
  - intros q. rewrite raised_snoc.
    destruct d; try reflexivity;
      unfold failed_with, thrown_as; now destruct (drv _ _).
Qed.


Ltac call_adds d log D :=
  let C := fresh "C" in
  pose proof (adds_call d log) as C; cbv iota in C; rewrite D in C;
  cbn [asks_recreation] in C.

Section Recreated.

Hypothesis recreation : recreation_succeeds drv.

Lemma acquire_loop_adds fuel :
  forall log out log',
    acquire_loop fuel drv log = (out, log') ->
    out <> OutOfFuel ->
    exists k, adds drv log log' 0 k k 1 (thrown_of out).
Proof.
  induction fuel as [|fuel IH]; intros log out log'; cbn [acquire_loop].
  - intros [= <- _] N. contradiction.
  - unfold ask.
    destruct (drv AcquireNextImage (count log AcquireNextImage))
      as [[|]|r] eqn:D.
    + rewrite (RecreateSwapchain_succeeds drv _ recreation). intros E N.
      destruct (IH _ _ _ E N) as (k & A).
      call_adds AcquireNextImage log D.
      pose proof (adds_call SwapchainCreate (log ++ [AcquireNextImage])) as C'.
      cbv iota in C'.
      exists (S k).
      exact (adds_trans _ _ _ _ _ _ _ _ _ _ _ _
               (adds_trans _ _ _ _ _ _ _ _ _ _ _ _ C C') A).
    + intros [= <- <-] _. exists O. call_adds AcquireNextImage log D. exact C.
    + intros [= <- <-] _. exists O. call_adds AcquireNextImage log D. exact C.
Qed.

Lemma CopyToSwapchainImpl_adds fuel log out log' :
  CopyToSwapchainImpl fuel drv log = (out, log') ->
  out <> OutOfFuel ->
  exists k, adds drv log log' 0 k k 1 (thrown_of out).
Proof.
  unfold CopyToSwapchainImpl.
  destruct (acquire_loop fuel drv log) as [out1 log1] eqn:L.
  destruct out1 as [u | r |].
  - destruct (acquire_loop_adds _ _ _ _ L) as (k & A); [discriminate|].
    cbn [thrown_of] in A. unfold ask.
    destruct (drv QueueSubmit (count log1 QueueSubmit)) as [b|r] eqn:D.
    + pose proof (adds_call QueueSubmit log1) as C. cbv iota in C.
      rewrite D in C.
      destruct (drv SwapchainPresent (count (log1 ++ [QueueSubmit]) SwapchainPresent))
        as [b'|r] eqn:D'; intros [= <- <-] _; exists k;
        pose proof (adds_call SwapchainPresent (log1 ++ [QueueSubmit])) as C';
        cbv iota in C'; rewrite D' in C';
        pose proof (adds_trans _ _ _ _ _ _ _ _ _ _ _ _
                      (adds_trans _ _ _ _ _ _ _ _ _ _ _ _ A C) C') as T;
        cbn [Nat.add] in T; rewrite !Nat.add_0_r in T; exact T.
    + intros [= <- <-] _. exists k.
      pose proof (adds_call QueueSubmit log1) as C. cbv iota in C.
      rewrite D in C.
      pose proof (adds_trans _ _ _ _ _ _ _ _ _ _ _ _ A C) as T.
      cbn [Nat.add] in T. rewrite !Nat.add_0_r in T. exact T.
  - intros [= <- <-] N. now apply (acquire_loop_adds fuel).
  - intros [= <- _] N. contradiction.
Qed.

Lemma try_block_adds fuel flag log out log' flag' :
  try_block fuel drv flag log = (out, log', flag') ->
  out <> OutOfFuel ->
  flag' = false /\
  exists k,
    adds drv log log' (if flag then 1 else 0) ((if flag then 1 else 0) + k) k 1
         (thrown_of out).
Proof.
  unfold try_block. destruct flag.
  - unfold ask. destruct (recreation (count log CreateSurface)) as ((b & ->) & _).
    rewrite (RecreateSwapchain_succeeds drv _ recreation).
    destruct (CopyToSwapchainImpl fuel drv _) as [out1 log1] eqn:I.
    intros [= <- <- <-] N. split; [reflexivity|].
    destruct (CopyToSwapchainImpl_adds _ _ _ _ I N) as (k & A). exists k.
    pose proof (adds_call CreateSurface log) as C. cbv iota in C.
    pose proof (adds_call SwapchainCreate (log ++ [CreateSurface])) as C'.
    cbv iota in C'.
    exact (adds_trans _ _ _ _ _ _ _ _ _ _ _ _
             (adds_trans _ _ _ _ _ _ _ _ _ _ _ _ C C') A).
  - destruct (CopyToSwapchainImpl fuel drv log) as [out1 log1] eqn:I.
    intros [= <- <- <-] N. split; [reflexivity|].
    destruct (CopyToSwapchainImpl_adds _ _ _ _ I N) as (k & A). now exists k.
Qed.

Lemma kinds_apart r : surface_lost r = true -> outdated r = false.
Proof.
  unfold surface_lost, outdated. intros E. apply Z.eqb_eq in E. now subst r.
Qed.

(** The loop keeps the counts balanced, and they are as said when it
    returns. *)
Lemma CopyToSwapchain_loop_recovered fuel :
  forall flag log log',
    balanced drv flag log ->
    CopyToSwapchain_loop fuel drv flag log = (Returned tt, log') ->
    recovered drv log'.
Proof.
  induction fuel as [|fuel IH]; intros flag log log' B;
    cbn [CopyToSwapchain_loop]; [discriminate|].
  destruct (try_block (S fuel) drv flag log) as [[out log1] flag1] eqn:T.
  destruct B as (B1 & B2 & B3). cbv zeta in B1, B2.
  destruct out as [u | r |]; [| |discriminate].
  - intros [= <-].
    destruct (try_block_adds _ _ _ _ _ _ T) as (_ & k & A1 & A2 & A3 & A4 & A5);
      [discriminate|].
    pose proof (A5 outdated) as Od. pose proof (A5 surface_lost) as Sl.
    cbn [thrown_of thrown_as] in Od, Sl. unfold recovered.
    destruct flag; lia.
  - destruct (try_block_adds _ _ _ _ _ _ T) as (-> & k & A1 & A2 & A3 & A4 & A5);
      [discriminate|].
    pose proof (A5 outdated) as Od. pose proof (A5 surface_lost) as Sl.
    cbn [thrown_of thrown_as] in Od, Sl.
    fold (surface_lost r). fold (outdated r).
    destruct (surface_lost r) eqn:S.
    + rewrite (kinds_apart r S) in Od. apply IH.
      unfold balanced. cbv zeta. destruct flag; lia.
    + destruct (outdated r) eqn:O.
      * rewrite (RecreateSwapchain_succeeds drv _ recreation). apply IH.
        unfold balanced. cbv zeta.
        rewrite asked_snoc, attempts_snoc, !raised_snoc, !count_occ_app.
        cbn [count_occ]. decide_calls. destruct flag; lia.
      * destruct (r =? VK_ERROR_DEVICE_LOST); discriminate.
Qed.


Section Settling.

Variable k : nat.
Hypothesis settled : settles k drv.
Hypothesis transients : only_transient drv.

Lemma unsettled_snoc d log :
  unsettled k (log ++ [d])
  = (unsettled k log
     - match d with
       | AcquireNextImage | QueueSubmit | SwapchainPresent =>
           if (count log d <? k)%nat then 1 else 0
       | _ => 0
       end)%nat.
Proof.
  unfold unsettled. rewrite !count_occ_app. cbn [count_occ].
  destruct d; decide_calls; try lia;
    match goal with
    | |- context [(?a <? ?b)%nat] => destruct (Nat.ltb_spec a b)
    end; lia.
Qed.

(** A call that goes wrong is one of the first [k] of its kind. *)
Lemma failing_unsettled d log r :
  (d = AcquireNextImage \/ d = QueueSubmit \/ d = SwapchainPresent) ->
  drv d (count log d) = Fail r ->
  (count log d <? k)%nat = true.
Proof.
  intros K T. apply Nat.ltb_lt.
  destruct (Nat.lt_ge_cases (count log d) k) as [L|G]; [exact L|].
  exfalso. destruct (settled _ G) as (A & (b & S) & (b' & P)).
  destruct K as [-> | [-> | ->]]; congruence.
Qed.

Lemma asking_unsettled log :
  drv AcquireNextImage (count log AcquireNextImage) = Ok true ->
  (count log AcquireNextImage <? k)%nat = true.
Proof.
  intros T. apply Nat.ltb_lt.
  destruct (Nat.lt_ge_cases (count log AcquireNextImage) k) as [L|G];
    [exact L|].
  exfalso. destruct (settled _ G) as (A & _). congruence.
Qed.

Lemma acquire_loop_settles fuel :
  forall log,
    (unsettled k log < fuel)%nat -> settling k log (acquire_loop fuel drv log).
Proof.
  induction fuel as [|fuel IH]; intros log F; [lia|].
  cbn [acquire_loop]. unfold ask.
  pose proof (unsettled_snoc AcquireNextImage log) as U. cbv iota in U.
  destruct (drv AcquireNextImage (count log AcquireNextImage))
    as [[|]|r] eqn:D.
  - rewrite (asking_unsettled log D) in U.
    rewrite (RecreateSwapchain_succeeds drv _ recreation).
    pose proof (unsettled_snoc SwapchainCreate (log ++ [AcquireNextImage])) as U'.
    cbv iota in U'. rewrite Nat.sub_0_r in U'.
    assert (P : (0 < unsettled k log)%nat).
    { pose proof (asking_unsettled log D) as L. apply Nat.ltb_lt in L.
      unfold unsettled. lia. }
    destruct (IH ((log ++ [AcquireNextImage]) ++ [SwapchainCreate])) as (L & O);
      [lia|].
    split; [lia|].
    destruct (fst (acquire_loop fuel drv _)) as [u | r |];
      [exact I | split; [apply O | destruct O; lia] | exact O].
  - split; cbn [fst snd]; [lia | exact I].
  - rewrite (failing_unsettled _ log r (or_introl eq_refl) D) in U.
    assert (P : (0 < unsettled k log)%nat).
    { pose proof (failing_unsettled _ log r (or_introl eq_refl) D) as L.
      apply Nat.ltb_lt in L. unfold unsettled. lia. }
    split; cbn [fst snd]; [lia|]. split; [|lia].
    exact (transients _ _ _ D).
Qed.

Lemma CopyToSwapchainImpl_settles fuel log :
  (unsettled k log < fuel)%nat ->
  settling k log (CopyToSwapchainImpl fuel drv log).
Proof.
  intros F. unfold CopyToSwapchainImpl.
  destruct (acquire_loop_settles fuel log F) as (L & O).
  destruct (acquire_loop fuel drv log) as [out log1]. cbn [fst snd] in *.
  destruct out as [u | r |]; [|now split|contradiction].
  unfold ask.
  pose proof (unsettled_snoc QueueSubmit log1) as U. cbv iota in U.
  destruct (drv QueueSubmit (count log1 QueueSubmit)) as [b|r] eqn:D.
  - pose proof (unsettled_snoc SwapchainPresent (log1 ++ [QueueSubmit])) as U'.
    cbv iota in U'.
    destruct (drv SwapchainPresent (count (log1 ++ [QueueSubmit]) SwapchainPresent))
      as [b'|r] eqn:D'.
    + split; cbn [fst snd]; [lia | exact I].
    + pose proof (failing_unsettled _ _ r (or_intror (or_intror eq_refl)) D')
        as T.
      rewrite T in U'. apply Nat.ltb_lt in T.
      rewrite count_occ_app in T. cbn [count_occ] in T. revert T. decide_calls.
      intros T.
      assert (P : (0 < unsettled k (log1 ++ [QueueSubmit]))%nat).
      { unfold unsettled. rewrite !count_occ_app. cbn [count_occ].
        decide_calls. lia. }
      split; cbn [fst snd]; [lia|]. split; [|lia].
      exact (transients _ _ _ D').
  - pose proof (failing_unsettled _ _ r (or_intror (or_introl eq_refl)) D) as T.
    rewrite T in U. apply Nat.ltb_lt in T.
    assert (P : (0 < unsettled k log1)%nat) by (unfold unsettled; lia).
    split; cbn [fst snd]; [lia|]. split; [|lia].
    exact (transients _ _ _ D).
Qed.

Lemma try_block_settles fuel flag log :
  (unsettled k log < fuel)%nat ->
  settling k log (fst (try_block fuel drv flag log)) /\
  snd (try_block fuel drv flag log) = false.
Proof.
  intros F. unfold try_block. destruct flag.
  - unfold ask. destruct (recreation (count log CreateSurface)) as ((b & ->) & _).
    rewrite (RecreateSwapchain_succeeds drv _ recreation).
    pose proof (unsettled_snoc CreateSurface log) as U. cbv iota in U.
    pose proof (unsettled_snoc SwapchainCreate (log ++ [CreateSurface])) as U'.
    cbv iota in U'. rewrite Nat.sub_0_r in U, U'.
    destruct (CopyToSwapchainImpl_settles fuel
                ((log ++ [CreateSurface]) ++ [SwapchainCreate])) as (L & O);
      [lia|].
    destruct (CopyToSwapchainImpl fuel drv _) as [out log1]. cbn [fst snd] in *.
    split; [|reflexivity]. split; cbn [fst snd]; [lia|].
    destruct out as [u | r |]; [exact I | split; [apply O | destruct O; lia] | exact O].
  - pose proof (CopyToSwapchainImpl_settles fuel log F) as S.
    destruct (CopyToSwapchainImpl fuel drv log) as [out log1].
    split; [exact S | reflexivity].
Qed.

Lemma CopyToSwapchain_loop_settles fuel :
  forall flag log,
    (unsettled k log < fuel)%nat ->
    exists log', CopyToSwapchain_loop fuel drv flag log = (Returned tt, log').
Proof.
  induction fuel as [|fuel IH]; intros flag log F; [lia|].
  cbn [CopyToSwapchain_loop].
  destruct (try_block_settles (S fuel) flag log F) as ((L & O) & Fl).
  destruct (try_block (S fuel) drv flag log) as [[out log1] flag1].
  cbn [fst snd] in *. subst flag1.
  destruct out as [[] | r |]; [now exists log1 | | contradiction].
  destruct O as (T & Lt).
  fold (surface_lost r). fold (outdated r).
  destruct (surface_lost r) eqn:S; [apply IH; lia|].
  assert (Od : outdated r = true).
  { unfold transient in T. fold (surface_lost r) in T. rewrite S in T.
    rewrite <- orb_assoc in T. exact T. }
  rewrite Od. rewrite (RecreateSwapchain_succeeds drv _ recreation).
  apply IH. rewrite unsettled_snoc. lia.
Qed.

End Settling.

End Recreated.


(** C3, as amended.  Each out-of-date or suboptimal condition that an
    attempt of [CopyToSwapchainImpl] raises, be it from the acquisition,
    the submit or the present, makes [CopyToSwapchain] create the swapchain
    anew once and attempt again, and each loss of the surface makes it
    create the surface and the swapchain anew and attempt again.  Provided
    creating the surface and the swapchain succeeds: when it returns, the
    last attempt has presented, the surface was created once for each
    surface loss, the swapchain once for each condition of either kind and
    once for each acquisition that asked for it, and the attempts are one
    more than the conditions; and it does return, with enough fuel, on every
    driver that raises nothing else and settles.  No such condition reaches
    the caller as long as the swapchain can be created. *)
Theorem CopyToSwapchain_recovers :
  (swapchain_created drv ->
   forall fuel r log,
     CopyToSwapchain fuel drv = (Threw r, log) -> transient r = false) /\
  (recreation_succeeds drv ->
   (forall fuel log,
       CopyToSwapchain fuel drv = (Returned tt, log) ->
       ends_presented drv log /\
       count log CreateSurface = raised drv surface_lost log /\
       count log SwapchainCreate
       = (recreations_asked drv log + raised drv outdated log
          + raised drv surface_lost log)%nat /\
       attempts drv log
       = S (raised drv outdated log + raised drv surface_lost log)) /\
   (forall k fuel,
       settles k drv -> only_transient drv -> (3 * k < fuel)%nat ->
       exists log, CopyToSwapchain fuel drv = (Returned tt, log))).
Proof.
  split.
  { intros R fuel r log. unfold CopyToSwapchain.
    now apply CopyToSwapchain_loop_no_escape. }
  intros R. split.
  - intros fuel log E. split.
    + pose proof (CopyToSwapchain_loop_ends drv fuel false [] (fun H => H)) as L.
      unfold CopyToSwapchain in E. rewrite E in L. apply L.
    + apply (CopyToSwapchain_loop_recovered R fuel false []); [|exact E].
      unfold balanced. cbv zeta. repeat split.
  - intros k fuel S T F. unfold CopyToSwapchain.
    apply (CopyToSwapchain_loop_settles R k S T).
    unfold unsettled. cbn [count_occ]. lia.
Qed.

End PresentManagerRecovery.

(** One out-of-date condition, raised by the acquisition: one recreation
    of the swapchain and the attempt that presents. *)
Lemma CopyToSwapchain_recovers_witness :
  PresentManager.recreation_succeeds (acquire_fails_once VK_ERROR_OUT_OF_DATE_KHR) /\
  PresentManager.settles 1 (acquire_fails_once VK_ERROR_OUT_OF_DATE_KHR) /\
  PresentManager.only_transient (acquire_fails_once VK_ERROR_OUT_OF_DATE_KHR) /\
  PresentManager.CopyToSwapchain 4 (acquire_fails_once VK_ERROR_OUT_OF_DATE_KHR)
  = (Returned tt,
     [PresentManager.AcquireNextImage; PresentManager.SwapchainCreate;
      PresentManager.AcquireNextImage; PresentManager.QueueSubmit;
      PresentManager.SwapchainPresent]) /\
  PresentManager.raised (acquire_fails_once VK_ERROR_OUT_OF_DATE_KHR)
    PresentManager.outdated
    (snd (PresentManager.CopyToSwapchain 4
            (acquire_fails_once VK_ERROR_OUT_OF_DATE_KHR))) = 1%nat /\
  count_occ PresentManager.DriverCall_eq_dec
    (snd (PresentManager.CopyToSwapchain 4
            (acquire_fails_once VK_ERROR_OUT_OF_DATE_KHR)))
    PresentManager.SwapchainCreate = 1%nat /\
  PresentManager.attempts (acquire_fails_once VK_ERROR_OUT_OF_DATE_KHR)
    (snd (PresentManager.CopyToSwapchain 4
            (acquire_fails_once VK_ERROR_OUT_OF_DATE_KHR))) = 2%nat.
Proof.
  assert (R : PresentManager.recreation_succeeds
                (acquire_fails_once VK_ERROR_OUT_OF_DATE_KHR))
    by (intros n; split; exists false; reflexivity).
  assert (S1 : PresentManager.settles 1
                 (acquire_fails_once VK_ERROR_OUT_OF_DATE_KHR)).
  { intros [|n] Hn; [lia|].
    split; [reflexivity|]. split; exists false; reflexivity. }
  assert (T : PresentManager.only_transient
                (acquire_fails_once VK_ERROR_OUT_OF_DATE_KHR)).
  { intros c n r. destruct c, n; cbn; intros [= <-]. reflexivity. }
  split; [exact R|]. split; [exact S1|]. split; [exact T|].
  destruct (CopyToSwapchain_recovers (acquire_fails_once VK_ERROR_OUT_OF_DATE_KHR))
    as (_ & Recovers).
  destruct (Recovers R) as (Counts & Returns).
  destruct (Returns 1%nat 4%nat S1 T) as (log & E); [cbn; lia|].
  destruct (Counts _ _ E) as (_ & _ & Sc & At).
  rewrite E. cbn [snd]. rewrite Sc, At.
  assert (L : log = [PresentManager.AcquireNextImage; PresentManager.SwapchainCreate;
                     PresentManager.AcquireNextImage; PresentManager.QueueSubmit;
                     PresentManager.SwapchainPresent])
    by (vm_compute in E; congruence).
  subst log. repeat split.
Defined.


Lemma CopyToSwapchain_returns_presented_witness :
  PresentManager.ends_presented (fails_once VK_SUBOPTIMAL_KHR)
    (snd (PresentManager.CopyToSwapchain 5 (fails_once VK_SUBOPTIMAL_KHR))).
Proof.
  exact (proj1 (CopyToSwapchain_returns_presented (fails_once VK_SUBOPTIMAL_KHR)
                  5 _ eq_refl)).
Defined.

Lemma CopyToSwapchain_throws_last_witness :
  exists log0,
    snd (PresentManager.CopyToSwapchain 5 (fails_once VK_ERROR_DEVICE_LOST))
    = log0 ++ [PresentManager.ReportLoss] /\
    PresentManager.raised_by_last_call (fails_once VK_ERROR_DEVICE_LOST)
      VK_ERROR_DEVICE_LOST log0.
Proof.
  destruct (CopyToSwapchain_throws_last (fails_once VK_ERROR_DEVICE_LOST)
              5 VK_ERROR_DEVICE_LOST _ eq_refl)
    as [(N & _) | (_ & log0 & E & _ & L)].
  - exfalso. apply N. cbn. auto 10.
  - exists log0. split; [exact E|exact L].
Defined.

(** X22.  The transfer to the swapchain image is a blit exactly when blits
    are supported and the frame and the swapchain image differ in size, and
    then, for sizes below 2^31, it maps the whole frame onto the whole
    swapchain image.  Otherwise it is a copy from the origin to the origin
    of the region the two images share, which fits both; for images of the
    same size that is the whole frame. *)
Theorem transfer_region (blit_supported : bool) (frame_width frame_height : Z)
    (swapchain_extent : VkExtent2D) :
  0 <= frame_width < 2 ^ 31 -> 0 <= frame_height < 2 ^ 31 ->
  0 <= width swapchain_extent < 2 ^ 31 ->
  0 <= height swapchain_extent < 2 ^ 31 ->
  let same := (frame_width =? width swapchain_extent) &&
              (frame_height =? height swapchain_extent) in
  match PresentManager.transfer blit_supported frame_width frame_height
          swapchain_extent with
  | PresentManager.BlitImage region =>
      blit_supported = true /\ same = false /\
      region = PresentManager.MakeImageBlit frame_width frame_height
                 (width swapchain_extent) (height swapchain_extent)
  | PresentManager.CopyImage region =>
      (blit_supported = false \/ same = true) /\
      PresentManager.extent_width (PresentManager.extent region) <= frame_width /\
      PresentManager.extent_width (PresentManager.extent region)
        <= width swapchain_extent /\
      PresentManager.extent_height (PresentManager.extent region) <= frame_height /\
      PresentManager.extent_height (PresentManager.extent region)
        <= height swapchain_extent /\
      (same = true ->
       PresentManager.extent region
       = {| PresentManager.extent_width := frame_width;
            PresentManager.extent_height := frame_height;
            PresentManager.extent_depth := 1 |})
  end.
Proof.
  intros Hw Hh Sw Sh same. subst same. unfold PresentManager.transfer.
  assert (S32 : forall v, 0 <= v < 2 ^ 31 -> PresentManager.to_s32 v = v).
  { intros v Hv. unfold PresentManager.to_s32.
    rewrite Z.mod_small by lia. lia. }
  destruct (Z.eqb_spec frame_width (width swapchain_extent)) as [Ew|Ew];
    destruct (Z.eqb_spec frame_height (height swapchain_extent)) as [Eh|Eh];
    destruct blit_supported; cbn [andb orb negb];
    rewrite ?S32 by assumption;
    repeat split; auto; cbn; try lia; try discriminate.
  - rewrite <- Ew, <- Eh, !Z.min_id. reflexivity.
  - rewrite <- Ew, <- Eh, !Z.min_id. reflexivity.
Qed.

Lemma transfer_region_witness :
  PresentManager.transfer true 1280 720 {| width := 1920; height := 1080 |}
  = PresentManager.BlitImage
      (PresentManager.MakeImageBlit 1280 720 1920 1080) /\
  PresentManager.transfer false 1280 720 {| width := 1920; height := 1080 |}
  = PresentManager.CopyImage
      (PresentManager.MakeImageCopy 1280 720 1920 1080).
Proof.
  pose proof (transfer_region true 1280 720 {| width := 1920; height := 1080 |})
    as T.
  split; [|reflexivity].
  destruct (PresentManager.transfer true 1280 720
              {| width := 1920; height := 1080 |}) as [region|region] eqn:E.
  - destruct T as (_ & _ & ->); cbn; try lia. reflexivity.
  - discriminate E.
Defined.

(* ================================================================== *)
(** * Further properties of the present manager: the frames *)
(* ================================================================== *)

Section FrameProperties.

Import PresentManager.

Lemma count_seq_le n frame : (count_occ Nat.eq_dec (seq 0 n) frame <= 1)%nat.
Proof. apply NoDup_count_occ. apply seq_NoDup. Qed.

Lemma remove_head frame rest :
  count_occ Nat.eq_dec rest frame = O ->
  remove Nat.eq_dec frame (frame :: rest) = rest.
Proof.
  intros C. cbn [remove]. destruct (Nat.eq_dec frame frame); [|contradiction].
  apply notin_remove. now apply count_occ_not_In in C.
Qed.

Lemma accepted_submits_snoc drv log c :
  accepted_submits drv (log ++ [c])
  = (accepted_submits drv log
     + match c with
       | QueueSubmit =>
           if accepted (drv QueueSubmit
                            (count_occ DriverCall_eq_dec log QueueSubmit))
           then 1 else 0
       | _ => 0
       end)%nat.
Proof.
  unfold accepted_submits. rewrite count_occ_app.
  destruct c; cbn [count_occ]; destruct (DriverCall_eq_dec _ _) as [E|E];
    try discriminate E; try contradiction; rewrite ?Nat.add_0_r; try reflexivity.
  rewrite Nat.add_1_r, seq_S, filter_app, length_app. cbn [filter Nat.add].
  now destruct (accepted (drv QueueSubmit _)).
Qed.

Lemma fence_along_snoc drv calls c :
  forall before st,
    fence_along drv before (calls ++ [c]) st
    = fence_call drv (before ++ calls) c (fence_along drv before calls st).
Proof.
  induction calls as [|d calls IH]; intros before st; cbn [fence_along app].
  - now rewrite app_nil_r.
  - rewrite IH, <- app_assoc. reflexivity.
Qed.

(** A fence that is not in the reset state does not come back to it. *)
Lemma fence_call_keeps drv before c st :
  st <> FenceUnsignaled -> fence_call drv before c st <> FenceUnsignaled.
Proof.
  intros N. unfold fence_call.
  destruct c; try exact N.
  - now destruct st.
  - destruct (accepted _); [now destruct st | exact N].
Qed.

Lemma fence_along_keeps drv calls :
  forall before st,
    st <> FenceUnsignaled -> fence_along drv before calls st <> FenceUnsignaled.
Proof.
  induction calls as [|c calls IH]; intros before st N; cbn [fence_along];
    [exact N|].
  apply IH. now apply fence_call_keeps.
Qed.

(** The fence of a frame along the calls of [CopyToSwapchain], from the
    reset state: reset while no submit was accepted, pending or signaled
    after one, handed over again after more. *)
Lemma fence_along_states drv log :
  let st := fence_along drv [] log FenceUnsignaled in
  match accepted_submits drv log with
  | O => st = FenceUnsignaled
  | S O => st = FencePending \/ st = FenceSignaled
  | S (S _) => st = FenceResubmitted
  end.
Proof.
  induction log as [|c log IH] using rev_ind; [reflexivity|].
  cbv zeta in *. rewrite fence_along_snoc, accepted_submits_snoc.
  cbn [app]. set (st := fence_along drv [] log FenceUnsignaled) in *.
  destruct c; rewrite ?Nat.add_0_r; cbn [fence_call]; try exact IH.
  - destruct (accepted_submits drv log) as [|[|k]].
    + now rewrite IH.
    + destruct IH as [-> | ->]; auto.
    + now rewrite IH.
  - destruct (accepted (drv QueueSubmit _)); rewrite ?Nat.add_0_r; [|exact IH].
    rewrite Nat.add_1_r.
    destruct (accepted_submits drv log) as [|[|k]].
    + rewrite IH. now left.
    + destruct IH as [-> | ->]; reflexivity.
    + now rewrite IH.
Qed.

Lemma fence_along_accepted drv log st :
  (0 < accepted_submits drv log)%nat ->
  fence_along drv [] log st <> FenceUnsignaled.
Proof.
  induction log as [|c log IH] using rev_ind; [cbn; lia|].
  rewrite fence_along_snoc, accepted_submits_snoc. cbn [app]. intros A.
  destruct (Nat.eq_dec (accepted_submits drv log) 0) as [Z0|Z0].
  - destruct c; rewrite ?Nat.add_0_r in A; try lia.
    cbn [fence_call]. destruct (accepted (drv QueueSubmit _)); [|lia].
    now destruct (fence_along drv [] log st).
  - apply fence_call_keeps. apply IH. lia.
Qed.

(** A copy that returns has had its last submit accepted, and nothing but
    the present after it. *)
Lemma returned_submit_accepted fuel drv log :
  CopyToSwapchain fuel drv = (Returned tt, log) ->
  (0 < accepted_submits drv log)%nat /\
  fence_along drv [] log FenceUnsignaled
  = match accepted_submits drv log with
    | 1%nat => FencePending
    | _ => FenceResubmitted
    end.
Proof.
  intros E. unfold CopyToSwapchain in E.
  pose proof (CopyToSwapchain_loop_ends drv fuel false [] (fun H => H)) as L.
  rewrite E in L. destruct L as (_ & log0 & b1 & b2 & -> & _ & S & _).
  replace (log0 ++ [AcquireNextImage; QueueSubmit; SwapchainPresent])
    with (((log0 ++ [AcquireNextImage]) ++ [QueueSubmit]) ++ [SwapchainPresent])
    by (now rewrite <- !app_assoc).
  assert (C : count_occ DriverCall_eq_dec (log0 ++ [AcquireNextImage]) QueueSubmit
              = count_occ DriverCall_eq_dec log0 QueueSubmit).
  { rewrite count_occ_app. cbn [count_occ].
    destruct (DriverCall_eq_dec AcquireNextImage QueueSubmit) as [D|_];
      [discriminate D|]. apply Nat.add_0_r. }
  rewrite !accepted_submits_snoc, !fence_along_snoc.
  cbn [fence_call app]. rewrite !C, !Nat.add_0_r, S. cbn [accepted].
  split; [lia|].
  pose proof (fence_along_states drv log0) as F. cbv zeta in F.
  rewrite Nat.add_1_r.
  destruct (accepted_submits drv log0) as [|[|k]].
  - now rewrite F.
  - destruct F as [-> | ->]; reflexivity.
  - now rewrite F.
Qed.

Lemma fence_after_fields drv log frame pm :
  free_queue (fence_after drv log frame pm) = free_queue pm /\
  scheduled (fence_after drv log frame pm) = scheduled pm /\
  present_queue (fence_after drv log frame pm) = present_queue pm /\
  taken (fence_after drv log frame pm) = taken pm /\
  held (fence_after drv log frame pm) = held pm /\
  asked (fence_after drv log frame pm) = asked pm /\
  copied (fence_after drv log frame pm) = copied pm /\
  lost (fence_after drv log frame pm) = lost pm /\
  use_present_thread (fence_after drv log frame pm) = use_present_thread pm /\
  (forall f, present_done pm f <> FenceUnsignaled ->
             present_done (fence_after drv log frame pm) f <> FenceUnsignaled) /\
  ((0 < accepted_submits drv log)%nat ->
   present_done (fence_after drv log frame pm) frame <> FenceUnsignaled) /\
  present_done (fence_after drv log frame pm) frame
  = fence_along drv [] log (present_done pm frame).
Proof.
  unfold fence_after. cbn. repeat split; auto.
  - intros f N. destruct (Nat.eqb_spec f frame) as [->|_]; [|exact N].
    now apply fence_along_keeps.
  - intros A. rewrite Nat.eqb_refl. now apply fence_along_accepted.
  - now rewrite Nat.eqb_refl.
Qed.

Ltac count_frames C n :=
  let x := fresh "x" in
  intros x; specialize (C x); pose proof (count_seq_le n x);
  unfold whereabouts, taken_frames in *; cbn in *;
  rewrite ?count_occ_app in *; cbn in *;
  repeat match goal with
         | |- context [Nat.eq_dec ?a ?b] => destruct (Nat.eq_dec a b)
         | H : context [Nat.eq_dec ?a ?b] |- _ => destruct (Nat.eq_dec a b)
         end;
  rewrite ?count_occ_app in *; cbn in *; try lia.

Lemma GetRenderFrame_accounted n pm frame pm' :
  accounted n pm -> GetRenderFrame pm = Some (frame, pm') -> accounted n pm'.
Proof.
  intros (C & F & O). unfold GetRenderFrame.
  destruct (free_queue pm) as [|f rest] eqn:Q; [discriminate|].
  destruct (present_done pm f) eqn:D; try discriminate.
  intros [= <- <-]. split; [|split].
  - unfold whereabouts in *. cbn. rewrite Q in C. count_frames C n.
  - cbn. intros g Hg.
    destruct (Nat.eqb_spec g f) as [->|N].
    + exfalso. specialize (C f). pose proof (count_seq_le n f) as Le.
      unfold whereabouts in C. rewrite Q in C. cbn in C.
      destruct (Nat.eq_dec f f); [|contradiction].
      rewrite count_occ_app in C.
      apply (count_occ_In Nat.eq_dec) in Hg. lia.
    + apply F. rewrite ?Q. now right.
  - cbn. exact O.
Qed.

Lemma Present_accounted n pm frame rest fuel drv :
  accounted n pm -> held pm = frame :: rest ->
  accounted n (snd (Present frame fuel drv pm)).
Proof.
  intros (C & F & O) H.
  assert (R : remove Nat.eq_dec frame (held pm) = rest).
  { rewrite H. apply remove_head.
    specialize (C frame). pose proof (count_seq_le n frame) as Le.
    unfold whereabouts in C. rewrite H in C.
    rewrite !count_occ_app in C. cbn in C.
    destruct (Nat.eq_dec frame frame); [|contradiction]. lia. }
  unfold Present. rewrite R.
  destruct (use_present_thread pm) eqn:U.
  - cbn. split; [|split].
    + unfold whereabouts in *. cbn. rewrite H in C. count_frames C n.
    + cbn. exact F.
    + cbn. intros _. rewrite (O eq_refl), <- !app_assoc. reflexivity.
  - destruct (CopyToSwapchain fuel drv) as [[u | r |] log] eqn:E; cbn [snd].
    + destruct u.
      pose proof (proj1 (returned_submit_accepted _ _ _ E)) as A.
      match goal with
      | |- context [fence_after drv log frame ?x] =>
          destruct (fence_after_fields drv log frame x)
            as (E1 & E2 & E3 & E4 & E5 & E6 & E7 & E8 & E9 & E10 & E11 & _);
          set (pm2 := fence_after drv log frame x) in *
      end.
      cbn in E1, E2, E3, E4, E5, E6, E7, E8, E9, E10.
      split; [|split].
      * unfold whereabouts, taken_frames in *. cbn.
        rewrite E1, E2, E3, E4, E5, E8. rewrite H in C. count_frames C n.
      * cbn. rewrite E1. intros g Hg. apply in_app_or in Hg.
        destruct Hg as [Hg | [<- | []]].
        -- apply E10. now apply F.
        -- exact (E11 A).
      * cbn. rewrite E9. cbn. intros U'. congruence.
    + match goal with
      | |- context [fence_after drv log frame ?x] =>
          destruct (fence_after_fields drv log frame x)
            as (E1 & E2 & E3 & E4 & E5 & E6 & E7 & E8 & E9 & E10 & E11 & _);
          set (pm2 := fence_after drv log frame x) in *
      end.
      cbn in E1, E2, E3, E4, E5, E6, E7, E8, E9, E10.
      split; [|split].
      * unfold whereabouts, taken_frames in *. cbn.
        rewrite E1, E2, E3, E4, E5, E8. rewrite H in C. count_frames C n.
      * cbn. rewrite E1. intros g Hg. apply E10. now apply F.
      * cbn. rewrite E9. cbn. intros U'. congruence.
    + split; [exact C|split; [exact F|]]. intros U'. congruence.
Qed.

Lemma frame_step_accounted n e pm : accounted n pm -> accounted n (frame_step e pm).
Proof.
  intros I. unfold frame_step. destruct (thread_alive pm); [|exact I].
  destruct e as [| fuel drv | | | fuel drv | frame].
  - destruct (GetRenderFrame pm) as [[frame pm']|] eqn:G; [|exact I].
    now apply (GetRenderFrame_accounted n pm frame pm').
  - destruct (held pm) as [|frame rest] eqn:H; [exact I|].
    now apply (Present_accounted n pm frame rest).
  - unfold run_present_closure.
    destruct (scheduled pm) as [|frame rest] eqn:S; [exact I|].
    destruct I as (C & F & O).
    split; [|split]; cbn.
    + unfold whereabouts in *. cbn. rewrite S in C. count_frames C n.
    + exact F.
    + intros U. rewrite (O U), S, <- !app_assoc. reflexivity.
  - destruct (use_present_thread pm) eqn:U; [|exact I].
    unfold PresentThread_pop.
    destruct (taken pm) eqn:T; [exact I|].
    destruct (present_queue pm) as [|frame rest] eqn:Q; [exact I|].
    destruct I as (C & F & O).
    split; [|split]; cbn.
    + unfold whereabouts, taken_frames in *. cbn. rewrite T, Q in C.
      count_frames C n.
    + exact F.
    + intros _. rewrite (O U). unfold taken_frames. now rewrite T, Q.
  - destruct (use_present_thread pm) eqn:U; [|exact I].
    unfold PresentThread_copy.
    destruct (taken pm) as [frame|] eqn:T; [|exact I].
    destruct (CopyToSwapchain fuel drv) as [[u | r |] log] eqn:E; [| |exact I].
    + destruct u. destruct I as (C & F & O).
      pose proof (proj1 (returned_submit_accepted _ _ _ E)) as A.
      destruct (fence_after_fields drv log frame pm)
        as (E1 & E2 & E3 & E4 & E5 & E6 & E7 & E8 & E9 & E10 & E11 & _).
      set (pm2 := fence_after drv log frame pm) in *.
      split; [|split]; cbn.
      * unfold whereabouts, taken_frames in *. cbn.
        rewrite E1, E2, E3, E5, E8. rewrite T in C. count_frames C n.
      * rewrite E1. intros g Hg. apply in_app_or in Hg.
        destruct Hg as [Hg | [<- | []]].
        -- apply E10. now apply F.
        -- exact (E11 A).
      * intros _. rewrite E6, E7, E3, E2, (O U). unfold taken_frames.
        rewrite T, <- !app_assoc. reflexivity.
    + destruct I as (C & F & O).
      destruct (fence_after_fields drv log frame pm)
        as (E1 & E2 & E3 & E4 & E5 & E6 & E7 & E8 & E9 & E10 & E11 & _).
      set (pm2 := fence_after drv log frame pm) in *.
      split; [|split]; cbn.
      * unfold whereabouts, taken_frames in *. cbn.
        rewrite E1, E2, E3, E4, E5, E8. exact C.
      * rewrite E1. intros g Hg. apply E10. now apply F.
      * intros _. unfold taken_frames. cbn [taken stop_thread].
        rewrite E6, E7, E4, E3, E2. now apply O.
  - unfold signal_fence.
    destruct (present_done pm frame) eqn:D; try exact I;
      destruct I as (C & F & O);
      (split; [|split]; cbn; auto);
      intros g Hg; (destruct (Nat.eqb g frame); [discriminate|now apply F]).
Qed.

Lemma frame_run_accounted n evs :
  forall pm, accounted n pm -> accounted n (frame_run evs pm).
Proof.
  induction evs as [|e evs IH]; intros pm I; [exact I|].
  cbn [frame_run]. apply IH. now apply frame_step_accounted.
Qed.

Lemma create_accounted async_presentation swapchain_image_count :
  accounted (Z.to_nat (SetImageCount swapchain_image_count))
            (create async_presentation swapchain_image_count).
Proof.
  split; [|split]; cbn.
  - intros frame. unfold whereabouts. cbn. now rewrite app_nil_r.
  - discriminate.
  - reflexivity.
Qed.

Lemma image_count_bounds swapchain_image_count :
  (2 <= Z.to_nat (SetImageCount swapchain_image_count) <= 3)%nat.
Proof. unfold SetImageCount, MAX_FRAMES_IN_FLIGHT. lia. Qed.

(** X23.  No frame is ever in two hands.  The present manager has two or
    three frames, and whatever the renderer, the scheduler, the present
    thread and the GPU do, each frame is in exactly one place: in the free
    queue, with the renderer, with the scheduler as a closure not yet run,
    in the present queue, with the present thread, or lost to an exception
    of [Present].  A frame of the free queue has a fence that is signaled or
    was handed to the queue with a submit since its reset, so that
    [GetRenderFrame] does not wait on a fence that was never submitted. *)
Theorem frames_accounted (async_presentation : bool)
    (swapchain_image_count : Z) (evs : list FrameEvent) :
  let n := Z.to_nat (SetImageCount swapchain_image_count) in
  let pm := frame_run evs (create async_presentation swapchain_image_count) in
  (2 <= n <= 3)%nat /\
  Permutation (whereabouts pm) (seq 0 n) /\
  NoDup (whereabouts pm) /\
  forall frame,
    In frame (free_queue pm) -> present_done pm frame <> FenceUnsignaled.
Proof.
  intros n pm.
  destruct (frame_run_accounted n evs _
              (create_accounted async_presentation swapchain_image_count))
    as (C & F & _).
  fold pm in C, F.
  assert (P : Permutation (whereabouts pm) (seq 0 n))
    by (apply (Permutation_count_occ Nat.eq_dec); exact C).
  split; [apply image_count_bounds|]. split; [exact P|]. split; [|exact F].
  apply (Permutation_NoDup (Permutation_sym P)). apply seq_NoDup.
Qed.

Lemma frame_step_mode e pm :
  use_present_thread (frame_step e pm) = use_present_thread pm.
Proof.
  unfold frame_step. destruct (thread_alive pm); [|reflexivity].
  destruct e as [| fuel drv | | | fuel drv | frame].
  - unfold GetRenderFrame. destruct (free_queue pm) as [|f rest]; [reflexivity|].
    now destruct (present_done pm f).
  - destruct (held pm) as [|frame rest]; [reflexivity|]. unfold Present.
    destruct (use_present_thread pm) eqn:U; [exact U|].
    destruct (CopyToSwapchain fuel drv) as [[u | r |] log]; cbn [snd];
      [| |exact U];
      match goal with
      | |- context [fence_after drv log frame ?y] =>
          destruct (fence_after_fields drv log frame y)
            as (_ & _ & _ & _ & _ & _ & _ & _ & E9 & _)
      end; cbn; rewrite E9; exact U.
  - unfold run_present_closure. now destruct (scheduled pm).
  - destruct (use_present_thread pm) eqn:U; [|exact U].
    unfold PresentThread_pop. destruct (taken pm); [exact U|].
    now destruct (present_queue pm).
  - destruct (use_present_thread pm) eqn:U; [|exact U].
    unfold PresentThread_copy. destruct (taken pm) as [frame|]; [|exact U].
    destruct (CopyToSwapchain fuel drv) as [[u | r |] log]; [| |exact U];
      destruct (fence_after_fields drv log frame pm)
        as (_ & _ & _ & _ & _ & _ & _ & _ & E9 & _); cbn; rewrite E9; exact U.
  - unfold signal_fence. now destruct (present_done pm frame).
Qed.

Lemma frame_run_mode evs :
  forall pm, use_present_thread (frame_run evs pm) = use_present_thread pm.
Proof.
  induction evs as [|e evs IH]; intros pm; [reflexivity|].
  cbn [frame_run]. now rewrite IH, frame_step_mode.
Qed.

(** X24.  With the present thread, frames reach the swapchain in the order
    of the calls of [Present]: the frames passed to [Present] are, oldest
    first, those copied, then the one the present thread holds, then those
    of the present queue, then those whose closure the scheduler has not
    run. *)
Theorem frames_presented_in_order (swapchain_image_count : Z)
    (evs : list FrameEvent) :
  let pm := frame_run evs (create true swapchain_image_count) in
  asked pm = copied pm ++ taken_frames pm ++ present_queue pm ++ scheduled pm.
Proof.
  intros pm.
  destruct (frame_run_accounted _ evs _
              (create_accounted true swapchain_image_count)) as (_ & _ & O).
  apply O. apply frame_run_mode.
Qed.

(** X25.  [WaitPresent] with the present thread waits for the present
    queue and for nothing else.  When it returns the present queue is
    empty and the frames passed to [Present] are those copied, followed by
    the frame the present thread has popped and by the frames still with
    the scheduler.  It returns while a frame is not copied yet: after one
    [Present] whose closure has run, as soon as the thread has popped the
    frame, with nothing copied. *)
Theorem WaitPresent_returns (swapchain_image_count : Z) :
  (forall evs pm',
      WaitPresent (frame_run evs (create true swapchain_image_count)) = Some pm' ->
      pm' = frame_run evs (create true swapchain_image_count) /\
      present_queue pm' = [] /\
      asked pm' = copied pm' ++ taken_frames pm' ++ scheduled pm') /\
  (forall fuel drv,
      exists pm',
        WaitPresent (frame_run [Renders; Presents fuel drv; SchedulerRuns; ThreadPops]
                               (create true swapchain_image_count)) = Some pm' /\
        asked pm' = [O] /\ taken pm' = Some O /\ copied pm' = []).
Proof.
  split.
  - intros evs pm'.
    destruct (frame_run_accounted _ evs _
                (create_accounted true swapchain_image_count)) as (_ & _ & O).
    pose proof (frame_run_mode evs (create true swapchain_image_count)) as U.
    set (pm := frame_run evs (create true swapchain_image_count)) in *.
    unfold WaitPresent. rewrite U. cbn [use_present_thread create].
    destruct (present_queue pm) eqn:Q; [|discriminate].
    intros [= <-]. split; [reflexivity|]. split; [exact Q|].
    exact (O U).
  - intros fuel drv.
    pose proof (image_count_bounds swapchain_image_count) as B.
    unfold WaitPresent, create.
    destruct (Z.to_nat (SetImageCount swapchain_image_count)) as [|n];
      [lia|].
    cbn. eexists. split; [reflexivity|]. cbn. auto.
Qed.

(** X26.  Without the present thread [Present] is synchronous.  When it
    returns the frame has been copied and is the last frame of the free
    queue.  Its fence, reset when the renderer got the frame, has then been
    handed to the queue with the submit of the copy: once, and it is
    pending, when the call made one submit that the queue accepted; again
    without a reset when an attempt was repeated after its submit, the call
    having no [Reset] of its own.  When the copy throws, the exception is
    that of [CopyToSwapchain] and the frame does not come back to the free
    queue. *)
Theorem Present_synchronous (frame fuel : nat) (drv : Driver) (pm : t) :
  use_present_thread pm = false ->
  match Present frame fuel drv pm with
  | (Returned _, pm') =>
      free_queue pm' = free_queue pm ++ [frame] /\
      copied pm' = copied pm ++ [frame] /\
      lost pm' = lost pm /\
      (present_done pm frame = FenceUnsignaled ->
       present_done pm' frame
       = match accepted_submits drv (snd (CopyToSwapchain fuel drv)) with
         | 1%nat => FencePending
         | _ => FenceResubmitted
         end)
  | (Threw result, pm') =>
      free_queue pm' = free_queue pm /\
      copied pm' = copied pm /\
      lost pm' = lost pm ++ [frame] /\
      fst (CopyToSwapchain fuel drv) = Threw result
  | (OutOfFuel, pm') => pm' = pm
  end.
Proof.
  intros U. unfold Present. rewrite U.
  destruct (CopyToSwapchain fuel drv) as [[u | r |] log] eqn:E; [| |reflexivity].
  - destruct u. pose proof (proj2 (returned_submit_accepted _ _ _ E)) as A.
    match goal with
    | |- context [fence_after drv log frame ?y] =>
        destruct (fence_after_fields drv log frame y)
          as (E1 & _ & _ & _ & _ & _ & E7 & E8 & _ & _ & _ & E12)
    end.
    cbn in *. rewrite E1, E7, E8, E12.
    split; [reflexivity|]. split; [reflexivity|]. split; [reflexivity|].
    intros D. rewrite D. exact A.
  - match goal with
    | |- context [fence_after drv log frame ?y] =>
        destruct (fence_after_fields drv log frame y)
          as (E1 & _ & _ & _ & _ & _ & E7 & E8 & _)
    end.
    cbn in *. rewrite E1, E7, E8. auto.
Qed.

(** Frame 0 presented on a driver whose first present is suboptimal: the
    copy is submitted twice, and the fence is handed to the queue the second
    time as the first submit left it. *)
Lemma Present_synchronous_witness :
  let pm := frame_run [Renders] (create false 3) in
  use_present_thread pm = false /\
  present_done pm O = FenceUnsignaled /\
  accepted_submits (fails_once VK_SUBOPTIMAL_KHR)
    (snd (CopyToSwapchain 5 (fails_once VK_SUBOPTIMAL_KHR))) = 2%nat /\
  free_queue (snd (Present O 5 (fails_once VK_SUBOPTIMAL_KHR) pm)) = [1; 2; 0]%nat /\
  present_done (snd (Present O 5 (fails_once VK_SUBOPTIMAL_KHR) pm)) O
  = FenceResubmitted.
Proof.
  intros pm. split; [reflexivity|]. split; [reflexivity|].
  split; [reflexivity|].
  pose proof (Present_synchronous O 5 (fails_once VK_SUBOPTIMAL_KHR) pm eq_refl)
    as P.
  destruct (Present O 5 (fails_once VK_SUBOPTIMAL_KHR) pm) as [[u | r |] pm']
    eqn:E; [|discriminate E|discriminate E].
  destruct P as (F & _ & _ & D). cbn [snd]. split; [exact F|].
  exact (D eq_refl).
Defined.

End FrameProperties.
